(** * Graph Motif Models (drewconway/GMM): a shallow embedding of
    [gmm/gmm.py] and [gmm/algorithms.py].

    Python values are modelled as the code has them:
    - Python [float] and [numpy.float64] are IEEE binary64, here Rocq's
      primitive [float]; the two are kept apart, since a division by zero
      raises for the first and gives [nan] or an infinity for the second;
    - Python [int] is [Z];
    - a raised exception is the [Raise] case of [res];
    - NetworkX graphs (an external library) are adjacency dictionaries,
      modelled by association lists kept in ascending key order, which is
      the iteration order of a CPython dictionary whose keys are the small
      non-negative integers the package uses as node labels;
    - [scipy.stats.poisson.pmf] (an external library) is a section variable;
    - [scipy.random.uniform()] is the stream of the values it returns, a
      section variable; [draw_structure] takes the value drawn as an
      argument;
    - [numpy.random.randint] (an external library), which the growth rule
      [rand_add] of the examples calls, takes the value the generator
      supplies as an argument and reduces it to the range asked for. *)

From Stdlib Require Import String DecimalString ZArith List Sorted Bool Floats Uint63 Lia.
Import ListNotations.

Set Implicit Arguments.

(** ** Exceptions and results *)

Inductive exn : Type :=
| TypeError
| ValueError
| IndexError
| ZeroDivisionError
| NetworkXError.

Inductive res (A : Type) : Type :=
| OK (a : A)
| Raise (e : exn).

Arguments OK {A} a.
Arguments Raise {A} e.

Definition bind {A B : Type} (r : res A) (k : A -> res B) : res B :=
  match r with
  | OK a => k a
  | Raise e => Raise e
  end.

Declare Scope res_scope.
Delimit Scope res_scope with res.
Notation "x <- c ;; k" := (bind c (fun x => k))
  (at level 61, c at next level, right associativity) : res_scope.
Notation "' p <- c ;; k" := (bind c (fun p => k))
  (at level 61, p pattern, c at next level, right associativity) : res_scope.

Open Scope res_scope.

(** [map] over a list with a function that may raise: the first exception
    met, left to right, is the one raised (Python 2's eager [map] and list
    comprehensions). *)
Fixpoint map_res {A B : Type} (f : A -> res B) (l : list A) : res (list B) :=
  match l with
  | [] => OK []
  | a :: l' => b <- f a ;; bs <- map_res f l' ;; OK (b :: bs)
  end.

(** [l[i]] for a non-negative index. *)
Definition getitem {A : Type} (l : list A) (i : nat) : res A :=
  match nth_error l i with
  | Some a => OK a
  | None => Raise IndexError
  end.

(** [l[i] = v] for a non-negative index. *)
Fixpoint setitem {A : Type} (l : list A) (i : nat) (v : A) : res (list A) :=
  match l, i with
  | [], _ => Raise IndexError
  | _ :: l', O => OK (v :: l')
  | a :: l', S i' => l'' <- setitem l' i' v ;; OK (a :: l'')
  end.

(** ** Python numbers

    The third component of a motif record is a count (an [int]) after
    [motif_counts], a ratio (a [float]) after the ratio policy and a mass
    (a [numpy.float64], which is what SciPy returns) after the Poisson
    policy, so a number is one of the three. Arithmetic follows Python 2:
    [int / int] is floor division; a mixed operation converts the [int]
    operand; an operation with a [numpy.float64] on either side is NumPy's
    and gives a [numpy.float64]; a zero divisor raises [ZeroDivisionError]
    unless one side is a [numpy.float64], when the quotient is the IEEE one
    ([nan] or an infinity). *)

Module PyNum.

Inductive num : Type :=
| PyInt (z : Z)
| PyFloat (f : float)
| NpFloat (f : float).

(** The binary64 value nearest to [z], ties to even, which is [float(z)]
    for every [z] that has one: for [|z| >= 2^1024 - 2^970] Python raises
    [OverflowError], and the value here is an infinity. A count is the
    number of items of an enumeration and stays far below that; the
    statements that range over other records bound their [int] values. *)
Definition float_of_Z (z : Z) : float :=
  SF2Prim (binary_normalize prec emax z 0 false).

Definition to_float (x : num) : float :=
  match x with
  | PyInt z => float_of_Z z
  | PyFloat f => f
  | NpFloat f => f
  end.

Definition is_numpy (x : num) : bool :=
  match x with
  | NpFloat _ => true
  | _ => false
  end.

Definition add (x y : num) : num :=
  match x, y with
  | PyInt a, PyInt b => PyInt (a + b)
  | _, _ =>
      if is_numpy x || is_numpy y
      then NpFloat (PrimFloat.add (to_float x) (to_float y))
      else PyFloat (PrimFloat.add (to_float x) (to_float y))
  end.

Definition is_zero (x : num) : bool :=
  match x with
  | PyInt z => (z =? 0)%Z
  | PyFloat f => PrimFloat.eqb f 0%float
  | NpFloat f => PrimFloat.eqb f 0%float
  end.

Definition div (x y : num) : res num :=
  if is_numpy x || is_numpy y
  then OK (NpFloat (PrimFloat.div (to_float x) (to_float y)))
  else if is_zero y then Raise ZeroDivisionError
  else match x, y with
       | PyInt a, PyInt b => OK (PyInt (a / b))
       | _, _ => OK (PyFloat (PrimFloat.div (to_float x) (to_float y)))
       end.

(** [f > z] for a float and an [int]: Python compares the two values
    exactly, without converting the [int]. *)
Definition float_gt_Z (f : float) (z : Z) : bool :=
  match Prim2SF f with
  | S754_zero _ => (z <? 0)%Z
  | S754_infinity s => negb s
  | S754_nan => false
  | S754_finite s m e =>
      let v := if s then Z.neg m else Z.pos m in
      if (0 <=? e)%Z then (z <? v * 2 ^ e)%Z else (z * 2 ^ (- e) <? v)%Z
  end.

(** [draw > y] for a [float] on the left, which is what [draw_structure]
    compares. *)
Definition gt (draw : float) (y : num) : bool :=
  match y with
  | PyInt z => float_gt_Z draw z
  | PyFloat f => PrimFloat.ltb f draw
  | NpFloat f => PrimFloat.ltb f draw
  end.

(** The builtin [sum]: starts from the [int] 0 and adds left to right. *)
Definition sum (l : list num) : num := fold_left add l (PyInt 0).

End PyNum.

Import PyNum.

(** ** NetworkX graphs

    The part of NetworkX 1.x the package calls. A graph is its adjacency
    dictionary (node to neighbours; successors for a [DiGraph]), a flag for
    its class and its [name] attribute. An undirected graph stores every
    edge under both end points. *)

Module NX.

Local Open Scope Z_scope.

Definition node := Z.
Definition edge := (node * node)%type.

Record Graph : Type := mkGraph {
  directed : bool;
  name : string;
  adj : list (node * list node)
}.

Definition set_adj (g : Graph) (a : list (node * list node)) : Graph :=
  mkGraph (directed g) (name g) a.

Definition set_name (g : Graph) (s : string) : Graph :=
  mkGraph (directed g) s (adj g).

Definition is_directed (g : Graph) : bool := directed g.

Definition mem (n : node) (l : list node) : bool := existsb (Z.eqb n) l.

(** Insertion of a key in a neighbour dictionary (ascending, no repeats). *)
Fixpoint insert_key (n : node) (l : list node) : list node :=
  match l with
  | [] => [n]
  | m :: l' =>
      if (n <? m)%Z then n :: l
      else if (n =? m)%Z then l
      else m :: insert_key n l'
  end.

Definition delete_key (n : node) (l : list node) : list node :=
  filter (fun m => negb (m =? n)%Z) l.

Fixpoint dict_get (d : list (node * list node)) (n : node) : option (list node) :=
  match d with
  | [] => None
  | (m, v) :: d' => if (n =? m)%Z then Some v else dict_get d' n
  end.

(** [d[n] = f(d[n])], the entry being created empty when it is missing. *)
Fixpoint dict_update (f : list node -> list node) (n : node)
    (d : list (node * list node)) : list (node * list node) :=
  match d with
  | [] => [(n, f [])]
  | (m, v) :: d' =>
      if (n <? m)%Z then (n, f []) :: d
      else if (n =? m)%Z then (m, f v) :: d'
      else (m, v) :: dict_update f n d'
  end.

Definition nodes (g : Graph) : list node := map fst (adj g).

Definition neighbors (g : Graph) (n : node) : list node :=
  match dict_get (adj g) n with
  | Some l => l
  | None => []
  end.

Definition predecessors (g : Graph) (n : node) : list node :=
  map fst (filter (fun e => mem n (snd e)) (adj g)).

Definition has_edge (g : Graph) (u v : node) : bool := mem v (neighbors g u).

Definition add_node (g : Graph) (n : node) : Graph :=
  set_adj g (dict_update (fun l => l) n (adj g)).

Definition add_edge (g : Graph) (u v : node) : Graph :=
  let a := dict_update (fun l => l) v (adj g) in
  let a := dict_update (insert_key v) u a in
  set_adj g (if directed g then a else dict_update (insert_key u) v a).

(** [G.remove_edge(u, v)]: NetworkX raises when the edge is absent. *)
Definition remove_edge (g : Graph) (u v : node) : res Graph :=
  if has_edge g u v then
    let a := dict_update (delete_key v) u (adj g) in
    OK (set_adj g (if directed g then a else dict_update (delete_key u) v a))
  else Raise NetworkXError.

(** [Graph.edges()]: every edge once, reported from the end point that the
    node iteration meets first. *)
Fixpoint edges_unseen (d : list (node * list node)) (seen : list node) : list edge :=
  match d with
  | [] => []
  | (n, nbrs) :: d' =>
      map (pair n) (filter (fun nbr => negb (mem nbr seen)) nbrs)
        ++ edges_unseen d' (n :: seen)
  end.

(** [G.edges()] *)
Definition edges (g : Graph) : list edge :=
  if directed g
  then flat_map (fun e => map (pair (fst e)) (snd e)) (adj g)
  else edges_unseen (adj g) [].

Definition number_of_nodes (g : Graph) : Z := Z.of_nat (length (adj g)).

Definition number_of_edges (g : Graph) : Z := Z.of_nat (length (edges g)).

Definition from_edges (d : bool) (es : list edge) : Graph :=
  fold_left (fun g e => add_edge g (fst e) (snd e)) es (mkGraph d EmptyString []).

(** [nx.Graph(data=es)] and [nx.DiGraph(data=es)] *)
Definition Graph_of (es : list edge) : Graph := from_edges false es.
Definition DiGraph_of (es : list edge) : Graph := from_edges true es.

Definition range (n : nat) : list node := map Z.of_nat (seq 0 n).

(** ["%s(%d)" % (generator, n)], the name NetworkX gives a generated graph. *)
Definition generated_name (generator : string) (n : nat) : string :=
  String.append generator
    (String.append "(" (String.append (NilZero.string_of_uint (Nat.to_uint n)) ")")).

Definition empty_graph (n : nat) : Graph :=
  fold_left add_node (range n) (mkGraph false (generated_name "empty_graph" n) []).

(** [nx.complete_graph(n)]: the edges [(u, v)] with [u < v] over
    [empty_graph(n)]. *)
Definition complete_graph (n : nat) : Graph :=
  fold_left
    (fun g u => fold_left (fun g v => add_edge g u v)
                  (filter (fun v => (u <? v)%Z) (range n)) g)
    (range n) (set_name (empty_graph n) (generated_name "complete_graph" n)).

Definition path_graph (n : nat) : Graph :=
  fold_left (fun g v => add_edge g v (v + 1)) (range (n - 1)%nat)
    (set_name (empty_graph n) (generated_name "path_graph" n)).

(** [nx.cycle_graph(n)] *)
Definition cycle_graph (n : nat) : Graph :=
  let g := set_name (path_graph n) (generated_name "cycle_graph" n) in
  if (1 <? n)%nat then add_edge g 0 (Z.of_nat n - 1) else g.

(** [G.to_directed()] returns a new graph with both arcs of every edge and
    leaves [G] as it is. *)
Definition to_directed (g : Graph) : Graph := mkGraph true (name g) (adj g).

(** [G.to_undirected()] returns a new graph with an edge for every arc and
    leaves [G] as it is. *)
Definition to_undirected (g : Graph) : Graph :=
  if directed g
  then fold_left (fun h e => add_edge h (fst e) (snd e)) (edges g)
         (fold_left add_node (nodes g) (mkGraph false (name g) []))
  else g.

(** [copy.deepcopy] of a value is the value. *)
Definition deepcopy (g : Graph) : Graph := g.

(** *** Connected components *)

Definition add_new (seen new : list node) : list node :=
  fold_left (fun acc n => if mem n acc then acc else acc ++ [n]) new seen.

(** The nodes reached from [seen] in at most [fuel] rounds. *)
Fixpoint reach (fuel : nat) (nbrs : node -> list node) (seen : list node) : list node :=
  match fuel with
  | O => seen
  | S k => reach k nbrs (fold_left (fun acc n => add_new acc (nbrs n)) seen seen)
  end.

Definition count_components (nbrs : node -> list node) (ns : list node) : Z :=
  fst (fold_left
         (fun (st : Z * list node) n =>
            if mem n (snd st) then st
            else (fst st + 1, add_new (snd st) (reach (length ns) nbrs [n])))
         ns (0, [])).

(** [nx.number_connected_components(G)] *)
Definition number_connected_components (g : Graph) : Z :=
  count_components (neighbors g) (nodes g).

(** [nx.number_weakly_connected_components(G)]: the components of [G] with
    its arcs read in both directions. *)
Definition number_weakly_connected_components (g : Graph) : Z :=
  count_components (fun n => neighbors g n ++ predecessors g n) (nodes g).

(** *** Relabelling and composition *)

Fixpoint index_of (n : node) (l : list node) (i : Z) : Z :=
  match l with
  | [] => i
  | m :: l' => if (n =? m)%Z then i else index_of n l' (i + 1)
  end.

(** [nx.convert_node_labels_to_integers(G, first_label)]: the nodes are
    numbered in iteration order. *)
Definition convert_node_labels_to_integers (g : Graph) (first_label : Z) : Graph :=
  let f n := index_of n (nodes g) first_label in
  fold_left (fun h e => add_edge h (f (fst e)) (f (snd e))) (edges g)
    (fold_left (fun h n => add_node h (f n)) (nodes g)
       (mkGraph (directed g) (String.append "(" (String.append (name g) ")_with_int_labels"))%string [])).

(** [nx.compose(G, H)]: the result has the class of [G]. *)
Definition compose (g h : Graph) : Graph :=
  let composed_name :=
    String.append "compose( "
      (String.append (name g) (String.append ", " (String.append (name h) " )"))) in
  let with_nodes := fold_left add_node (nodes h ++ nodes g)
                      (mkGraph (directed g) composed_name []) in
  fold_left (fun r e => add_edge r (fst e) (snd e)) (edges h ++ edges g) with_nodes.

(** *** Subgraph isomorphisms

    [GraphMatcher(G1, G2).subgraph_isomorphisms_iter()] yields the
    one-to-one maps of the nodes of [G2] into [G1] under which the subgraph
    of [G1] induced by the image has exactly the edges of [G2]. The VF2
    search of NetworkX is modelled by its result: all such maps. *)

Definition remove_node_from (x : node) (l : list node) : list node :=
  filter (fun y => negb (y =? x)%Z) l.

(** The ordered choices of [k] different elements of [pool]. *)
Fixpoint selections (k : nat) (pool : list node) : list (list node) :=
  match k with
  | O => [[]]
  | S k' =>
      flat_map (fun x => map (cons x) (selections k' (remove_node_from x pool))) pool
  end.

Definition preserves_edges (g1 g2 : Graph) (m : list (node * node)) : bool :=
  forallb
    (fun a => forallb
       (fun b => Bool.eqb (has_edge g2 (fst a) (fst b)) (has_edge g1 (snd a) (snd b)))
       m)
    m.

Definition subgraph_isomorphisms_iter (g1 g2 : Graph) : list (list (node * node)) :=
  filter (preserves_edges g1 g2)
    (map (combine (nodes g2)) (selections (length (nodes g2)) (nodes g1))).

(** [GraphMatcher(G1, G2)] and [DiGraphMatcher(G1, G2)]: a matcher holds
    its two graphs. The directed matcher compares arcs in both directions,
    which [preserves_edges] does by ranging over ordered pairs. *)
Definition GraphMatcher (g1 g2 : Graph) : Graph * Graph := (g1, g2).
Definition DiGraphMatcher (g1 g2 : Graph) : Graph * Graph := (g1, g2).

End NX.

(** ** The [gmm] class ([gmm/gmm.py]) *)

Import NX.

(** A value handed to the class where a graph is expected. *)
Inductive pyval : Type :=
| VGraph (g : Graph)
| VOther.

(** What a termination rule returns: [True] or [False], or any other
    object, of which the code looks at the truth value only; testing it may
    raise. *)
Inductive answer : Type :=
| Bool (b : bool)
| NotBool (nonzero : res bool).

(** The truth test of [while] on an answer. *)
Definition truth (a : answer) : res bool :=
  match a with
  | Bool b => OK b
  | NotBool nonzero => nonzero
  end.

(** A termination rule and a growth rule are caller-supplied functions;
    either may raise. *)
Definition termination_rule := Graph -> res answer.
Definition growth_rule := Graph -> Graph -> res Graph.

Record gmm : Type := mkGmm {
  test_graph : Graph;
  am_gmm : bool;
  base : Graph;
  original : Graph;
  termination : option termination_rule;
  rule : option growth_rule
}.

Definition set_base_field (self : gmm) (g : Graph) : gmm :=
  mkGmm (test_graph self) (am_gmm self) g (original self) (termination self) (rule self).

Definition set_termination_field (self : gmm) (t : option termination_rule) : gmm :=
  mkGmm (test_graph self) (am_gmm self) (base self) (original self) t (rule self).

Definition set_rule_field (self : gmm) (r : option growth_rule) : gmm :=
  mkGmm (test_graph self) (am_gmm self) (base self) (original self) (termination self) r.

(** What a call leaves behind besides the object: the lines printed, the
    argument pairs the growth rule was called with (a ghost log, oldest
    first), and how many values have been drawn from the shared random
    generator. *)
Record env : Type := mkEnv {
  stdout : list string;
  rule_calls : list (Graph * Graph);
  draws_taken : nat
}.

Definition M (A : Type) : Type := env -> res A * env.

Definition ret {A : Type} (a : A) : M A := fun e => (OK a, e).

Definition throw {A : Type} (x : exn) : M A := fun e => (Raise x, e).

Definition mbind {A B : Type} (c : M A) (k : A -> M B) : M B :=
  fun e =>
    match c e with
    | (OK a, e') => k a e'
    | (Raise x, e') => (Raise x, e')
    end.

Definition lift {A : Type} (r : res A) : M A := fun e => (r, e).

Notation "x <~ c ;; k" := (mbind c (fun x => k))
  (at level 61, c at next level, right associativity) : res_scope.

Definition print (s : string) : M unit :=
  fun e => (OK tt, mkEnv (stdout e ++ [s]) (rule_calls e) (draws_taken e)).

(** A call of the growth rule, logged. *)
Definition call_rule (r : growth_rule) (b new : Graph) : M Graph :=
  fun e => (r b new, mkEnv (stdout e) (rule_calls e ++ [(b, new)]) (draws_taken e)).

(** [try: c except TypeError: h] *)
Definition except_TypeError {A : Type} (c : M A) (h : M A) : M A :=
  fun e =>
    match c e with
    | (Raise TypeError, e') => h e'
    | r => r
    end.

Definition msg_T_init : string :=
  "T not compatible with base graph, rule set to None".
Definition msg_R_init : string :=
  "R must be a function compatible with NetworkX graph objects, growth rule set to None.".
Definition msg_set_base : string :=
  "Base structure to gmm must be a NetworkX Graph or DiGraph object, no change made.".
Definition msg_set_rule : string :=
  "R must be a function compatible with NetworkX graph objects, no change made.".

(** [gmm.__init__(G, T, R)]. The trial result of the termination rule must
    be [True] or [False]; for anything else the constructor raises a
    [TypeError] inside its own [try], so the rule is dropped with the same
    message as a rule that raised one. *)
Definition gmm_init (G : pyval) (T : option termination_rule)
    (R : option growth_rule) : M gmm :=
  let test := Graph_of [(0, 1); (1, 2)]%Z in
  g <~ match G with
       | VGraph g =>
           if (1 <? number_of_edges g)%Z
           then ret (convert_node_labels_to_integers g 0)
           else throw ValueError
       | VOther => throw TypeError
       end ;;
  t <~ match T with
       | Some t =>
           except_TypeError
             (result <~ lift (t g) ;;
              match result with
              | Bool _ => ret (Some t)
              | NotBool _ => throw TypeError
              end)
             (_ <~ print msg_T_init ;; ret None)
       | None => ret None
       end ;;
  r <~ match R with
       | Some r =>
           except_TypeError (_ <~ call_rule r g test ;; ret (Some r))
                            (_ <~ print msg_R_init ;; ret None)
       | None => ret None
       end ;;
  ret (mkGmm test true g (deepcopy g) t r).

Definition get_base (self : gmm) (orig : bool) : Graph :=
  if orig then original self else base self.

(** [set_base]: with fewer than two edges the [ValueError] is built and
    dropped, there is no [raise]. *)
Definition set_base (self : gmm) (G : pyval) : M gmm :=
  match G with
  | VGraph g =>
      if (1 <? number_of_edges g)%Z
      then ret (set_base_field self (convert_node_labels_to_integers g 0))
      else let _ := ValueError in ret self
  | VOther => _ <~ print msg_set_base ;; ret self
  end.

Definition revert_base (self : gmm) : gmm :=
  set_base_field self (deepcopy (original self)).

Definition set_termination (self : gmm) (T : termination_rule) : M gmm :=
  except_TypeError
    (_ <~ lift (T (base self)) ;; ret (set_termination_field self (Some T)))
    (throw TypeError).

(** Calling [None] raises [TypeError]. *)
Definition apply_termination (self : gmm) : M answer :=
  match termination self with
  | Some t => lift (t (base self))
  | None => throw TypeError
  end.

Definition set_rule (self : gmm) (R : growth_rule) : M gmm :=
  except_TypeError
    (_ <~ call_rule R (base self) (test_graph self) ;; ret (set_rule_field self (Some R)))
    (_ <~ print msg_set_rule ;; ret self).

(** [apply_rule(new, set_result)]: the graphs that [to_directed] and
    [to_undirected] return are not bound to anything; the rule is called
    with [new]. The result comes with the object as the call leaves it. *)
Definition apply_rule (self : gmm) (new : Graph) (set_result : bool) : M (Graph * gmm) :=
  let _ :=
    if is_directed (base self) && negb (is_directed new)
    then Some (to_directed new)
    else if is_directed new then Some (to_undirected new) else None in
  match rule self with
  | None => throw TypeError
  | Some r =>
      result <~ call_rule r (base self) new ;;
      if set_result
      then ret (result, set_base_field self result)
      else ret (result, self)
  end.

(** ** The simulation algorithms ([gmm/algorithms.py]) *)

(** A motif record [(index, motif, value)]: the value is a count after
    [motif_counts] and a probability mass after weighting. *)
Definition record (A : Type) : Type := (Z * A * num)%type.

Definition index {A : Type} (r : record A) : Z := fst (fst r).
Definition motif {A : Type} (r : record A) : A := snd (fst r).
Definition value {A : Type} (r : record A) : num := snd r.

(** The position a Python index names in a list of length [len]: a negative
    index counts from the end, anything outside raises. *)
Definition py_index (len : nat) (i : Z) : res nat :=
  if ((0 <=? i) && (i <? Z.of_nat len))%Z then OK (Z.to_nat i)
  else if ((i <? 0) && (- Z.of_nat len <=? i))%Z then OK (Z.to_nat (Z.of_nat len + i))
  else Raise IndexError.

(** [xrange(a, b)] *)
Definition xrange (a b : Z) : list Z :=
  map (fun i => (a + Z.of_nat i)%Z) (seq 0 (Z.to_nat (b - a))).

(** Insertion sort of an edge list, the order of Python tuples. *)
Definition edge_leb (e f : edge) : bool :=
  ((fst e <? fst f) || ((fst e =? fst f) && (snd e <=? snd f)))%Z.

Fixpoint insert_edge (e : edge) (l : list edge) : list edge :=
  match l with
  | [] => [e]
  | f :: l' => if edge_leb e f then e :: l else f :: insert_edge e l'
  end.

Definition sort_edges (l : list edge) : list edge := fold_right insert_edge [] l.

Definition edges_eqb (l l' : list edge) : bool :=
  if list_eq_dec (fun e f : edge =>
       match Z.eq_dec (fst e) (fst f), Z.eq_dec (snd e) (snd f) with
       | left a, left b =>
           left (eq_trans (surjective_pairing e)
                   (eq_trans (f_equal2 pair a b) (eq_sym (surjective_pairing f))))
       | right n, _ => right (fun h => n (f_equal fst h))
       | _, right n => right (fun h => n (f_equal snd h))
       end) l l'
  then true else false.

(** The edge-removal loop of [all_graphs]. [stack] is the list [edges]
    with its last element first, so that [edges.pop()] takes the head;
    popping from an empty list raises [IndexError]. *)
Fixpoint remove_edges_loop (directed_motifs : bool) (complete : Graph)
    (stack : list edge) (graphs : list Graph) : res (list Graph) :=
  if (0 <? number_of_edges complete)%Z then
    match stack with
    | [] => Raise IndexError
    | e :: stack' =>
        complete' <- remove_edge complete (fst e) (snd e) ;;
        let components :=
          if directed_motifs
          then number_weakly_connected_components complete'
          else number_connected_components complete' in
        remove_edges_loop directed_motifs complete' stack'
          (if (components =? 1)%Z then graphs ++ [deepcopy complete'] else graphs)
    end
  else OK graphs.

(** The body of [all_graphs]; [recursive_call] stands for the call
    [all_graphs(num_nodes, False)] that the directed case makes. *)
Definition all_graphs_body (recursive_call : res (list Graph))
    (num_nodes : Z) (directed_motifs : bool) : res (list Graph) :=
  let complete := complete_graph (Z.to_nat num_nodes) in
  let complete_copy := deepcopy complete in
  if directed_motifs then
    let complete := to_directed complete in
    let complete_copy := to_directed complete_copy in
    complete_ud <- recursive_call ;;
    graphs <- remove_edges_loop true complete (rev (edges complete)) [] ;;
    let graphs := graphs ++ [complete_copy] in
    (* graphs_edges is sorted in the source and then only tested for membership *)
    let graphs_edges := map edges graphs in
    OK (fold_left
          (fun graphs i =>
             let ud_edges := sort_edges (edges i) in
             if existsb (edges_eqb ud_edges) graphs_edges then graphs
             else graphs ++ [to_directed i])
          complete_ud graphs)
  else
    graphs <- remove_edges_loop false complete (rev (edges complete)) [] ;;
    OK (graphs ++ [complete_copy]).

(** [all_graphs(num_nodes, directed_motifs)]: the recursion is one call
    deep, since the undirected case makes none. *)
Definition all_graphs (num_nodes : Z) (directed_motifs : bool) : res (list Graph) :=
  all_graphs_body (all_graphs_body (OK []) num_nodes false) num_nodes directed_motifs.

Fixpoint get_motifs_loop (vs : list Z) (directed_motifs : bool)
    (motifs : list (record Graph)) (motif_index : Z) : res (list (record Graph)) :=
  match vs with
  | [] => OK motifs
  | v :: vs' =>
      graphs <- all_graphs v directed_motifs ;;
      let st := fold_left
                  (fun (st : list (record Graph) * Z) g =>
                     (fst st ++ [(snd st, g, PyInt 0)], (snd st + 1)%Z))
                  graphs (motifs, motif_index) in
      get_motifs_loop vs' directed_motifs (fst st) (snd st)
  end.

Definition get_motifs (tau : Z) (directed_motifs : bool) : res (list (record Graph)) :=
  get_motifs_loop (xrange 2 (tau + 1)) directed_motifs [] 0.

(** The loop of [motif_counts] over the positions of the list it rewrites. *)
Fixpoint motif_counts_loop (positions : list nat) (base : Graph)
    (base_direction : bool) (motif_counts : list (record Graph))
    : res (list (record Graph)) :=
  match positions with
  | [] => OK motif_counts
  | p :: positions' =>
      m <- getitem motif_counts p ;;
      let idx := index m in
      let GM := if base_direction then DiGraphMatcher base (motif m)
                else GraphMatcher base (motif m) in
      let count := fold_left (fun count _ => (count + 1)%Z)
                     (subgraph_isomorphisms_iter (fst GM) (snd GM)) 0%Z in
      i <- py_index (length motif_counts) idx ;;
      old <- getitem motif_counts i ;;
      motif_counts' <- setitem motif_counts i (idx, motif old, PyInt count) ;;
      motif_counts_loop positions' base base_direction motif_counts'
  end.

Definition motif_counts (self : gmm) (tau : Z) : res (list (record Graph)) :=
  let base := get_base self false in
  let base_direction := is_directed base in
  motif_counts <- get_motifs tau base_direction ;;
  motif_counts_loop (seq 0 (length motif_counts)) base base_direction motif_counts.

(** The walk of [draw_structure] through the probabilities. [rest] holds
    the probabilities after position [motif_index]; reading
    [probabilities[motif_index]] past the end raises [IndexError]. *)
Fixpoint walk (draw : float) (rest : list num) (motif_index : nat) (mass_sum : num)
    : res nat :=
  if gt draw mass_sum then
    match rest with
    | [] => Raise IndexError
    | p :: rest' => walk draw rest' (S motif_index) (add mass_sum p)
    end
  else OK motif_index.

(** The list [probabilities] of [draw_structure]. *)
Definition probabilities {A : Type} (motif_mass : list (record A)) : res (list num) :=
  let mass_sum := sum (map value motif_mass) in
  map_res (fun r => div (value r) mass_sum) motif_mass.

(** [draw_structure(motif_mass)], with [draw] the value that
    [random.uniform()] returns, a Python [float]. *)
Definition draw_structure {A : Type} (motif_mass : list (record A)) (draw : float)
    : res A :=
  ps <- probabilities motif_mass ;;
  let motif_index := 0%nat in
  mass_sum <- getitem ps motif_index ;;
  motif_index <- walk draw (tl ps) motif_index mass_sum ;;
  r <- getitem motif_mass motif_index ;;
  OK (motif r).

(** [numpy.mean]: the elements are converted to binary64 and added in
    binary64, first to last, and the sum is divided by the number of
    elements; the sum of no element is 0.0, so the mean of the empty list is
    [nan]. Later versions of NumPy add a long list pairwise, which gives the
    same sum wherever no addition rounds, as for [int] counts with a total
    below [2^53]. *)
Definition mean (counts : list num) : float :=
  let total :=
    match counts with
    | [] => 0%float
    | c :: counts' =>
        fold_left (fun acc x => PrimFloat.add acc (to_float x)) counts' (to_float c)
    end in
  PrimFloat.div total (float_of_Z (Z.of_nat (length counts))).

(** The count ratios of [simulate] (its branch for [poisson=False]). *)
Definition count_ratios {A : Type} (motif_dist : list (record A)) : res (list (record A)) :=
  let total_counts := sum (map value motif_dist) in
  map_res (fun r => w <- div (PyFloat (to_float (value r))) total_counts ;;
                    OK (index r, motif r, w))
          motif_dist.

(** What comes of a run: it returned, it raised, or the model ran out of
    fuel with the loop still going. *)
Inductive outcome : Type :=
| Finished
| Failed (e : exn)
| OutOfFuel.

Section Simulation.

(** [scipy.stats.poisson.pmf(k, mu)]; the value comes as a
    [numpy.float64]. *)
Variable poisson_pmf : Z -> float -> float.

(** The values [random.uniform()] returns, in the order of the calls. *)
Variable uniform : nat -> float.

Definition poisson_mass {A : Type} (motif_counts : list (record A)) : list (record A) :=
  let counts := map value motif_counts in
  let estimate := mean counts in
  let motif_pmf := map (fun x => poisson_pmf x estimate)
                       (xrange 0 (Z.of_nat (length counts))) in
  map (fun rp : record A * float => (index (fst rp), motif (fst rp), NpFloat (snd rp)))
      (combine motif_counts motif_pmf).

Definition random_uniform : M float :=
  fun e => (OK (uniform (draws_taken e)),
            mkEnv (stdout e) (rule_calls e) (S (draws_taken e))).

(** [draw_structure(motif_mass)] as a call: the value is drawn (line 84)
    once the probabilities are there (lines 79-80), so a call that fails
    in the division has drawn nothing. *)
Definition draw_structure_call {A : Type} (motif_mass : list (record A)) : M A :=
  _ <~ lift (probabilities motif_mass) ;;
  draw <~ random_uniform ;;
  lift (draw_structure motif_mass draw).

(** One pass through the body of the loop of [simulate]. *)
Definition simulate_body (self : gmm) (tau : Z) (poisson : bool) : M gmm :=
  motif_dist <~ lift (motif_counts self tau) ;;
  motif_mass <~ (if poisson then ret (poisson_mass motif_dist)
                 else lift (count_ratios motif_dist)) ;;
  new_structure <~ draw_structure_call motif_mass ;;
  r <~ apply_rule self new_structure true ;;
  ret (snd r).

(** The test of [while gmm.apply_termination():], which takes the truth
    value of what the rule returns. *)
Definition while_test (self : gmm) : M bool :=
  a <~ apply_termination self ;; lift (truth a).

(** [while gmm.apply_termination(): ...] *)
Fixpoint simulate_loop (fuel : nat) (self : gmm) (tau : Z) (poisson : bool) (e : env)
    : outcome * gmm * env :=
  match while_test self e with
  | (Raise x, e') => (Failed x, self, e')
  | (OK false, e') => (Finished, self, e')
  | (OK true, e') =>
      match fuel with
      | O => (OutOfFuel, self, e')
      | S fuel' =>
          match simulate_body self tau poisson e' with
          | (Raise x, e'') => (Failed x, self, e'')
          | (OK self', e'') => simulate_loop fuel' self' tau poisson e''
          end
      end
  end.

(** [simulate(gmm, tau, poisson, new_name)]; reading [gmm.am_gmm] raises
    nothing on a [gmm] object. *)
Definition simulate (fuel : nat) (self : gmm) (tau : Z) (poisson : bool)
    (new_name : string) (e : env) : outcome * gmm * env :=
  if (tau <? 2)%Z then (Failed ValueError, self, e)
  else
    match simulate_loop fuel self tau poisson e with
    | (Finished, self', e') =>
        (Finished, set_base_field self' (set_name (get_base self' false) new_name), e')
    | r => r
    end.

End Simulation.

(** ** Definitions used to state the properties *)

(** The running cumulative sums the walk of [draw_structure] compares the
    draw with: [acc], then [acc] plus the first of [rest], and so on, added
    left to right as the loop adds them. *)
Fixpoint running_sums_from (acc : num) (rest : list num) : list num :=
  match rest with
  | [] => [acc]
  | p :: rest' => acc :: running_sums_from (add acc p) rest'
  end.

Definition running_sums (ps : list num) : list num :=
  match ps with
  | [] => []
  | p :: rest => running_sums_from p rest
  end.

Definition res_map {A B : Type} (f : A -> B) (r : res A) : res B :=
  x <- r ;; OK (f x).

Definition env0 : env := mkEnv [] [] 0.

(** The graphs and rules of the package's tests and examples. *)
Definition five_cycle : Graph := cycle_graph 5.

Definition test_triangle : Graph := Graph_of [(0, 1); (1, 2); (0, 2)]%Z.

Definition directed_triangle : Graph := to_directed (deepcopy test_triangle).

(** A node ceiling written as the class documents it: true once the
    ceiling is reached. *)
Definition node_ceiling (ceiling : Z) : termination_rule :=
  fun G => OK (Bool (ceiling <=? number_of_nodes G)%Z).

(** A node ceiling written as the examples write it: true below the
    ceiling. *)
Definition below_ceiling (ceiling : Z) : termination_rule :=
  fun G => OK (Bool (number_of_nodes G <? ceiling)%Z).

(** The growth rule [rand_add] of the tests without its random connecting
    edge: the new structure is renumbered after the nodes of the base and
    composed with it. *)
Definition compose_rule : growth_rule :=
  fun b new =>
    let first_label := (fold_left Z.max (nodes b) 0 + 1)%Z in
    OK (compose b (convert_node_labels_to_integers new first_label)).

(** A growth rule that answers with the structure it is given. *)
Definition keep_new : growth_rule := fun _ new => OK new.

(** A growth rule that answers with a graph of three nodes and no edge. *)
Definition drop_edges : growth_rule := fun _ _ => OK (empty_graph 3).

Definition test_motifs : list (record bool) :=
  [(0%Z, false, PyFloat 0); (1%Z, true, PyFloat 1); (2%Z, false, PyFloat 0)].

(** The largest binary64 value below 1, [1 - 2^-53]. *)
Definition largest_draw : float := 0x1.fffffffffffffp-1%float.

Definition four_one_one_one : list (record Z) :=
  [(0%Z, 0%Z, PyFloat 4); (1%Z, 1%Z, PyFloat 1); (2%Z, 2%Z, PyFloat 1);
   (3%Z, 3%Z, PyFloat 1)].

Definition zero_pmf : Z -> float -> float := fun _ _ => 0%float.

(** Every record of the list has the weight 0.0. *)
Definition zero_weights {A : Type} (l : list (record A)) : Prop :=
  Forall (fun r => value r = PyFloat 0) l.

(** Well-formed adjacency dictionaries, used to show that the catalogue
    is built without an exception. *)

(** The keys of a dictionary come in ascending order. *)
Definition keys_sorted (d : list (node * list node)) : Prop :=
  StronglySorted Z.lt (map fst d).

(** Every neighbour list of a dictionary is in ascending order. *)
Definition lists_sorted (d : list (node * list node)) : Prop :=
  Forall (fun e => StronglySorted Z.lt (snd e)) d.

(** The neighbour list stored under [n], empty when there is none. *)
Definition nb (d : list (node * list node)) (n : node) : list node :=
  match dict_get d n with Some l => l | None => [] end.

(** The arcs of an adjacency dictionary, as [edges] lists them for a
    directed graph. *)
Definition flat_edges (d : list (node * list node)) : list edge :=
  flat_map (fun e => map (pair (fst e)) (snd e)) d.

(** The test of [edges_unseen]: the neighbour has not been iterated yet. *)
Definition unseen (seen : list node) (nbr : node) : bool := negb (mem nbr seen).

(** Every neighbour outside [seen] has an entry that points back. *)
Definition back_edges (d : list (node * list node)) (seen : list node) : Prop :=
  forall n l m, In (n, l) d -> In m l -> ~ In m seen ->
    exists l', In (m, l') d /\ In n l'.

(** No entry lists its own key. *)
Definition no_loops (d : list (node * list node)) : Prop :=
  forall n l, In (n, l) d -> ~ In n l.

(** No node is its own neighbour. *)
Definition no_loops_sem (d : list (node * list node)) : Prop :=
  forall n, ~ In n (nb d n).

(** Every edge is stored under both end points. *)
Definition symmetric (d : list (node * list node)) : Prop :=
  forall n m, In m (nb d n) -> In n (nb d m).

(** A directed graph as NetworkX keeps it. *)
Definition wf_dir (g : Graph) : Prop :=
  keys_sorted (adj g) /\ lists_sorted (adj g).

(** An undirected graph without self-loops as NetworkX keeps it. *)
Definition wf_und (g : Graph) : Prop :=
  keys_sorted (adj g) /\ lists_sorted (adj g)
  /\ no_loops_sem (adj g) /\ symmetric (adj g).

(** A graph of the class [d], well formed for that class. *)
Definition wf_for (d : bool) (g : Graph) : Prop :=
  directed g = d /\ if d then wf_dir g else wf_und g.

(** Every record carries its position as its index. *)
Definition indexed {A : Type} (l : list (record A)) : Prop :=
  forall p r, nth_error l p = Some r -> index r = Z.of_nat p.

(** *** The growth rule of the package's examples *)

Section RandAdd.

Local Open Scope Z_scope.

(** [max(l)] and [min(l)] of a list of integers: a [ValueError] on the empty
    list. *)
Definition py_max (l : list Z) : res Z :=
  match l with
  | [] => Raise ValueError
  | x :: l' => OK (fold_left Z.max l' x)
  end.

Definition py_min (l : list Z) : res Z :=
  match l with
  | [] => Raise ValueError
  | x :: l' => OK (fold_left Z.min l' x)
  end.

(** [numpy.random.randint(low, high)]: a [ValueError] unless [low < high],
    otherwise an integer of [low .. high - 1]; [draw] is what the generator
    supplies. [randint(high)] is [randint(0, high)]. *)
Definition randint (low high : Z) (draw : Z) : res Z :=
  if high <=? low then Raise ValueError
  else OK (low + draw mod (high - low)).

(** The growth rule [rand_add] of [gmm.py] and of the tests; [draws] are the
    two values the generator supplies, for the connector in the base and for
    the connector in the new structure. *)
Definition rand_add (draws : Z * Z) : growth_rule :=
  fun base new =>
    top <- py_max (nodes base) ;;
    let new := convert_node_labels_to_integers new (top + 1) in
    let new_base := compose base new in
    base_connector <- randint 0 (number_of_nodes base) (fst draws) ;;
    low <- py_min (nodes new) ;;
    high <- py_max (nodes new) ;;
    new_connector <- randint low high (snd draws) ;;
    OK (add_edge new_base base_connector new_connector).

End RandAdd.

(** *** One pass of the loop of [simulate] *)

(** What a pass of the loop comes to, case by case: the counts, the
    weights, the probabilities, the draw, the call of the growth rule, and
    what is left in the environment at each way out. *)
Definition pass_result (pmf : Z -> float -> float) (uniform : nat -> float)
    (self : gmm) (tau : Z) (poisson : bool) (e : env) : res gmm * env :=
  match motif_counts self tau with
  | Raise x => (Raise x, e)
  | OK dist =>
      match (if poisson then OK (poisson_mass pmf dist) else count_ratios dist) with
      | Raise x => (Raise x, e)
      | OK mass =>
          match probabilities mass with
          | Raise x => (Raise x, e)
          | OK _ =>
              let e1 := mkEnv (stdout e) (rule_calls e) (S (draws_taken e)) in
              match draw_structure mass (uniform (draws_taken e)) with
              | Raise x => (Raise x, e1)
              | OK new =>
                  match rule self with
                  | None => (Raise TypeError, e1)
                  | Some r =>
                      let e2 := mkEnv (stdout e) (rule_calls e ++ [(base self, new)])
                                  (S (draws_taken e)) in
                      match r (base self) new with
                      | Raise x => (Raise x, e2)
                      | OK result => (OK (set_base_field self result), e2)
                      end
                  end
              end
          end
      end
  end.

(** Two states with the same first base, rules, test graph and printed
    lines. *)
Definition same_configuration (s1 s2 : gmm * env) : Prop :=
  original (fst s2) = original (fst s1)
  /\ termination (fst s2) = termination (fst s1)
  /\ rule (fst s2) = rule (fst s1)
  /\ test_graph (fst s2) = test_graph (fst s1)
  /\ am_gmm (fst s2) = am_gmm (fst s1)
  /\ stdout (snd s2) = stdout (snd s1).

(** A call of the growth rule whose second argument is a motif of the
    catalogue for the class of its first. *)
Definition from_catalogue (tau : Z) (call : Graph * Graph) : Prop :=
  exists ms, get_motifs tau (is_directed (fst call)) = OK ms
             /\ In (snd call) (map (@motif Graph) ms).

(** The rule calls logged between two states are calls with motifs of the
    catalogue. *)
Definition calls_from_catalogue (tau : Z) (s1 s2 : gmm * env) : Prop :=
  exists calls, rule_calls (snd s2) = rule_calls (snd s1) ++ calls
                /\ Forall (from_catalogue tau) calls.

(** The numbering that [get_motifs] gives the graphs of one order: records
    with count 0 appended to [motifs], indices from [i] on. *)
Definition number_from (graphs : list Graph) (motifs : list (record Graph)) (i : Z)
    : list (record Graph) * Z :=
  fold_left (fun (st : list (record Graph) * Z) g =>
               (fst st ++ [(snd st, g, PyInt 0)], (snd st + 1)%Z))
            graphs (motifs, i).

(** The record of a motif with its count in [b]: the number of subgraph
    isomorphisms between [b] and the motif. *)
Definition counted (b : Graph) (m : record Graph) : record Graph :=
  (index m, motif m,
   PyInt (Z.of_nat (length (subgraph_isomorphisms_iter b (motif m))))).

(** Counts as [motif_counts] leaves them and small enough for binary64 to
    add them without rounding: non-negative [int]s with a total below
    [2^53]. *)
Definition exact_counts {A : Type} (records : list (record A)) : Prop :=
  exists counts : list Z,
    map value records = map PyInt counts
    /\ Forall (fun c => (0 <= c)%Z) counts
    /\ (fold_right Z.add 0 counts <? 2 ^ 53)%Z = true.

(** No weight is an [int]: each is a Python [float] or a
    [numpy.float64]. *)
Definition float_weights {A : Type} (l : list (record A)) : Prop :=
  Forall (fun r => match value r with PyInt _ => False | _ => True end) l.

(** *** The shape of a graph *)

Section Shapes.

Local Open Scope Z_scope.

(** Every neighbour that a dictionary lists is one of its keys. *)
Definition closed (d : list (node * list node)) : Prop :=
  forall n m, In m (nb d n) -> In m (map fst d).

(** A graph as the embedding keeps it: keys in ascending order, and every
    neighbour a node. *)
Definition tidy (g : Graph) : Prop := keys_sorted (adj g) /\ closed (adj g).

(** The list [first; first + 1; ...] of length [k]. *)
Definition consecutive (first : Z) (k : nat) : list Z :=
  map (fun i => first + Z.of_nat i) (seq 0 k).

(** [h] has the nodes and the class of [g]. *)
Definition like (g h : Graph) : Prop :=
  tidy h /\ nodes h = nodes g /\ directed h = directed g.

(** A graph of the class [d] with the nodes [0 .. n-1]. *)
Definition motif_shape (n : nat) (d : bool) (h : Graph) : Prop :=
  tidy h /\ nodes h = consecutive 0 n /\ directed h = d.

(** A graph of the class [d] with the nodes [0 .. k-1] for some [k] with
    [2 <= k <= tau]. *)
Definition catalogue_motif (tau : Z) (d : bool) (h : Graph) : Prop :=
  exists k : nat, (2 <= k)%nat /\ Z.of_nat k <= tau /\ motif_shape k d h.

(** The base of [self] has the nodes [0 .. N-1]. *)
Definition numbered (self : gmm) (N : nat) : Prop :=
  tidy (base self) /\ nodes (base self) = consecutive 0 N.

End Shapes.

(** ** Properties *)

Unset Implicit Arguments.

(** *** The walk of the sampler *)

Lemma map_res_length {A B : Type} (f : A -> res B) (l : list A) :
  forall l', map_res f l = OK l' -> length l' = length l.
Proof.
  induction l as [|a l IH]; intros l' H; simpl in H.
  - injection H as <-. reflexivity.
  - destruct (f a); [|discriminate]. simpl in H.
    destruct (map_res f l) as [bs|]; [|discriminate]. simpl in H.
    injection H as <-. simpl. now rewrite (IH bs eq_refl).
Qed.

Lemma map_res_total {A B : Type} (f : A -> res B) (l : list A) :
  (forall a, In a l -> exists b, f a = OK b) -> exists l', map_res f l = OK l'.
Proof.
  induction l as [|a l IH]; intros H; simpl.
  - now exists [].
  - destruct (H a (or_introl eq_refl)) as [b ->]. simpl.
    destruct IH as [bs ->]; [intros; apply H; now right|].
    simpl. now eexists.
Qed.

Lemma div_nonzero (x y : num) :
  is_zero y = false -> exists q, div x y = OK q.
Proof.
  intros H. unfold div. destruct (is_numpy x || is_numpy y); [now eexists|].
  rewrite H. destruct x, y; now eexists.
Qed.

Lemma div_zero (x y : num) :
  is_numpy x || is_numpy y = false ->
  is_zero y = true -> div x y = Raise ZeroDivisionError.
Proof.
  intros Hn H. unfold div. now rewrite Hn, H.
Qed.

(** C5, at the failing input. The weights 4.0, 1.0, 1.0, 1.0 have the
    positive total 7.0 and the draw [1 - 2^-53], the largest value that
    [random.uniform()] returns, lies in [[0, 1)]. The normalised weights
    add up to [1 - 2^-52] in binary64, which the draw exceeds, so the loop
    reads the probability after the last one and the call raises
    [IndexError]; the claim has the last item returned. *)
Theorem draw_structure_no_fallback :
  four_one_one_one <> []
  /\ sum (map value four_one_one_one) = PyFloat 7
  /\ PrimFloat.leb 0 largest_draw = true
  /\ PrimFloat.ltb largest_draw 1 = true
  /\ res_map running_sums (probabilities four_one_one_one)
     = OK [PyFloat 0x1.2492492492492p-1; PyFloat 0x1.6db6db6db6db6p-1;
           PyFloat 0x1.b6db6db6db6dap-1; PyFloat 0x1.ffffffffffffep-1]
  /\ draw_structure four_one_one_one largest_draw = Raise IndexError
  /\ draw_structure four_one_one_one largest_draw <> OK 3%Z.
Proof.
  split; [discriminate|].
  repeat split; try (vm_compute; reflexivity).
  vm_compute. discriminate.
Qed.

(** *** Closed runs on the graphs of the package's tests *)

(** C7. [all_graphs] yields 1 undirected and 2 directed motifs for order 2,
    2 undirected and 6 directed motifs for order 3, and [get_motifs] for
    [tau = 3] yields 3 undirected and 8 directed records. *)
Theorem motif_enumeration_sizes :
  res_map (@length Graph) (all_graphs 2 false) = OK 1%nat
  /\ res_map (@length Graph) (all_graphs 2 true) = OK 2%nat
  /\ res_map (@length Graph) (all_graphs 3 false) = OK 2%nat
  /\ res_map (@length Graph) (all_graphs 3 true) = OK 6%nat
  /\ res_map (@length (record Graph)) (get_motifs 3 false) = OK 3%nat
  /\ res_map (@length (record Graph)) (get_motifs 3 true) = OK 8%nat.
Proof.
  repeat split; vm_compute; reflexivity.
Qed.

(** The two undirected motifs of order 3 are the open path and the
    triangle, and [get_motifs] numbers the records from 0 with count 0. *)
Lemma undirected_motifs_of_order_3 :
  res_map (map edges) (all_graphs 3 false)
  = OK [[(0, 1); (0, 2)]; [(0, 1); (0, 2); (1, 2)]]%Z
  /\ res_map (map (fun r : record Graph => (index r, value r))) (get_motifs 3 false)
     = OK [(0, PyInt 0); (1, PyInt 0); (2, PyInt 0)]%Z.
Proof.
  split; vm_compute; reflexivity.
Qed.

(** C6. With the 5-node cycle as base and [tau = 3] the counts of
    [motif_counts] add up to 20; with the same cycle converted to a
    directed graph they add up to 10. The models are built as the tests
    build them. *)
Theorem five_cycle_motif_counts :
  (exists base_model e,
      gmm_init (VGraph five_cycle) None None env0 = (OK base_model, e)
      /\ res_map (fun counts => sum (map value counts)) (motif_counts base_model 3)
         = OK (PyInt 20))
  /\ (exists base_directed e,
         gmm_init (VGraph (to_directed (deepcopy five_cycle))) None None env0
         = (OK base_directed, e)
         /\ res_map (fun counts => sum (map value counts)) (motif_counts base_directed 3)
            = OK (PyInt 10)).
Proof.
  split; eexists; eexists; (split; [reflexivity | vm_compute; reflexivity]).
Qed.

(** The counts behind C6, record by record. *)
Lemma five_cycle_counts_by_motif :
  res_map (map (@value Graph))
    (motif_counts (mkGmm test_triangle true five_cycle five_cycle None None) 3)
  = OK [PyInt 10; PyInt 10; PyInt 0]
  /\ res_map (map (@value Graph))
       (motif_counts (mkGmm test_triangle true (to_directed five_cycle)
                        (to_directed five_cycle) None None) 3)
     = OK [PyInt 0; PyInt 10; PyInt 0; PyInt 0; PyInt 0; PyInt 0; PyInt 0; PyInt 0].
Proof.
  split; vm_compute; reflexivity.
Qed.

(** C3, at the failing input. For the records of the package's test,
    weights 0.0, 1.0, 0.0, and the draw 0.0, which lies in [[0, 1)],
    [draw_structure] returns the item of the first record, whose weight is
    0.0: the draw does not exceed the first running sum, 0.0. *)
Theorem draw_structure_zero_draw :
  PrimFloat.leb 0 0 = true
  /\ PrimFloat.ltb 0 1 = true
  /\ res_map running_sums (probabilities test_motifs)
     = OK [PyFloat 0; PyFloat 1; PyFloat 1]
  /\ draw_structure test_motifs 0 = OK false
  /\ draw_structure test_motifs 0.5 = OK true.
Proof.
  repeat split; vm_compute; reflexivity.
Qed.

(** C2, at the failing input. With the undirected 5-cycle as base, the
    directed triangle as candidate and a rule that answers with its
    candidate, the rule is called with the directed triangle itself and the
    base that [apply_rule] sets is directed; with a directed base and the
    undirected triangle the rule is called with the undirected triangle. *)
Theorem apply_rule_candidate_not_coerced :
  let undirected_model :=
    mkGmm test_triangle true five_cycle five_cycle None (Some keep_new) in
  let directed_model :=
    mkGmm test_triangle true (to_directed five_cycle) (to_directed five_cycle)
      None (Some keep_new) in
  is_directed (base undirected_model) = false
  /\ is_directed directed_triangle = true
  /\ apply_rule undirected_model directed_triangle true env0
     = (OK (directed_triangle, set_base_field undirected_model directed_triangle),
        mkEnv [] [(five_cycle, directed_triangle)] 0)
  /\ is_directed (base (set_base_field undirected_model directed_triangle)) = true
  /\ is_directed (base directed_model) = true
  /\ is_directed test_triangle = false
  /\ apply_rule directed_model test_triangle true env0
     = (OK (test_triangle, set_base_field directed_model test_triangle),
        mkEnv [] [(to_directed five_cycle, test_triangle)] 0).
Proof.
  repeat split.
Qed.

(** C1, at the failing inputs. The model is the 5-cycle with the
    composing growth rule and a termination rule that is true on the base.
    The claim has [simulate] return at once; the loop runs while the rule
    is true. With a node ceiling of 5, and fuel for one pass, the growth
    rule is called once (the log grows from the trial call of the
    constructor to two calls), the base becomes a graph of 8 nodes and the
    loop goes on. With the rule "fewer than 6 nodes" the run returns after
    that one pass, with the base of 8 nodes. *)
Theorem simulate_loops_while_termination_true :
  match gmm_init (VGraph five_cycle) (Some (node_ceiling 5)) (Some compose_rule) env0 with
  | (OK model, e) =>
      apply_termination model e = (OK (Bool true), e)
      /\ number_of_nodes (base model) = 5%Z
      /\ length (rule_calls e) = 1%nat
      /\ match simulate zero_pmf (fun _ => 0.75%float) 1 model 3 false "GMM Simulation" e with
         | (o, model', e') =>
             o = OutOfFuel
             /\ length (rule_calls e') = 2%nat
             /\ number_of_nodes (base model') = 8%Z
             /\ apply_termination model' e' = (OK (Bool true), e')
         end
  | _ => False
  end
  /\ match gmm_init (VGraph five_cycle) (Some (below_ceiling 6)) (Some compose_rule) env0 with
     | (OK model, e) =>
         apply_termination model e = (OK (Bool true), e)
         /\ number_of_nodes (base model) = 5%Z
         /\ length (rule_calls e) = 1%nat
         /\ match simulate zero_pmf (fun _ => 0.75%float) 2 model 3 false "GMM Simulation" e with
            | (o, model', e') =>
                o = Finished
                /\ length (rule_calls e') = 2%nat
                /\ number_of_nodes (base model') = 8%Z
                /\ name (base model') = "GMM Simulation"%string
            end
     | _ => False
     end.
Proof.
  split; vm_compute; repeat split.
Qed.

(** *** The motif catalogue is never empty *)

Lemma fold_left_grows {A B : Type} (f : list A -> B -> list A) (l : list B) :
  (forall acc b, (length acc <= length (f acc b))%nat) ->
  forall acc, (length acc <= length (fold_left f l acc))%nat.
Proof.
  intros Hf. induction l as [|b l IH]; intros acc; simpl; [lia|].
  specialize (IH (f acc b)). specialize (Hf acc b). lia.
Qed.

Lemma all_graphs_body_nonempty (rc : res (list Graph)) (n : Z) (d : bool) :
  forall gs, all_graphs_body rc n d = OK gs -> gs <> [].
Proof.
  intros gs H. unfold all_graphs_body in H. destruct d.
  - destruct rc as [ud|]; [|discriminate]. simpl in H.
    destruct (remove_edges_loop true _ _ _) as [graphs|]; [|discriminate].
    simpl in H. injection H as <-.
    match goal with |- fold_left ?f ?l ?acc <> [] =>
      assert (Hlen : (length acc <= length (fold_left f l acc))%nat)
    end.
    { apply fold_left_grows. intros acc b.
      destruct (existsb _ _); [lia | rewrite length_app; lia]. }
    rewrite length_app in Hlen. simpl in Hlen.
    intros Heq. rewrite Heq in Hlen. simpl in Hlen. lia.
  - destruct (remove_edges_loop false _ _ _) as [graphs|]; [|discriminate].
    simpl in H. injection H as <-. now destruct graphs.
Qed.

Lemma all_graphs_nonempty (n : Z) (d : bool) :
  forall gs, all_graphs n d = OK gs -> gs <> [].
Proof.
  intros gs. unfold all_graphs. apply all_graphs_body_nonempty.
Qed.

Lemma number_motifs_length (graphs : list Graph) :
  forall (motifs : list (record Graph)) (i : Z),
    length (fst (fold_left
                   (fun (st : list (record Graph) * Z) g =>
                      (fst st ++ [(snd st, g, PyInt 0)], (snd st + 1)%Z))
                   graphs (motifs, i)))
    = (length motifs + length graphs)%nat.
Proof.
  induction graphs as [|g graphs IH]; intros motifs i; simpl; [lia|].
  rewrite IH, length_app. simpl. lia.
Qed.

Lemma get_motifs_loop_grows (vs : list Z) (d : bool) :
  forall motifs i ms,
    get_motifs_loop vs d motifs i = OK ms -> (length motifs <= length ms)%nat.
Proof.
  induction vs as [|v vs IH]; intros motifs i ms H; simpl in H.
  - injection H as <-. lia.
  - destruct (all_graphs v d) as [graphs|]; [|discriminate]. simpl in H.
    apply IH in H. rewrite number_motifs_length in H. lia.
Qed.

Lemma xrange_cons (a b : Z) :
  (a < b)%Z -> exists vs, xrange a b = a :: vs.
Proof.
  intros H. unfold xrange.
  destruct (Z.to_nat (b - a)) as [|k] eqn:Hk; [lia|].
  simpl. rewrite Z.add_0_r. now eexists.
Qed.

Lemma get_motifs_nonempty (tau : Z) (d : bool) :
  (2 <= tau)%Z -> forall ms, get_motifs tau d = OK ms -> ms <> [].
Proof.
  intros Htau ms H. unfold get_motifs in H.
  destruct (xrange_cons 2 (tau + 1)) as [vs Hvs]; [lia|].
  rewrite Hvs in H. simpl in H.
  destruct (all_graphs 2 d) as [graphs|] eqn:Hg; [|discriminate]. simpl in H.
  apply get_motifs_loop_grows in H. rewrite number_motifs_length in H.
  apply all_graphs_nonempty in Hg.
  destruct graphs; [now elim Hg|]. destruct ms; [simpl in H; lia | discriminate].
Qed.

Lemma setitem_length {A : Type} (l : list A) :
  forall i v l', setitem l i v = OK l' -> length l' = length l.
Proof.
  induction l as [|a l IH]; intros i v l' H; simpl in H.
  - destruct i; discriminate.
  - destruct i as [|i].
    + injection H as <-. reflexivity.
    + destruct (setitem l i v) as [l''|] eqn:Hs; [|discriminate].
      simpl in H. injection H as <-. simpl. now rewrite (IH _ _ _ Hs).
Qed.

Lemma motif_counts_loop_length (positions : list nat) (b : Graph) (d : bool) :
  forall mc mc', motif_counts_loop positions b d mc = OK mc' -> length mc' = length mc.
Proof.
  induction positions as [|p positions IH]; intros mc mc' H; simpl in H.
  - now injection H as <-.
  - destruct (getitem mc p) as [m|]; [|discriminate]. simpl in H.
    destruct (py_index (length mc) (index m)) as [i|]; [|discriminate]. simpl in H.
    destruct (getitem mc i) as [old|]; [|discriminate]. simpl in H.
    destruct (setitem mc i _) as [mc''|] eqn:Hs; [|discriminate]. simpl in H.
    apply IH in H. apply setitem_length in Hs. congruence.
Qed.

Lemma motif_counts_nonempty (self : gmm) (tau : Z) :
  (2 <= tau)%Z -> forall dist, motif_counts self tau = OK dist -> dist <> [].
Proof.
  intros Htau dist H. unfold motif_counts in H.
  destruct (get_motifs tau _) as [ms|] eqn:Hms; [|discriminate]. simpl in H.
  apply motif_counts_loop_length in H.
  apply (get_motifs_nonempty _ _ Htau) in Hms.
  destruct ms; [now elim Hms|]. destruct dist; [discriminate | discriminate].
Qed.

(** *** The catalogue and the counts are built without an exception *)

Section WellFormedGraphs.

Local Open Scope Z_scope.

Lemma keys_sorted_tail m l d : keys_sorted ((m, l) :: d) -> keys_sorted d.
Proof. intros H. now inversion H. Qed.

Lemma keys_sorted_head m l d n :
  keys_sorted ((m, l) :: d) -> In n (map fst d) -> m < n.
Proof.
  intros H Hin. inversion H as [|? ? _ Hall]; subst.
  rewrite Forall_forall in Hall. now apply Hall.
Qed.

Lemma dict_update_keys f n d x :
  In x (map fst (dict_update f n d)) <-> x = n \/ In x (map fst d).
Proof.
  induction d as [|[m l] d IH]; simpl.
  - intuition.
  - destruct (n <? m) eqn:E1; simpl.
    + intuition.
    + destruct (n =? m) eqn:E2; simpl.
      * apply Z.eqb_eq in E2. subst. intuition.
      * rewrite IH. intuition.
Qed.

Lemma dict_update_keys_sorted f n d :
  keys_sorted d -> keys_sorted (dict_update f n d).
Proof.
  unfold keys_sorted. induction d as [|[m l] d IH]; intros H; simpl.
  - repeat constructor.
  - inversion H as [|? ? Hs Hall]; subst.
    destruct (n <? m) eqn:E1; simpl.
    + apply Z.ltb_lt in E1. constructor; [exact H|].
      constructor; [exact E1|]. rewrite Forall_forall in *. intros x Hx.
      specialize (Hall x Hx). lia.
    + destruct (n =? m) eqn:E2; simpl.
      * exact H.
      * apply Z.ltb_ge in E1. apply Z.eqb_neq in E2.
        constructor; [now apply IH|].
        rewrite Forall_forall in *. intros x Hx.
        apply dict_update_keys in Hx. destruct Hx as [-> | Hx]; [lia | now apply Hall].
Qed.

Lemma dict_get_update_other f n d m :
  m <> n -> dict_get (dict_update f n d) m = dict_get d m.
Proof.
  intros Hne. induction d as [|[k l] d IH]; simpl.
  - destruct (m =? n) eqn:E; [apply Z.eqb_eq in E; contradiction | reflexivity].
  - destruct (n <? k) eqn:E1; simpl.
    + destruct (m =? n) eqn:E; [apply Z.eqb_eq in E; contradiction | reflexivity].
    + destruct (n =? k) eqn:E2; simpl.
      * apply Z.eqb_eq in E2. subst k.
        destruct (m =? n) eqn:E; [apply Z.eqb_eq in E; contradiction | reflexivity].
      * destruct (m =? k); [reflexivity | exact IH].
Qed.

Lemma dict_get_none_sorted n d :
  (forall x, In x (map fst d) -> n < x) -> dict_get d n = None.
Proof.
  induction d as [|[k l] d IH]; intros H; simpl; [reflexivity|].
  destruct (n =? k) eqn:E.
  - apply Z.eqb_eq in E. subst. specialize (H k (or_introl eq_refl)). lia.
  - apply IH. intros x Hx. apply H. now right.
Qed.

Lemma dict_get_update_same f n d :
  keys_sorted d -> dict_get (dict_update f n d) n = Some (f (nb d n)).
Proof.
  unfold nb. induction d as [|[k l] d IH]; intros H; simpl.
  - now rewrite Z.eqb_refl.
  - destruct (n <? k) eqn:E1; simpl.
    + rewrite Z.eqb_refl. apply Z.ltb_lt in E1.
      assert (E : (n =? k) = false) by (apply Z.eqb_neq; lia). rewrite E.
      rewrite dict_get_none_sorted; [reflexivity|].
      intros x Hx. pose proof (keys_sorted_head _ _ _ _ H Hx). lia.
    + destruct (n =? k) eqn:E2; simpl.
      * now rewrite E2.
      * rewrite E2. apply IH. now apply keys_sorted_tail in H.
Qed.

Lemma nb_update f n d m :
  keys_sorted d ->
  nb (dict_update f n d) m = if m =? n then f (nb d n) else nb d m.
Proof.
  intros H. unfold nb at 1. destruct (m =? n) eqn:E.
  - apply Z.eqb_eq in E. subst. now rewrite dict_get_update_same.
  - apply Z.eqb_neq in E. now rewrite dict_get_update_other.
Qed.

Lemma dict_get_in d n l : dict_get d n = Some l -> In (n, l) d.
Proof.
  induction d as [|[k l'] d IH]; simpl; [discriminate|].
  destruct (n =? k) eqn:E.
  - apply Z.eqb_eq in E. subst. intros H. injection H as ->. now left.
  - intros H. right. now apply IH.
Qed.

Lemma in_dict_get d n l : keys_sorted d -> In (n, l) d -> dict_get d n = Some l.
Proof.
  induction d as [|[k l'] d IH]; intros Hs Hin; simpl; [contradiction|].
  destruct Hin as [Heq | Hin].
  - injection Heq as -> ->. now rewrite Z.eqb_refl.
  - assert (k < n).
    { apply (keys_sorted_head _ _ _ _ Hs). apply (in_map fst) in Hin. exact Hin. }
    assert (E : (n =? k) = false) by (apply Z.eqb_neq; lia). rewrite E.
    apply IH; [now apply keys_sorted_tail in Hs | exact Hin].
Qed.

Lemma lists_sorted_update f n d :
  StronglySorted Z.lt (f []) ->
  (forall l, StronglySorted Z.lt l -> StronglySorted Z.lt (f l)) ->
  lists_sorted d -> lists_sorted (dict_update f n d).
Proof.
  intros H0 Hf. unfold lists_sorted. induction d as [|[k l] d IH]; intros H; simpl.
  - repeat constructor. exact H0.
  - inversion H as [|? ? Hl Hd]; subst. simpl in Hl.
    destruct (n <? k); [constructor; [exact H0 | exact H]|].
    destruct (n =? k); constructor; simpl; auto.
Qed.

(** Sorted lists and deletion *)

Lemma sorted_NoDup l : StronglySorted Z.lt l -> NoDup l.
Proof.
  induction 1 as [|a l _ IH Hall]; constructor; [|exact IH].
  intros Hin. rewrite Forall_forall in Hall. specialize (Hall a Hin). lia.
Qed.

Lemma delete_key_sorted n l : StronglySorted Z.lt l -> StronglySorted Z.lt (delete_key n l).
Proof.
  unfold delete_key. induction 1 as [|a l _ IH Hall]; simpl; [constructor|].
  destruct (negb (a =? n)); [|exact IH].
  constructor; [exact IH|]. rewrite Forall_forall in *.
  intros x Hx. apply filter_In in Hx. now apply Hall.
Qed.

Lemma delete_key_In n l x : In x (delete_key n l) <-> In x l /\ x <> n.
Proof.
  unfold delete_key. rewrite filter_In. rewrite negb_true_iff, Z.eqb_neq. reflexivity.
Qed.

Lemma delete_key_last l v : ~ In v l -> delete_key v (l ++ [v]) = l.
Proof.
  intros H. unfold delete_key. rewrite filter_app. simpl. rewrite Z.eqb_refl. simpl.
  rewrite app_nil_r. induction l as [|a l IH]; simpl; [reflexivity|].
  destruct (a =? v) eqn:E.
  - apply Z.eqb_eq in E. subst. elim H. now left.
  - simpl. f_equal. apply IH. intros Hin. apply H. now right.
Qed.

Lemma delete_key_notin l v : ~ In v l -> delete_key v l = l.
Proof.
  intros H. unfold delete_key. induction l as [|a l IH]; simpl; [reflexivity|].
  destruct (a =? v) eqn:E.
  - apply Z.eqb_eq in E. subst. elim H. now left.
  - simpl. f_equal. apply IH. intros Hin. apply H. now right.
Qed.

Lemma mem_In n l : mem n l = true <-> In n l.
Proof.
  unfold mem. rewrite existsb_exists. split.
  - intros [x [Hx E]]. apply Z.eqb_eq in E. now subst.
  - intros H. exists n. split; [exact H | apply Z.eqb_refl].
Qed.

(** The directed case *)

Lemma flat_edges_keys d u v : In (u, v) (flat_edges d) -> In u (map fst d).
Proof.
  unfold flat_edges. rewrite in_flat_map. intros [[k l] [Hk Hin]]. simpl in Hin.
  apply in_map_iff in Hin. destruct Hin as [x [Heq _]]. injection Heq as -> _.
  now apply (in_map fst) in Hk.
Qed.

Lemma map_pair_snoc (m : node) (l : list node) es u v :
  map (pair m) l = es ++ [(u, v)] ->
  m = u /\ exists l0, l = l0 ++ [v] /\ es = map (pair m) l0.
Proof.
  revert es. induction l as [|a l IH]; intros es H; simpl in H.
  - destruct es; discriminate.
  - destruct es as [|e es]; simpl in H.
    + injection H as -> -> Hl. destruct l; [|discriminate].
      split; [reflexivity|]. now exists [].
    + injection H as <- Hl. destruct (IH es Hl) as [Hm [l0 [-> ->]]].
      split; [exact Hm|]. now exists (a :: l0).
Qed.

Lemma app_snoc_inv {A} (l1 l2 es : list A) x :
  l1 ++ l2 = es ++ [x] ->
  (l2 = [] /\ l1 = es ++ [x]) \/ (exists es', l2 = es' ++ [x] /\ es = l1 ++ es').
Proof.
  intros H. destruct l2 as [|b l2] using rev_ind.
  - left. split; [reflexivity|]. now rewrite app_nil_r in H.
  - right. rewrite app_assoc in H. apply app_inj_tail in H. destruct H as [<- ->].
    now exists l2.
Qed.

Lemma flat_edges_remove_last d :
  keys_sorted d -> lists_sorted d ->
  forall es u v,
    flat_edges d = es ++ [(u, v)] ->
    In v (nb d u) /\ flat_edges (dict_update (delete_key v) u d) = es.
Proof.
  induction d as [|[m l] d IH]; intros Hk Hl es u v H.
  - destruct es; discriminate.
  - unfold flat_edges in H. simpl in H. fold (flat_edges d) in H.
    inversion Hl as [|? ? Hlm Hld]; subst. simpl in Hlm.
    apply app_snoc_inv in H. destruct H as [[Hnil Hm] | [es' [Hd ->]]].
    + apply map_pair_snoc in Hm. destruct Hm as [-> [l0 [-> ->]]].
      assert (Hv : ~ In v l0).
      { apply sorted_NoDup in Hlm. apply NoDup_remove_2 in Hlm.
        now rewrite app_nil_r in Hlm. }
      split.
      * unfold nb. simpl. rewrite Z.eqb_refl. apply in_or_app. right. now left.
      * simpl. rewrite Z.ltb_irrefl, Z.eqb_refl. unfold flat_edges. simpl.
        fold (flat_edges d). rewrite Hnil, app_nil_r. now rewrite delete_key_last.
    + assert (Hu : m < u).
      { apply (keys_sorted_head _ _ _ _ Hk). apply (flat_edges_keys d u v).
        rewrite Hd. apply in_or_app. right. now left. }
      destruct (IH (keys_sorted_tail _ _ _ Hk) Hld es' u v Hd) as [Hin Hflat].
      split.
      * unfold nb in *. simpl.
        assert (E : (u =? m) = false) by (apply Z.eqb_neq; lia). now rewrite E.
      * simpl.
        assert (E1 : (u <? m) = false) by (apply Z.ltb_ge; lia).
        assert (E2 : (u =? m) = false) by (apply Z.eqb_neq; lia).
        rewrite E1, E2. unfold flat_edges. simpl. fold (flat_edges (dict_update (delete_key v) u d)).
        now rewrite Hflat.
Qed.

(** The undirected case *)

Lemma edges_unseen_cons m l d seen :
  edges_unseen ((m, l) :: d) seen
  = map (pair m) (filter (unseen seen) l) ++ edges_unseen d (m :: seen).
Proof. reflexivity. Qed.

Lemma unseen_false seen u : In u seen -> unseen seen u = false.
Proof. intros H. unfold unseen. apply negb_false_iff. now apply mem_In. Qed.

Lemma unseen_true seen u : unseen seen u = true <-> ~ In u seen.
Proof.
  unfold unseen. rewrite negb_true_iff. rewrite <- not_true_iff_false.
  now rewrite mem_In.
Qed.

Lemma filter_delete_seen seen u l :
  In u seen -> filter (unseen seen) (delete_key u l) = filter (unseen seen) l.
Proof.
  intros H. unfold delete_key. induction l as [|a l IH]; simpl; [reflexivity|].
  destruct (a =? u) eqn:E; simpl.
  - apply Z.eqb_eq in E. subst. now rewrite (unseen_false _ _ H).
  - now rewrite IH.
Qed.

Lemma filter_delete_comm seen v l :
  filter (unseen seen) (delete_key v l) = delete_key v (filter (unseen seen) l).
Proof.
  unfold delete_key. induction l as [|a l IH]; simpl; [reflexivity|].
  destruct (a =? v) eqn:E; destruct (unseen seen a) eqn:E'; simpl;
    rewrite ?E, ?E'; simpl; now rewrite IH.
Qed.

Lemma edges_unseen_delete_seen d :
  keys_sorted d ->
  forall seen u v,
    In v (map fst d) -> In u seen ->
    edges_unseen (dict_update (delete_key u) v d) seen = edges_unseen d seen.
Proof.
  induction d as [|[k l] d IH]; intros Hk seen u v Hv Hu; [contradiction|].
  simpl in Hv. simpl dict_update.
  destruct Hv as [<- | Hv].
  - rewrite Z.ltb_irrefl, Z.eqb_refl. rewrite !edges_unseen_cons.
    now rewrite filter_delete_seen.
  - assert (k < v) by (apply (keys_sorted_head _ _ _ _ Hk Hv)).
    assert (E1 : (v <? k) = false) by (apply Z.ltb_ge; lia).
    assert (E2 : (v =? k) = false) by (apply Z.eqb_neq; lia).
    rewrite E1, E2, !edges_unseen_cons. f_equal.
    apply IH; [now apply keys_sorted_tail in Hk | exact Hv | now right].
Qed.

Lemma edges_unseen_In d : forall seen u v,
  In (u, v) (edges_unseen d seen) ->
  ~ In v seen /\ exists l, In (u, l) d /\ In v l.
Proof.
  induction d as [|[k l] d IH]; intros seen u v H; [contradiction|].
  rewrite edges_unseen_cons in H. apply in_app_or in H. destruct H as [H | H].
  - apply in_map_iff in H. destruct H as [x [Heq Hx]]. injection Heq as -> ->.
    apply filter_In in Hx. destruct Hx as [Hx Hs]. apply unseen_true in Hs.
    split; [exact Hs|]. exists l. split; [now left | exact Hx].
  - apply IH in H. destruct H as [Hs [l' [Hl' Hv]]].
    split; [intros Hin; apply Hs; now right|].
    exists l'. split; [now right | exact Hv].
Qed.

Lemma back_edges_tail k l d seen :
  no_loops ((k, l) :: d) -> keys_sorted ((k, l) :: d) ->
  back_edges ((k, l) :: d) seen -> back_edges d (k :: seen).
Proof.
  intros Hloop Hk H n l0 m Hn Hm Hs.
  destruct (H n l0 m (or_intror Hn) Hm) as [l' [Hl' Hn']].
  - intros Hin. apply Hs. now right.
  - destruct Hl' as [Heq | Hl']; [|now exists l'].
    injection Heq as -> _. elim Hs. now left.
Qed.

Lemma edges_unseen_remove_last d :
  keys_sorted d -> lists_sorted d -> no_loops d ->
  forall seen es u v,
    back_edges d seen ->
    edges_unseen d seen = es ++ [(u, v)] ->
    edges_unseen (dict_update (delete_key u) v (dict_update (delete_key v) u d)) seen = es.
Proof.
  induction d as [|[m l] d IH]; intros Hk Hl Hloop seen es u v Hback H.
  - destruct es; discriminate.
  - rewrite edges_unseen_cons in H.
    inversion Hl as [|? ? Hlm Hld]; subst. simpl in Hlm.
    assert (Hloop' : no_loops d) by (intros n l0 Hn; apply Hloop; now right).
    pose proof (keys_sorted_tail _ _ _ Hk) as Hk'.
    pose proof (back_edges_tail _ _ _ _ Hloop Hk Hback) as Hback'.
    apply app_snoc_inv in H. destruct H as [[Hnil Hm] | [es' [Hd ->]]].
    + apply map_pair_snoc in Hm. destruct Hm as [-> [l0 [Hl0 ->]]].
      assert (Hvl : In v l /\ ~ In v seen).
      { assert (Hin : In v (filter (unseen seen) l))
          by (rewrite Hl0; apply in_or_app; right; now left).
        apply filter_In in Hin. now rewrite unseen_true in Hin. }
      destruct Hvl as [Hvl Hvs].
      destruct (Hback u l v (or_introl eq_refl) Hvl Hvs) as [l' [Hl' Hul']].
      assert (Hne : v <> u).
      { intros ->. now apply (Hloop u l (or_introl eq_refl)). }
      destruct Hl' as [Heq | Hl']; [injection Heq as ->; contradiction|].
      assert (Huv : u < v).
      { apply (keys_sorted_head _ _ _ _ Hk). now apply (in_map fst) in Hl'. }
      simpl dict_update at 2. rewrite Z.ltb_irrefl, Z.eqb_refl.
      simpl dict_update.
      assert (E1 : (v <? u) = false) by (apply Z.ltb_ge; lia).
      assert (E2 : (v =? u) = false) by (apply Z.eqb_neq; lia).
      rewrite E1, E2, edges_unseen_cons.
      rewrite edges_unseen_delete_seen;
        [| exact Hk' | now apply (in_map fst) in Hl' | now left].
      rewrite Hnil, app_nil_r, filter_delete_comm, Hl0.
      rewrite delete_key_last; [reflexivity|].
      assert (Hnd : NoDup (filter (unseen seen) l)).
      { apply NoDup_filter. now apply sorted_NoDup. }
      rewrite Hl0 in Hnd. apply NoDup_remove_2 in Hnd. now rewrite app_nil_r in Hnd.
    + assert (Hin : In (u, v) (edges_unseen d (m :: seen)))
        by (rewrite Hd; apply in_or_app; right; now left).
      apply edges_unseen_In in Hin. destruct Hin as [Hvs [lu [Hlu Hvlu]]].
      assert (Hu : m < u).
      { apply (keys_sorted_head _ _ _ _ Hk). now apply (in_map fst) in Hlu. }
      destruct (Hback' u lu v Hlu Hvlu Hvs) as [lv [Hlv _]].
      assert (Hv : m < v).
      { apply (keys_sorted_head _ _ _ _ Hk). now apply (in_map fst) in Hlv. }
      simpl dict_update at 2.
      assert (E1 : (u <? m) = false) by (apply Z.ltb_ge; lia).
      assert (E2 : (u =? m) = false) by (apply Z.eqb_neq; lia).
      rewrite E1, E2. simpl dict_update.
      assert (E3 : (v <? m) = false) by (apply Z.ltb_ge; lia).
      assert (E4 : (v =? m) = false) by (apply Z.eqb_neq; lia).
      rewrite E3, E4, edges_unseen_cons. f_equal.
      now apply IH.
Qed.

(** Graph-level well-formedness *)

Lemma nb_of_in d n l : keys_sorted d -> In (n, l) d -> nb d n = l.
Proof. intros Hk Hin. unfold nb. now rewrite (in_dict_get d n l Hk Hin). Qed.

Lemma in_of_nb d n m : In m (nb d n) -> exists l, In (n, l) d /\ In m l.
Proof.
  unfold nb. destruct (dict_get d n) as [l|] eqn:E; [|contradiction].
  intros H. exists l. split; [now apply dict_get_in | exact H].
Qed.

Lemma no_loops_of_sem d : keys_sorted d -> no_loops_sem d -> no_loops d.
Proof.
  intros Hk H n l Hin Hn. apply (H n). now rewrite (nb_of_in d n l Hk Hin).
Qed.

Lemma back_edges_of_symmetric d : keys_sorted d -> symmetric d -> back_edges d [].
Proof.
  intros Hk H n l m Hin Hm _.
  apply in_of_nb. apply H. now rewrite (nb_of_in d n l Hk Hin).
Qed.

Lemma remove_last_directed g es u v :
  directed g = true -> wf_dir g -> edges g = es ++ [(u, v)] ->
  exists g', remove_edge g u v = OK g' /\ directed g' = true /\ wf_dir g'
             /\ edges g' = es.
Proof.
  intros Hd [Hk Hl] He. unfold edges in He. rewrite Hd in He.
  destruct (flat_edges_remove_last (adj g) Hk Hl es u v He) as [Hin Hflat].
  unfold remove_edge, has_edge, neighbors. fold (nb (adj g) u).
  apply mem_In in Hin. rewrite Hin, Hd.
  eexists. split; [reflexivity|]. split; [exact Hd|]. split.
  - split; simpl.
    + now apply dict_update_keys_sorted.
    + apply lists_sorted_update; [constructor | apply delete_key_sorted | exact Hl].
  - unfold edges. simpl. rewrite Hd. exact Hflat.
Qed.

Lemma remove_last_undirected g es u v :
  directed g = false -> wf_und g -> edges g = es ++ [(u, v)] ->
  exists g', remove_edge g u v = OK g' /\ directed g' = false /\ wf_und g'
             /\ edges g' = es.
Proof.
  intros Hd [Hk [Hl [Hloop Hsym]]] He. unfold edges in He. rewrite Hd in He.
  assert (Hin : In v (nb (adj g) u)).
  { assert (H : In (u, v) (edges_unseen (adj g) []))
      by (rewrite He; apply in_or_app; right; now left).
    apply edges_unseen_In in H. destruct H as [_ [l [Hl' Hv]]].
    now rewrite (nb_of_in _ _ _ Hk Hl'). }
  assert (Hne : u <> v) by (intros ->; exact (Hloop v Hin)).
  unfold remove_edge, has_edge, neighbors. fold (nb (adj g) u).
  pose proof Hin as Hmem. apply mem_In in Hmem. rewrite Hmem, Hd.
  eexists. split; [reflexivity|]. split; [exact Hd|].
  set (d1 := dict_update (delete_key v) u (adj g)).
  assert (Hk1 : keys_sorted d1) by now apply dict_update_keys_sorted.
  assert (Hnb : forall x, nb (dict_update (delete_key u) v d1) x
                          = if x =? v then delete_key u (nb (adj g) v)
                            else if x =? u then delete_key v (nb (adj g) u)
                            else nb (adj g) x).
  { intros x. rewrite (nb_update _ _ _ _ Hk1). unfold d1.
    rewrite !(nb_update _ _ _ _ Hk).
    assert (E : (v =? u) = false) by (apply Z.eqb_neq; congruence).
    rewrite E. reflexivity. }
  split.
  - split; [|split; [|split]]; simpl.
    + now apply dict_update_keys_sorted.
    + apply lists_sorted_update; [constructor | apply delete_key_sorted |].
      apply lists_sorted_update; [constructor | apply delete_key_sorted | exact Hl].
    + intros n. rewrite Hnb.
      destruct (n =? v) eqn:Env; [apply Z.eqb_eq in Env; subst n|];
        [|destruct (n =? u) eqn:Enu; [apply Z.eqb_eq in Enu; subst n|]];
        rewrite ?delete_key_In; intros H;
        [apply (Hloop v); tauto | apply (Hloop u); tauto | apply (Hloop n); exact H].
    + intros n m. rewrite !Hnb.
      destruct (n =? v) eqn:Env; [apply Z.eqb_eq in Env|apply Z.eqb_neq in Env];
      (destruct (n =? u) eqn:Enu; [apply Z.eqb_eq in Enu|apply Z.eqb_neq in Enu]);
      (destruct (m =? v) eqn:Emv; [apply Z.eqb_eq in Emv|apply Z.eqb_neq in Emv]);
      (destruct (m =? u) eqn:Emu; [apply Z.eqb_eq in Emu|apply Z.eqb_neq in Emu]);
      subst; rewrite ?delete_key_In; intros H;
      try congruence;
      try (destruct H as [H Hx]);
      try (split; [now apply Hsym | congruence]);
      try (now apply Hsym); try tauto.
  - unfold edges. simpl. rewrite Hd.
    apply edges_unseen_remove_last; auto.
    + now apply no_loops_of_sem.
    + now apply back_edges_of_symmetric.
Qed.

Lemma remove_edges_loop_total (d : bool) (es : list edge) :
  forall g acc, wf_for d g -> edges g = es ->
    exists r, remove_edges_loop d g (rev es) acc = OK r.
Proof.
  induction es as [|[u v] es IH] using rev_ind; intros g acc [Hd Hwf] He.
  - simpl. unfold number_of_edges. rewrite He. simpl. now eexists.
  - rewrite rev_app_distr. simpl.
    unfold number_of_edges at 1. rewrite He, length_app. simpl.
    assert (E : (0 <? Z.of_nat (length es + 1)) = true) by (apply Z.ltb_lt; lia).
    rewrite E.
    assert (Hg : exists g', remove_edge g u v = OK g' /\ wf_for d g' /\ edges g' = es).
    { destruct d.
      - destruct (remove_last_directed g es u v Hd Hwf He) as [g' [H1 [H2 [H3 H4]]]].
        exists g'. split; [exact H1|]. split; [split; [exact H2 | exact H3] | exact H4].
      - destruct (remove_last_undirected g es u v Hd Hwf He) as [g' [H1 [H2 [H3 H4]]]].
        exists g'. split; [exact H1|]. split; [split; [exact H2 | exact H3] | exact H4]. }
    destruct Hg as [g' [Hr [Hwf' He']]]. rewrite Hr. simpl.
    apply IH; assumption.
Qed.

(** Building graphs *)

Lemma insert_key_In n l x : In x (insert_key n l) <-> x = n \/ In x l.
Proof.
  induction l as [|m l IH]; simpl.
  - intuition.
  - destruct (n <? m); simpl; [intuition|].
    destruct (n =? m) eqn:E; simpl.
    + apply Z.eqb_eq in E. subst. intuition.
    + rewrite IH. intuition.
Qed.

Lemma insert_key_sorted n l :
  StronglySorted Z.lt l -> StronglySorted Z.lt (insert_key n l).
Proof.
  induction 1 as [|m l Hs IH Hall]; simpl.
  - repeat constructor.
  - destruct (n <? m) eqn:E1.
    + apply Z.ltb_lt in E1. constructor; [now constructor|].
      constructor; [exact E1|]. rewrite Forall_forall in *.
      intros x Hx. specialize (Hall x Hx). lia.
    + destruct (n =? m) eqn:E2; [now constructor|].
      apply Z.ltb_ge in E1. apply Z.eqb_neq in E2.
      constructor; [exact IH|]. rewrite Forall_forall in *.
      intros x Hx. apply insert_key_In in Hx. destruct Hx as [-> | Hx]; [lia | auto].
Qed.

Lemma fold_left_preserves {A B : Type} (P : A -> Prop) (f : A -> B -> A) (l : list B) :
  (forall acc x, In x l -> P acc -> P (f acc x)) ->
  forall acc, P acc -> P (fold_left f l acc).
Proof.
  induction l as [|b l IH]; intros Hf acc Hacc; simpl; [exact Hacc|].
  apply IH.
  - intros a x Hx. apply Hf. now right.
  - apply Hf; [now left | exact Hacc].
Qed.

Lemma add_node_wf g n : wf_for false g -> wf_for false (add_node g n).
Proof.
  intros [Hd [Hk [Hl [Hloop Hsym]]]].
  assert (Hnb : forall x, nb (dict_update (fun l => l) n (adj g)) x = nb (adj g) x).
  { intros x. rewrite (nb_update _ _ _ _ Hk). destruct (x =? n) eqn:E; [|reflexivity].
    apply Z.eqb_eq in E. now subst. }
  split; [exact Hd|]. split; [|split; [|split]]; simpl.
  - now apply dict_update_keys_sorted.
  - apply lists_sorted_update; [constructor | auto | exact Hl].
  - intros x. rewrite Hnb. apply Hloop.
  - intros x y. rewrite !Hnb. apply Hsym.
Qed.

Lemma add_edge_wf g u v : u <> v -> wf_for false g -> wf_for false (add_edge g u v).
Proof.
  intros Hne [Hd [Hk [Hl [Hloop Hsym]]]].
  set (d1 := dict_update (fun l => l) v (adj g)).
  set (d2 := dict_update (insert_key v) u d1).
  assert (Hk1 : keys_sorted d1) by now apply dict_update_keys_sorted.
  assert (Hk2 : keys_sorted d2) by now apply dict_update_keys_sorted.
  assert (Hnb1 : forall x, nb d1 x = nb (adj g) x).
  { intros x. unfold d1. rewrite (nb_update _ _ _ _ Hk).
    destruct (x =? v) eqn:E; [|reflexivity]. apply Z.eqb_eq in E. now subst. }
  assert (Hnb : forall x, nb (dict_update (insert_key u) v d2) x
                          = if x =? v then insert_key u (nb (adj g) v)
                            else if x =? u then insert_key v (nb (adj g) u)
                            else nb (adj g) x).
  { intros x. rewrite (nb_update _ _ _ _ Hk2). unfold d2.
    rewrite !(nb_update _ _ _ _ Hk1), !Hnb1.
    assert (E : (v =? u) = false) by (apply Z.eqb_neq; congruence).
    rewrite E. reflexivity. }
  split; [exact Hd|]. unfold add_edge. rewrite Hd. fold d1. fold d2.
  split; [|split; [|split]]; simpl.
  - now apply dict_update_keys_sorted.
  - apply lists_sorted_update; [repeat constructor | apply insert_key_sorted |].
    apply lists_sorted_update; [repeat constructor | apply insert_key_sorted |].
    apply lists_sorted_update; [constructor | auto | exact Hl].
  - intros n. rewrite Hnb.
    destruct (n =? v) eqn:Env; [apply Z.eqb_eq in Env; subst n|];
      [|destruct (n =? u) eqn:Enu; [apply Z.eqb_eq in Enu; subst n|]];
      rewrite ?insert_key_In; intros H;
      [apply (Hloop v); destruct H; congruence
      |apply (Hloop u); destruct H; congruence
      |apply (Hloop n); exact H].
  - intros n m. rewrite !Hnb.
    destruct (n =? v) eqn:Env; [apply Z.eqb_eq in Env|apply Z.eqb_neq in Env];
    (destruct (n =? u) eqn:Enu; [apply Z.eqb_eq in Enu|apply Z.eqb_neq in Enu]);
    (destruct (m =? v) eqn:Emv; [apply Z.eqb_eq in Emv|apply Z.eqb_neq in Emv]);
    (destruct (m =? u) eqn:Emu; [apply Z.eqb_eq in Emu|apply Z.eqb_neq in Emu]);
    subst; rewrite ?insert_key_In; intros H;
    try congruence;
    try (destruct H as [H | H]; try congruence);
    try (now left); try (right; now apply Hsym); try (now apply Hsym);
    try (exfalso; exact (Hloop _ H)).
Qed.

Lemma empty_wf d s : wf_for d (mkGraph d s []).
Proof.
  split; [reflexivity|].
  destruct d; repeat split; try constructor; intros n; simpl; try tauto.
Qed.

Lemma set_name_wf d g s : wf_for d g -> wf_for d (set_name g s).
Proof. intros H. exact H. Qed.

Lemma empty_graph_wf n : wf_for false (empty_graph n).
Proof.
  unfold empty_graph. apply fold_left_preserves.
  - intros acc x _. apply add_node_wf.
  - apply empty_wf.
Qed.

Lemma range_In n x : In x (range n) -> 0 <= x < Z.of_nat n.
Proof.
  unfold range. rewrite in_map_iff. intros [k [<- Hk]]. apply in_seq in Hk. lia.
Qed.

Lemma complete_graph_wf n : wf_for false (complete_graph n).
Proof.
  unfold complete_graph. apply fold_left_preserves.
  - intros acc u _ Hacc. apply fold_left_preserves; [|exact Hacc].
    intros acc' v Hv. apply filter_In in Hv. destruct Hv as [_ Hv].
    apply Z.ltb_lt in Hv. apply add_edge_wf. lia.
  - apply set_name_wf, empty_graph_wf.
Qed.

Lemma to_directed_wf g : wf_for false g -> wf_for true (to_directed g).
Proof.
  intros [_ [Hk [Hl _]]]. split; [reflexivity|]. split; assumption.
Qed.

Lemma all_graphs_total (num_nodes : Z) (directed_motifs : bool) :
  exists gs, all_graphs num_nodes directed_motifs = OK gs.
Proof.
  assert (Hu : exists gs, all_graphs_body (OK []) num_nodes false = OK gs).
  { unfold all_graphs_body.
    destruct (remove_edges_loop_total false
                (edges (complete_graph (Z.to_nat num_nodes)))
                (complete_graph (Z.to_nat num_nodes)) []
                (complete_graph_wf _) eq_refl) as [r ->].
    simpl. now eexists. }
  unfold all_graphs. destruct directed_motifs; [|exact Hu].
  destruct Hu as [ud ->]. unfold all_graphs_body. cbn [bind].
  destruct (remove_edges_loop_total true
              (edges (to_directed (complete_graph (Z.to_nat num_nodes))))
              (to_directed (complete_graph (Z.to_nat num_nodes))) []
              (to_directed_wf _ (complete_graph_wf _)) eq_refl) as [r ->].
  cbn [bind]. now eexists.
Qed.

(** The catalogue and the counts never raise *)

Lemma indexed_snoc {A : Type} (l : list (record A)) (a : A) (v : PyNum.num) :
  indexed l -> indexed (l ++ [(Z.of_nat (length l), a, v)]).
Proof.
  intros H p r Hp. destruct (Nat.lt_ge_cases p (length l)) as [Hlt | Hge].
  - rewrite nth_error_app1 in Hp by exact Hlt. now apply H.
  - rewrite nth_error_app2 in Hp by exact Hge.
    destruct (p - length l)%nat as [|k] eqn:E; simpl in Hp.
    + injection Hp as <-. unfold index. simpl. f_equal. lia.
    + destruct k; discriminate.
Qed.

Lemma number_motifs_indexed (graphs : list Graph) :
  forall motifs : list (record Graph),
    indexed motifs ->
    let st := fold_left
                (fun (st : list (record Graph) * Z) g =>
                   (fst st ++ [(snd st, g, PyNum.PyInt 0)], (snd st + 1)%Z))
                graphs (motifs, Z.of_nat (length motifs)) in
    indexed (fst st) /\ snd st = Z.of_nat (length (fst st)).
Proof.
  induction graphs as [|g graphs IH]; intros motifs H; simpl.
  - split; [exact H | reflexivity].
  - replace (Z.of_nat (length motifs) + 1)
      with (Z.of_nat (length (motifs ++ [(Z.of_nat (length motifs), g, PyNum.PyInt 0)])))
      by (rewrite length_app; simpl; lia).
    apply IH. now apply indexed_snoc.
Qed.

Lemma get_motifs_loop_total (vs : list Z) (d : bool) :
  forall motifs : list (record Graph),
    indexed motifs ->
    exists ms, get_motifs_loop vs d motifs (Z.of_nat (length motifs)) = OK ms
               /\ indexed ms.
Proof.
  induction vs as [|v vs IH]; intros motifs H; simpl.
  - now exists motifs.
  - destruct (all_graphs_total v d) as [graphs ->]. cbn [bind].
    destruct (number_motifs_indexed graphs motifs H) as [Hi Hs].
    rewrite Hs. now apply IH.
Qed.

Lemma get_motifs_total (tau : Z) (d : bool) :
  exists ms, get_motifs tau d = OK ms /\ indexed ms.
Proof.
  unfold get_motifs.
  apply (get_motifs_loop_total (xrange 2 (tau + 1)) d []).
  intros p r Hp. destruct p; discriminate.
Qed.

Lemma setitem_total {A : Type} (l : list A) :
  forall i v, (i < length l)%nat ->
    exists l', setitem l i v = OK l'
               /\ length l' = length l
               /\ nth_error l' i = Some v
               /\ forall j, j <> i -> nth_error l' j = nth_error l j.
Proof.
  induction l as [|a l IH]; intros i v Hi; simpl in Hi; [lia|].
  destruct i as [|i]; simpl.
  - eexists. split; [reflexivity|]. split; [reflexivity|]. split; [reflexivity|].
    intros [|j] Hj; [congruence | reflexivity].
  - destruct (IH i v ltac:(lia)) as [l' [-> [Hlen [Hnth Hother]]]]. cbn [bind].
    eexists. split; [reflexivity|]. split; [simpl; now rewrite Hlen|].
    split; [exact Hnth|].
    intros [|j] Hj; [reflexivity|]. simpl. apply Hother. congruence.
Qed.

Lemma py_index_position (len p : nat) :
  (p < len)%nat -> py_index len (Z.of_nat p) = OK p.
Proof.
  intros H. unfold py_index.
  assert (E : ((0 <=? Z.of_nat p) && (Z.of_nat p <? Z.of_nat len)) = true).
  { apply andb_true_intro. split; [apply Z.leb_le | apply Z.ltb_lt]; lia. }
  rewrite E. now rewrite Nat2Z.id.
Qed.

Lemma motif_counts_loop_total (positions : list nat) (b : Graph) (d : bool) :
  forall mc : list (record Graph),
    indexed mc ->
    Forall (fun p => (p < length mc)%nat) positions ->
    exists mc', motif_counts_loop positions b d mc = OK mc'.
Proof.
  induction positions as [|p positions IH]; intros mc Hi Hp; simpl.
  - now eexists.
  - inversion Hp as [|? ? Hlt Hrest]; subst.
    unfold getitem at 1.
    destruct (nth_error mc p) as [m|] eqn:Hm;
      [|apply nth_error_None in Hm; lia].
    cbn [bind]. rewrite (Hi p m Hm), (py_index_position _ _ Hlt). cbn [bind].
    unfold getitem. rewrite Hm. cbn [bind].
    match goal with |- context [setitem mc p ?v] =>
      destruct (setitem_total mc p v Hlt) as [mc' [-> [Hlen [Hnth Hother]]]]
    end.
    cbn [bind]. apply IH.
    + intros q r Hq. destruct (Nat.eq_dec q p) as [-> | Hne].
      * rewrite Hnth in Hq. now injection Hq as <-.
      * rewrite (Hother q Hne) in Hq. now apply Hi.
    + rewrite Hlen. exact Hrest.
Qed.

Lemma motif_counts_total (self : gmm) (tau : Z) :
  exists dist, motif_counts self tau = OK dist.
Proof.
  unfold motif_counts.
  destruct (get_motifs_total tau (is_directed (get_base self false))) as [ms [-> Hi]].
  cbn [bind]. apply motif_counts_loop_total; [exact Hi|].
  apply Forall_forall. intros p Hp. apply in_seq in Hp. lia.
Qed.

End WellFormedGraphs.

(** For every order and either kind of motif [all_graphs] returns a list
    that is not empty, and for every model and every [tau] [motif_counts]
    returns its records, each carrying its position as index; from
    [tau = 2] on there is at least one record. *)
Theorem motif_catalogue_total (self : gmm) (tau num_nodes : Z) (directed_motifs : bool) :
  (exists graphs, all_graphs num_nodes directed_motifs = OK graphs /\ graphs <> [])
  /\ (exists motifs, get_motifs tau directed_motifs = OK motifs /\ indexed motifs)
  /\ (exists dist, motif_counts self tau = OK dist /\ ((2 <= tau)%Z -> dist <> [])).
Proof.
  split; [|split].
  - destruct (all_graphs_total num_nodes directed_motifs) as [graphs H].
    exists graphs. split; [exact H|]. now apply all_graphs_nonempty in H.
  - apply get_motifs_total.
  - destruct (motif_counts_total self tau) as [dist H].
    exists dist. split; [exact H|]. intros Htau.
    now apply (motif_counts_nonempty self tau Htau).
Qed.

(** *** The counts of [motif_counts] *)

Lemma count_fold {A : Type} (l : list A) :
  forall c : Z, fold_left (fun count _ => (count + 1)%Z) l c = (c + Z.of_nat (length l))%Z.
Proof.
  induction l as [|a l IH]; intros c; cbn [fold_left length]; [lia|].
  rewrite IH. lia.
Qed.

Lemma setitem_middle {A : Type} (done : list A) (m v : A) (rest : list A) :
  setitem (done ++ m :: rest) (length done) v = OK (done ++ v :: rest).
Proof.
  induction done as [|a done IH]; [reflexivity|].
  cbn [app length setitem]. now rewrite IH.
Qed.

Lemma motif_counts_loop_map (b : Graph) (d : bool) (rest : list (record Graph)) :
  forall done : list (record Graph),
    indexed (done ++ rest) ->
    motif_counts_loop (seq (length done) (length rest)) b d (done ++ rest)
    = OK (done ++ map (counted b) rest).
Proof.
  induction rest as [|m rest IH]; intros done Hi.
  - reflexivity.
  - cbn [length seq motif_counts_loop map].
    assert (Hm : nth_error (done ++ m :: rest) (length done) = Some m).
    { rewrite nth_error_app2 by lia. now rewrite Nat.sub_diag. }
    unfold getitem at 1. rewrite Hm. cbn [bind].
    rewrite (Hi _ _ Hm).
    rewrite py_index_position by (rewrite length_app; simpl; lia). cbn [bind].
    unfold getitem. rewrite Hm. cbn [bind].
    rewrite setitem_middle. cbn [bind].
    assert (Hv : (Z.of_nat (length done), motif m,
                  PyInt (fold_left (fun count _ => (count + 1)%Z)
                           (subgraph_isomorphisms_iter
                              (fst (if d then DiGraphMatcher b (motif m)
                                    else GraphMatcher b (motif m)))
                              (snd (if d then DiGraphMatcher b (motif m)
                                    else GraphMatcher b (motif m)))) 0%Z))
                 = counted b m).
    { unfold counted. rewrite count_fold, (Hi _ _ Hm). now destruct d. }
    rewrite Hv.
    replace (done ++ counted b m :: rest) with ((done ++ [counted b m]) ++ rest)
      by (now rewrite <- app_assoc).
    replace (S (length done)) with (length (done ++ [counted b m]))
      by (rewrite length_app; simpl; lia).
    rewrite IH.
    + now rewrite <- app_assoc.
    + intros q r Hq. rewrite <- app_assoc in Hq. simpl in Hq.
      destruct (Nat.eq_dec q (length done)) as [-> | Hne].
      * rewrite nth_error_app2 in Hq by lia. rewrite Nat.sub_diag in Hq.
        injection Hq as <-. unfold counted. simpl. now apply (Hi _ _ Hm).
      * apply Hi. rewrite <- Hq.
        destruct (Nat.lt_ge_cases q (length done)) as [Hlt | Hge].
        -- now rewrite !nth_error_app1 by exact Hlt.
        -- rewrite !nth_error_app2 by lia.
           destruct (q - length done)%nat as [|j] eqn:Hj; [lia | reflexivity].
Qed.

(** [motif_counts] returns the catalogue for the class of the base with
    each count set: a record keeps its index and its motif, and its count is
    the number of subgraph isomorphisms that the matcher for that class
    enumerates between the base and the motif. The updates in place through
    the index of each record come to one pass over the list. *)
Theorem motif_counts_counts_isomorphisms (self : gmm) (tau : Z) :
  exists motifs,
    get_motifs tau (is_directed (get_base self false)) = OK motifs
    /\ motif_counts self tau
       = OK (map (fun m =>
                    (index m, motif m,
                     PyInt (Z.of_nat
                              (length (subgraph_isomorphisms_iter
                                         (get_base self false) (motif m))))))
                 motifs).
Proof.
  destruct (get_motifs_total tau (is_directed (get_base self false))) as [ms [Hm Hi]].
  exists ms. split; [exact Hm|]. unfold motif_counts. rewrite Hm. cbn [bind].
  exact (motif_counts_loop_map (get_base self false) _ ms [] Hi).
Qed.

Lemma sum_of_ints (l : list num) :
  Forall (fun x => exists z, x = PyInt z) l -> exists z, sum l = PyInt z.
Proof.
  unfold sum. generalize 0%Z.
  induction l as [|x l IH]; intros acc H; cbn [fold_left]; [now exists acc|].
  inversion H as [|? ? [z ->] Hl]; subst. cbn [add]. now apply IH.
Qed.

(** The counts of [motif_counts] are [int]s, and so is their total. *)
Lemma motif_counts_total_int (self : gmm) (tau : Z) (dist : list (record Graph)) :
  motif_counts self tau = OK dist -> exists z, sum (map value dist) = PyInt z.
Proof.
  intros H. apply sum_of_ints.
  destruct (get_motifs_total tau (is_directed (get_base self false))) as [ms [Hm Hi]].
  unfold motif_counts in H. rewrite Hm in H. cbn [bind] in H.
  change ms with ([] ++ ms) in H at 2.
  change (seq 0 (length ms)) with (seq (length (@nil (record Graph))) (length ms)) in H.
  rewrite (motif_counts_loop_map (get_base self false) _ ms [] Hi) in H.
  injection H as <-. cbn [app]. rewrite map_map.
  apply Forall_forall. intros x Hx. apply in_map_iff in Hx.
  destruct Hx as [m [<- _]]. now eexists.
Qed.

(** *** The ratio policy *)

Lemma count_ratios_zero_total {A : Type} (dist : list (record A)) :
  dist <> [] ->
  is_numpy (sum (map value dist)) = false ->
  is_zero (sum (map value dist)) = true ->
  count_ratios dist = Raise ZeroDivisionError.
Proof.
  intros Hne Hn Hz. destruct dist as [|r dist]; [now elim Hne|].
  unfold count_ratios. cbn [map_res].
  now rewrite (div_zero (PyFloat (to_float (value r))) _ Hn Hz).
Qed.

Lemma count_ratios_nonzero_total {A : Type} (dist : list (record A)) :
  is_zero (sum (map value dist)) = false ->
  exists mass, count_ratios dist = OK mass /\ length mass = length dist.
Proof.
  intros Hz. unfold count_ratios.
  match goal with |- exists _, map_res ?f _ = _ /\ _ =>
    destruct (map_res_total f dist) as [mass Hmass]
  end.
  - intros r _. destruct (div_nonzero (PyFloat (to_float (value r))) _ Hz) as [q ->].
    simpl. now eexists.
  - exists mass. split; [exact Hmass|]. now apply map_res_length in Hmass.
Qed.

Lemma apply_termination_env (self : gmm) (e : env) :
  snd (apply_termination self e) = e.
Proof.
  unfold apply_termination. now destruct (termination self).
Qed.

Lemma while_test_env (self : gmm) (e : env) :
  snd (while_test self e) = e.
Proof.
  unfold while_test, mbind. pose proof (apply_termination_env self e) as H.
  destruct (apply_termination self e) as [[a|x] e1]; simpl in H; subst e1; reflexivity.
Qed.

Lemma while_test_bool (self : gmm) (e : env) (b : bool) :
  apply_termination self e = (OK (Bool b), e) -> while_test self e = (OK b, e).
Proof.
  intros H. unfold while_test, mbind. now rewrite H.
Qed.

(** When the rule is false on the base the loop body is not entered. *)
Lemma simulate_loop_stops (pmf : Z -> float -> float) (uniform : nat -> float)
    (fuel : nat) (self : gmm) (tau : Z) (poisson : bool) (e : env) :
  apply_termination self e = (OK (Bool false), e) ->
  simulate_loop pmf uniform fuel self tau poisson e = (Finished, self, e).
Proof.
  intros H. apply while_test_bool in H. destruct fuel; simpl; now rewrite H.
Qed.

Lemma simulate_loop_enters (pmf : Z -> float -> float) (uniform : nat -> float)
    (fuel : nat) (self : gmm) (tau : Z) (poisson : bool) (e : env) :
  apply_termination self e = (OK (Bool true), e) ->
  simulate_loop pmf uniform (S fuel) self tau poisson e =
  match simulate_body pmf uniform self tau poisson e with
  | (Raise x, e') => (Failed x, self, e')
  | (OK self', e') => simulate_loop pmf uniform fuel self' tau poisson e'
  end.
Proof.
  intros H. apply while_test_bool in H. simpl. now rewrite H.
Qed.

(** C9. Counting the motifs of a model raises nothing, and with the ratio
    policy the weights are defined exactly when the total count is not
    zero: on a zero total the division raises [ZeroDivisionError],
    otherwise every record gets a weight. The error comes out of
    [simulate], from a pass of its loop, before anything is drawn or the
    growth rule is called. Setting a termination rule or a growth rule
    computes no weight: each returns or raises as the trial call of the
    rule it is given does, whatever the counts are. *)
Theorem ratio_policy_fails_on_zero_total
    (pmf : Z -> float -> float) (uniform : nat -> float) (fuel : nat)
    (self : gmm) (tau : Z) (new_name : string) (e : env) :
  (2 <= tau)%Z ->
  exists dist : list (record Graph),
    motif_counts self tau = OK dist
    /\ (count_ratios dist = Raise ZeroDivisionError
        <-> is_zero (sum (map value dist)) = true)
    /\ (is_zero (sum (map value dist)) = false ->
        exists mass, count_ratios dist = OK mass /\ length mass = length dist)
    /\ (is_zero (sum (map value dist)) = true ->
        apply_termination self e = (OK (Bool true), e) ->
        simulate pmf uniform (S fuel) self tau false new_name e
        = (Failed ZeroDivisionError, self, e))
    /\ (forall T : termination_rule,
          set_termination self T e
          = (res_map (fun _ => set_termination_field self (Some T)) (T (base self)), e))
    /\ (forall R : growth_rule,
          fst (set_rule self R e)
          = match R (base self) (test_graph self) with
            | OK _ => OK (set_rule_field self (Some R))
            | Raise TypeError => OK self
            | Raise x => Raise x
            end).
Proof.
  intros Htau.
  destruct (motif_counts_total self tau) as [dist Hdist].
  exists dist. split; [exact Hdist|].
  pose proof (motif_counts_nonempty self tau Htau dist Hdist) as Hne.
  assert (Hn : is_numpy (sum (map value dist)) = false).
  { destruct (motif_counts_total_int self tau dist Hdist) as [z ->]. reflexivity. }
  split; [|split; [|split; [|split]]].
  - split.
    + intros Hr. destruct (is_zero (sum (map value dist))) eqn:Hz; [reflexivity|].
      destruct (count_ratios_nonzero_total dist Hz) as [mass [Hm _]]. congruence.
    + now apply count_ratios_zero_total.
  - apply count_ratios_nonzero_total.
  - intros Hz Ht. unfold simulate.
    destruct (tau <? 2)%Z eqn:Hlt; [apply Z.ltb_lt in Hlt; lia|].
    rewrite (simulate_loop_enters pmf uniform fuel self tau false e Ht).
    unfold simulate_body, mbind, lift. rewrite Hdist.
    now rewrite (count_ratios_zero_total dist Hne Hn Hz).
  - intros T. unfold set_termination, except_TypeError, mbind, lift, ret, throw, res_map.
    destruct (T (base self)) as [b|x]; [reflexivity | now destruct x].
  - intros R. unfold set_rule, except_TypeError, mbind, call_rule, ret, print.
    destruct (R (base self) (test_graph self)) as [g|x]; [reflexivity | now destruct x].
Qed.

(** A model whose base has lost its edges (the rule [drop_edges] was
    applied) and whose termination rule is true: the motif of order 2 is
    counted 0 times. *)
Lemma ratio_policy_fails_on_zero_total_witness :
  let self := mkGmm test_triangle true (empty_graph 3) five_cycle
                (Some (fun _ => OK (Bool true))) (Some drop_edges) in
  motif_counts self 2 = OK [(0%Z, complete_graph 2, PyInt 0)]
  /\ count_ratios [(0%Z, complete_graph 2, PyInt 0)] = Raise ZeroDivisionError
  /\ simulate zero_pmf (fun _ => 0.5%float) 1 self 2 false "GMM Simulation" env0
     = (Failed ZeroDivisionError, self, env0)
  /\ fst (set_termination self (node_ceiling 5) env0)
     = OK (set_termination_field self (Some (node_ceiling 5)))
  /\ fst (set_rule self compose_rule env0) = OK (set_rule_field self (Some compose_rule)).
Proof.
  intros self.
  assert (Hc : motif_counts self 2 = OK [(0%Z, complete_graph 2, PyInt 0)])
    by (vm_compute; reflexivity).
  destruct (ratio_policy_fails_on_zero_total zero_pmf (fun _ => 0.5%float) 0 self 2
              "GMM Simulation" env0 ltac:(lia))
    as [dist [Hdist [Hiff [_ [Hrun [Hterm Hrule]]]]]].
  rewrite Hc in Hdist. injection Hdist as <-.
  split; [exact Hc|].
  split; [apply Hiff; reflexivity|].
  split; [apply Hrun; reflexivity|].
  split; [rewrite Hterm; reflexivity | rewrite Hrule; reflexivity].
Defined.


(** *** [set_base] *)

(** C10. For a graph with fewer than two edges [set_base] returns
    normally: it raises nothing, prints nothing and leaves the object, its
    base graph included, as it was; a base with at least two edges keeps
    them. *)
Theorem set_base_few_edges_is_silent (self : gmm) (g : Graph) (e : env) :
  (number_of_edges g < 2)%Z ->
  set_base self (VGraph g) e = (OK self, e)
  /\ (forall self', fst (set_base self (VGraph g) e) = OK self' ->
        get_base self' false = get_base self false
        /\ ((2 <= number_of_edges (base self))%Z ->
            (2 <= number_of_edges (base self'))%Z)).
Proof.
  intros H.
  assert (Hs : set_base self (VGraph g) e = (OK self, e)).
  { unfold set_base. destruct (1 <? number_of_edges g)%Z eqn:Hlt.
    - apply Z.ltb_lt in Hlt. lia.
    - reflexivity. }
  split; [exact Hs|].
  intros self' H'. rewrite Hs in H'. simpl in H'. injection H' as <-.
  split; [reflexivity | trivial].
Qed.

(** The model of the tests and a graph with the single edge (0, 1). *)
Lemma set_base_few_edges_is_silent_witness :
  let self := mkGmm test_triangle true five_cycle five_cycle
                (Some (node_ceiling 100)) (Some compose_rule) in
  (number_of_edges (Graph_of [(0, 1)%Z]) < 2)%Z
  /\ set_base self (VGraph (Graph_of [(0, 1)%Z])) env0 = (OK self, env0).
Proof.
  intros self.
  assert (H : (number_of_edges (Graph_of [(0, 1)%Z]) < 2)%Z) by (vm_compute; reflexivity).
  split; [exact H|].
  exact (proj1 (set_base_few_edges_is_silent self (Graph_of [(0, 1)%Z]) env0 H)).
Defined.

(** With two edges or more the base is replaced, which is what the branch
    above does not do. *)
Lemma set_base_two_edges (self : gmm) (g : Graph) (e : env) :
  (2 <= number_of_edges g)%Z ->
  set_base self (VGraph g) e
  = (OK (set_base_field self (convert_node_labels_to_integers g 0)), e).
Proof.
  intros H. unfold set_base.
  destruct (1 <? number_of_edges g)%Z eqn:Hlt; [reflexivity|].
  apply Z.ltb_ge in Hlt. lia.
Qed.

(** *** The Poisson policy *)

Lemma combine_seq_nth {A B : Type} (h : nat -> B) (l : list A) :
  forall s i r,
    nth_error l i = Some r ->
    nth_error (combine l (map h (seq s (length l)))) i = Some (r, h (s + i)%nat).
Proof.
  induction l as [|a l IH]; intros s i r H.
  - destruct i; discriminate.
  - destruct i as [|i]; simpl in *.
    + injection H as <-. now rewrite Nat.add_0_r.
    + rewrite (IH (S s) i r H). now rewrite Nat.add_succ_r.
Qed.

Lemma poisson_mass_length {A : Type} (pmf : Z -> float -> float)
    (records : list (record A)) :
  length (poisson_mass pmf records) = length records.
Proof.
  unfold poisson_mass, xrange.
  rewrite length_map, length_combine, !length_map, length_seq, Z.sub_0_r, Nat2Z.id.
  apply Nat.min_id.
Qed.

(** The Poisson policy gives the record at position [i] the mass of rank
    [i] for the mean of the counts, whatever the counts are. *)
Lemma poisson_mass_nth {A : Type} (pmf : Z -> float -> float)
    (records : list (record A)) (i : nat) (r : record A) :
  nth_error records i = Some r ->
  nth_error (poisson_mass pmf records) i
  = Some (index r, motif r, NpFloat (pmf (Z.of_nat i) (mean (map value records)))).
Proof.
  intros H. unfold poisson_mass, xrange.
  rewrite Z.sub_0_r, Nat2Z.id, length_map, !map_map, nth_error_map.
  now rewrite (combine_seq_nth _ records 0 i r H).
Qed.

(** For counts as [motif_counts] leaves them, non-negative [int]s with a
    total below [2^53], the Poisson policy ranks a record by its position:
    the record at position [i] keeps its index and motif and gets the mass
    of rank [i] for the mean of all counts, whatever its own count is. *)
Theorem poisson_mass_rank_is_position {A : Type} (pmf : Z -> float -> float)
    (records : list (record A)) (i : nat) (r : record A) :
  exact_counts records ->
  nth_error records i = Some r ->
  length (poisson_mass pmf records) = length records
  /\ nth_error (poisson_mass pmf records) i
     = Some (index r, motif r, NpFloat (pmf (Z.of_nat i) (mean (map value records)))).
Proof.
  intros _ H. split; [apply poisson_mass_length | now apply poisson_mass_nth].
Qed.

(** The counts 10, 10, 0 of the undirected 5-cycle, whose mean is
    [20 / 3], and a mass function that tells rank and mean apart. *)
Lemma poisson_mass_rank_is_position_witness :
  let pmf := fun (k : Z) (mu : float) => PrimFloat.add (float_of_Z k) mu in
  let records := [(0%Z, tt, PyInt 10); (1%Z, tt, PyInt 10); (2%Z, tt, PyInt 0)] in
  exact_counts records
  /\ nth_error (poisson_mass pmf records) 2
     = Some (2%Z, tt, NpFloat (pmf 2%Z (mean (map value records)))).
Proof.
  intros pmf records.
  assert (H : exact_counts records).
  { exists [10; 10; 0]%Z. split; [reflexivity|]. split.
    - repeat (constructor; try discriminate).
    - reflexivity. }
  split; [exact H|].
  exact (proj2 (@poisson_mass_rank_is_position unit pmf records 2%nat
                  (2%Z, tt, PyInt 0) H eq_refl)).
Defined.

Lemma mean_zero_counts {A : Type} (records : list (record A)) :
  Forall (fun r => value r = PyInt 0) records ->
  mean (map value records)
  = PrimFloat.div 0 (float_of_Z (Z.of_nat (length records))).
Proof.
  intros H. unfold mean. rewrite length_map. f_equal.
  destruct H as [|r records Hr H]; [reflexivity|].
  cbn [map]. rewrite Hr. change (to_float (PyInt 0)) with 0%float.
  induction H as [|r' records Hr' _ IH]; [reflexivity|].
  cbn [map fold_left]. rewrite Hr'. exact IH.
Qed.

(** C4 (as amended). When every count is zero the Poisson policy does what
    it does for any counts: the record at position [i] gets the Poisson mass
    of rank [i] for [lambda], the mean of the counts, here [0.0 / n]. *)
Theorem poisson_mass_zero_counts {A : Type} (pmf : Z -> float -> float)
    (records : list (record A)) :
  Forall (fun r => value r = PyInt 0) records ->
  length (poisson_mass pmf records) = length records
  /\ forall i r,
       nth_error records i = Some r ->
       nth_error (poisson_mass pmf records) i
       = Some (index r, motif r,
               NpFloat (pmf (Z.of_nat i)
                          (PrimFloat.div 0 (float_of_Z (Z.of_nat (length records)))))).
Proof.
  intros Hz. split; [apply poisson_mass_length|].
  intros i r H. rewrite (poisson_mass_nth pmf records i r H).
  now rewrite (mean_zero_counts records Hz).
Qed.

(** Three records with count zero and a mass function that tells the rank
    and the mean apart: the weights are the masses of ranks 0, 1, 2 at
    mean 0.0. *)
Lemma poisson_mass_zero_counts_witness :
  let pmf := fun (k : Z) (mu : float) => PrimFloat.add (float_of_Z k) mu in
  let records := [(0%Z, tt, PyInt 0); (1%Z, tt, PyInt 0); (2%Z, tt, PyInt 0)] in
  map (@value unit) (poisson_mass pmf records) = [NpFloat 0; NpFloat 1; NpFloat 2]
  /\ nth_error (poisson_mass pmf records) 1
     = Some (1%Z, tt, NpFloat (pmf 1%Z (PrimFloat.div 0 (float_of_Z 3)))).
Proof.
  intros pmf records. split; [vm_compute; reflexivity|].
  apply (proj2 (@poisson_mass_zero_counts unit pmf records
                  ltac:(repeat constructor)) 1%nat (1%Z, tt, PyInt 0)).
  reflexivity.
Defined.

(** C4 (as stated) fails for every mass function: one record with count
    zero would need the mass 1 at rank 0 and mean 0.0, two such records the
    mass 0.5 at the same rank and mean. *)
Lemma poisson_mass_zero_counts_not_uniform :
  ~ exists pmf : Z -> float -> float,
      forall records : list (record unit),
        Forall (fun r => value r = PyInt 0) records ->
        map (fun r => to_float (value r)) (poisson_mass pmf records)
        = repeat (PrimFloat.div 1 (float_of_Z (Z.of_nat (length records))))
                 (length records).
Proof.
  intros [pmf H].
  pose proof (H [(0%Z, tt, PyInt 0)] ltac:(repeat constructor)) as H1.
  pose proof (H [(0%Z, tt, PyInt 0); (1%Z, tt, PyInt 0)] ltac:(repeat constructor)) as H2.
  vm_compute in H1. vm_compute in H2.
  injection H1 as H1. injection H2 as H2 _.
  rewrite H1 in H2.
  apply (f_equal (fun x => PrimFloat.ltb x 0.75)) in H2.
  vm_compute in H2. discriminate.
Qed.

(** C8, at the failing input. The base is the complete graph on 28 nodes
    and [tau = 2]: the catalogue has the dyad only, counted 756 times, so
    the mean count is 756.0 and the Poisson policy gives the dyad the mass
    of rank 0 at mean 756.0, whatever mass function it is handed. SciPy's
    value there is [exp(-756)], which is below the smallest positive
    binary64 number and comes out as 0.0: the only record, with a count
    that is not zero, gets a weight that is not positive. *)
Theorem poisson_mass_weight_not_positive (pmf : Z -> float -> float) :
  match gmm_init (VGraph (complete_graph 28)) None None env0 with
  | (OK model, _) =>
      motif_counts model 2 = OK [(0%Z, complete_graph 2, PyInt 756)]
      /\ mean [PyInt 756] = 756%float
      /\ poisson_mass pmf [(0%Z, complete_graph 2, PyInt 756)]
         = [(0%Z, complete_graph 2, NpFloat (pmf 0%Z 756%float))]
      /\ (pmf 0%Z 756%float = 0%float ->
          Forall (fun r => PrimFloat.ltb 0 (to_float (value r)) = false)
            (poisson_mass pmf [(0%Z, complete_graph 2, PyInt 756)]))
  | _ => False
  end.
Proof.
  assert (Hinit : exists model e,
            gmm_init (VGraph (complete_graph 28)) None None env0 = (OK model, e)
            /\ motif_counts model 2 = OK [(0%Z, complete_graph 2, PyInt 756)]).
  { eexists. eexists. split; [vm_compute; reflexivity | vm_compute; reflexivity]. }
  destruct Hinit as [model [e [-> Hc]]].
  split; [exact Hc|]. split; [vm_compute; reflexivity|].
  assert (Hm : poisson_mass pmf [(0%Z, complete_graph 2, PyInt 756)]
               = [(0%Z, complete_graph 2, NpFloat (pmf 0%Z 756%float))]).
  { unfold poisson_mass. cbn [map length xrange combine].
    replace (mean [PyInt 756]) with 756%float by (vm_compute; reflexivity).
    reflexivity. }
  split; [exact Hm|].
  intros H0. rewrite Hm. constructor; [|constructor].
  cbn [value snd to_float]. rewrite H0. reflexivity.
Qed.

(** A mass function that is 0.0 at rank 0 and mean 756.0, as SciPy's is:
    the dyad of the complete graph on 28 nodes gets the weight 0.0. *)
Lemma poisson_mass_weight_not_positive_witness :
  let pmf := fun (k : Z) (mu : float) =>
               if PrimFloat.ltb 745 mu then 0%float else 1%float in
  pmf 0%Z 756%float = 0%float
  /\ Forall (fun r => PrimFloat.ltb 0 (to_float (value r)) = false)
       (poisson_mass pmf [(0%Z, complete_graph 2, PyInt 756)]).
Proof.
  intros pmf. split; [reflexivity|].
  generalize (poisson_mass_weight_not_positive pmf).
  destruct (gmm_init (VGraph (complete_graph 28)) None None env0) as [[model|x] e];
    [|intros []].
  intros [_ [_ [_ H]]]. exact (H eq_refl).
Defined.

(** *** The degenerate distribution *)

Lemma add_zero_zero : add (PyFloat 0) (PyFloat 0) = PyFloat 0.
Proof. reflexivity. Qed.

Lemma add_zero_one : add (PyFloat 0) (PyFloat 1) = PyFloat 1.
Proof. reflexivity. Qed.

Lemma add_one_zero : add (PyFloat 1) (PyFloat 0) = PyFloat 1.
Proof. reflexivity. Qed.

Lemma add_int_zero_one : add (PyInt 0) (PyFloat 1) = PyFloat 1.
Proof. reflexivity. Qed.

Lemma add_int_zero_zero : add (PyInt 0) (PyFloat 0) = PyFloat 0.
Proof. reflexivity. Qed.

Lemma div_zero_one : div (PyFloat 0) (PyFloat 1) = OK (PyFloat 0).
Proof. reflexivity. Qed.

Lemma div_one_one : div (PyFloat 1) (PyFloat 1) = OK (PyFloat 1).
Proof. reflexivity. Qed.

Lemma fold_add_zeros_from_zero {A : Type} (zs : list (record A)) :
  zero_weights zs ->
  forall acc, acc = PyInt 0 \/ acc = PyFloat 0 ->
    fold_left add (map value zs) acc = PyInt 0
    \/ fold_left add (map value zs) acc = PyFloat 0.
Proof.
  induction 1 as [|r zs Hr _ IH]; intros acc Hacc; cbn [map fold_left]; [exact Hacc|].
  apply IH. right. rewrite Hr.
  destruct Hacc as [-> | ->]; [apply add_int_zero_zero | apply add_zero_zero].
Qed.

Lemma fold_add_zeros_from_one {A : Type} (zs : list (record A)) :
  zero_weights zs -> fold_left add (map value zs) (PyFloat 1) = PyFloat 1.
Proof.
  induction 1 as [|r zs Hr _ IH]; cbn [map fold_left]; [reflexivity|].
  now rewrite Hr, add_one_zero.
Qed.

Lemma degenerate_sum {A : Type} (zs1 zs2 : list (record A)) (one : record A) :
  zero_weights zs1 -> zero_weights zs2 -> value one = PyFloat 1 ->
  sum (map value (zs1 ++ one :: zs2)) = PyFloat 1.
Proof.
  intros H1 H2 Hone. unfold sum.
  rewrite map_app, fold_left_app. cbn [map fold_left]. rewrite Hone.
  destruct (fold_add_zeros_from_zero zs1 H1 (PyInt 0) (or_introl eq_refl)) as [-> | ->].
  - rewrite add_int_zero_one. now apply fold_add_zeros_from_one.
  - rewrite add_zero_one. now apply fold_add_zeros_from_one.
Qed.

Lemma map_res_app {A B : Type} (f : A -> res B) (l1 l2 : list A) (r1 r2 : list B) :
  map_res f l1 = OK r1 -> map_res f l2 = OK r2 -> map_res f (l1 ++ l2) = OK (r1 ++ r2).
Proof.
  revert r1. induction l1 as [|a l1 IH]; intros r1 H1 H2; simpl in *.
  - now injection H1 as <-.
  - destruct (f a) as [b|]; [|discriminate]. simpl in *.
    destruct (map_res f l1) as [bs|]; [|discriminate]. simpl in *.
    injection H1 as <-. now rewrite (IH bs eq_refl H2).
Qed.

Lemma zeros_over_one {A : Type} (zs : list (record A)) :
  zero_weights zs ->
  map_res (fun r => div (value r) (PyFloat 1)) zs = OK (map value zs).
Proof.
  induction 1 as [|r zs Hr _ IH]; cbn [map map_res]; [reflexivity|].
  now rewrite IH, Hr, div_zero_one.
Qed.

Lemma degenerate_probabilities {A : Type} (zs1 zs2 : list (record A)) (one : record A) :
  zero_weights zs1 -> zero_weights zs2 -> value one = PyFloat 1 ->
  probabilities (zs1 ++ one :: zs2) = OK (map value (zs1 ++ one :: zs2)).
Proof.
  intros H1 H2 Hone. unfold probabilities.
  rewrite (degenerate_sum zs1 zs2 one H1 H2 Hone), map_app.
  apply map_res_app; [now apply zeros_over_one|].
  cbn [map map_res]. rewrite (zeros_over_one zs2 H2), Hone, div_one_one. reflexivity.
Qed.

Lemma walk_over_zeros {A : Type} (draw : float) (zs : list (record A)) (rest : list num) :
  PrimFloat.ltb 0 draw = true ->
  PrimFloat.ltb 1 draw = false ->
  zero_weights zs ->
  forall i,
    walk draw (map value zs ++ PyFloat 1 :: rest) i (PyFloat 0)
    = OK (S (i + length zs)).
Proof.
  intros Hpos Hone. induction 1 as [|r zs Hr _ IH]; intros i.
  - cbn [map app walk length]. cbn [gt]. rewrite Hpos.
    rewrite add_zero_one. destruct rest; cbn [walk gt];
      rewrite Hone; now rewrite Nat.add_0_r.
  - cbn [map app walk length]. cbn [gt]. rewrite Hpos.
    rewrite Hr, add_zero_zero, IH. f_equal. lia.
Qed.

(** For a sequence in which one record has weight 1.0 and every other
    record weight 0.0, [draw_structure] returns the item of that record for
    every draw above 0.0 and not above 1.0, wherever the record stands. *)
Theorem draw_structure_degenerate_positive_draw {A : Type}
    (zs1 zs2 : list (record A)) (one : record A) (draw : float) :
  zero_weights zs1 -> zero_weights zs2 -> value one = PyFloat 1 ->
  PrimFloat.ltb 0 draw = true ->
  PrimFloat.ltb 1 draw = false ->
  draw_structure (zs1 ++ one :: zs2) draw = OK (motif one).
Proof.
  intros H1 H2 Hone Hpos Hle. unfold draw_structure.
  rewrite (degenerate_probabilities zs1 zs2 one H1 H2 Hone). cbn [bind].
  destruct H1 as [|z zs1 Hz H1].
  - cbn [app map getitem nth_error tl bind]. rewrite Hone.
    destruct (map value zs2); cbn [walk gt]; rewrite Hle;
      reflexivity.
  - cbn [app map getitem nth_error tl bind]. rewrite Hz, map_app. cbn [map].
    rewrite Hone, (walk_over_zeros draw zs1 (map value zs2) Hpos Hle H1 0).
    cbn [bind Nat.add]. unfold getitem.
    change (nth_error (z :: zs1 ++ one :: zs2) (S (length zs1)))
      with (nth_error (zs1 ++ one :: zs2) (length zs1)).
    rewrite nth_error_app2, Nat.sub_diag by lia. reflexivity.
Qed.

Lemma draw_structure_degenerate_positive_draw_witness :
  draw_structure test_motifs largest_draw = OK true
  /\ draw_structure test_motifs 0x1p-1074 = OK true.
Proof.
  split.
  - apply (@draw_structure_degenerate_positive_draw bool
             [(0%Z, false, PyFloat 0)] [(2%Z, false, PyFloat 0)] (1%Z, true, PyFloat 1)
             largest_draw); try reflexivity; repeat constructor.
  - apply (@draw_structure_degenerate_positive_draw bool
             [(0%Z, false, PyFloat 0)] [(2%Z, false, PyFloat 0)] (1%Z, true, PyFloat 1)
             0x1p-1074%float); try reflexivity; repeat constructor.
Defined.

(** *** The loop of [simulate] and the growth rule *)

(** [apply_rule] calls the growth rule with the base and with [new] as it
    was passed, of whatever class, and logs nothing else. *)
Theorem apply_rule_calls_rule_with_new (self : gmm) (new : Graph)
    (set_result : bool) (e : env) (r : growth_rule) :
  rule self = Some r ->
  apply_rule self new set_result e
  = (res_map (fun result =>
                (result, if set_result then set_base_field self result else self))
       (r (base self) new),
     mkEnv (stdout e) (rule_calls e ++ [(base self, new)]) (draws_taken e)).
Proof.
  intros Hr. unfold apply_rule, mbind, call_rule, ret, res_map. rewrite Hr.
  destruct (r (base self) new); [now destruct set_result | reflexivity].
Qed.

Lemma apply_rule_calls_rule_with_new_witness :
  apply_rule (mkGmm test_triangle true five_cycle five_cycle None (Some compose_rule))
    directed_triangle false env0
  = (res_map (fun result =>
                (result,
                 mkGmm test_triangle true five_cycle five_cycle None (Some compose_rule)))
       (compose_rule five_cycle directed_triangle),
     mkEnv [] [(five_cycle, directed_triangle)] 0).
Proof.
  apply (apply_rule_calls_rule_with_new
           (mkGmm test_triangle true five_cycle five_cycle None (Some compose_rule))
           directed_triangle false env0 compose_rule).
  reflexivity.
Defined.

Lemma simulate_body_cases pmf uniform self tau poisson e :
  simulate_body pmf uniform self tau poisson e = pass_result pmf uniform self tau poisson e.
Proof.
  unfold simulate_body, pass_result, draw_structure_call, mbind, lift, ret, random_uniform.
  destruct (motif_counts self tau) as [dist|]; [|reflexivity].
  destruct poisson; [|destruct (count_ratios dist) as [mass|]; [|reflexivity]];
    (destruct (probabilities _); [|reflexivity]);
    (destruct (draw_structure _ _) as [new|]; [|reflexivity]);
    unfold apply_rule, mbind, call_rule, throw, ret; cbn [stdout rule_calls draws_taken];
    (destruct (rule self) as [r|]; [|reflexivity]);
    destruct (r (base self) new); reflexivity.
Qed.

Lemma simulate_body_calls_rule (pmf : Z -> float -> float) (uniform : nat -> float)
    (self self' : gmm) (tau : Z) (poisson : bool) (e e' : env) :
  simulate_body pmf uniform self tau poisson e = (OK self', e') ->
  length (rule_calls e') = S (length (rule_calls e)).
Proof.
  rewrite simulate_body_cases. unfold pass_result.
  destruct (motif_counts self tau) as [dist|]; [|discriminate].
  destruct (if poisson then _ else _) as [mass|]; [|discriminate].
  destruct (probabilities mass); [|discriminate].
  destruct (draw_structure _ _) as [new|]; [|discriminate].
  destruct (rule self) as [r|]; [|discriminate].
  destruct (r (base self) new); [|discriminate].
  intros H. injection H as _ <-. cbn. rewrite length_app. simpl. lia.
Qed.

Lemma simulate_loop_log_grows (pmf : Z -> float -> float) (uniform : nat -> float)
    (tau : Z) (poisson : bool) (fuel : nat) :
  forall (self self' : gmm) (e e' : env),
    simulate_loop pmf uniform fuel self tau poisson e = (Finished, self', e') ->
    (length (rule_calls e) <= length (rule_calls e'))%nat.
Proof.
  induction fuel as [|fuel IH]; intros self self' e e' H; simpl in H;
    pose proof (while_test_env self e) as Henv;
    destruct (while_test self e) as [[[|]|x] e1]; simpl in Henv; subst e1;
    try discriminate; try (injection H as _ <-; lia).
  destruct (simulate_body pmf uniform self tau poisson e) as [[self1|x] e1] eqn:Hb;
    [|discriminate].
  apply simulate_body_calls_rule in Hb. apply IH in H. lia.
Qed.

(** When the termination rule is true on the base, a run of [simulate] that
    returns has called the growth rule at least once. *)
Theorem simulate_calls_rule_when_true (pmf : Z -> float -> float)
    (uniform : nat -> float) (fuel : nat) (self self' : gmm) (tau : Z)
    (poisson : bool) (new_name : string) (e e' : env) :
  apply_termination self e = (OK (Bool true), e) ->
  simulate pmf uniform fuel self tau poisson new_name e = (Finished, self', e') ->
  (length (rule_calls e) < length (rule_calls e'))%nat.
Proof.
  intros Ht H. unfold simulate in H.
  destruct (tau <? 2)%Z; [discriminate|].
  destruct fuel as [|fuel].
  - simpl in H. rewrite (while_test_bool self e true Ht) in H. discriminate.
  - rewrite (simulate_loop_enters pmf uniform fuel self tau poisson e Ht) in H.
    destruct (simulate_body pmf uniform self tau poisson e) as [[self1|x] e1] eqn:Hb;
      [|discriminate].
    apply simulate_body_calls_rule in Hb.
    destruct (simulate_loop pmf uniform fuel self1 tau poisson e1)
      as [[[| |] self2] e2] eqn:Hl; try discriminate.
    injection H as _ <-. apply simulate_loop_log_grows in Hl. lia.
Qed.

(** The 5-cycle with the rule "fewer than 6 nodes", true on the base and
    false after one growth step: the run returns after one call of the
    growth rule, with a base of 8 nodes. *)
Lemma simulate_calls_rule_when_true_witness :
  let self := mkGmm test_triangle true five_cycle five_cycle
                (Some (below_ceiling 6)) (Some compose_rule) in
  exists self' e',
    simulate zero_pmf (fun _ => 0.75%float) 2 self 3 false "GMM Simulation" env0
    = (Finished, self', e')
    /\ number_of_nodes (base self') = 8%Z
    /\ (length (rule_calls env0) < length (rule_calls e'))%nat.
Proof.
  intros self. eexists. eexists.
  assert (H : forall r, r = simulate zero_pmf (fun _ => 0.75%float) 2 self 3 false
                         "GMM Simulation" env0 ->
              fst (fst r) = Finished -> r = (Finished, snd (fst r), snd r)).
  { intros [[o s] en] _ Ho. simpl in Ho. now subst o. }
  specialize (H _ eq_refl ltac:(vm_compute; reflexivity)).
  split; [symmetry; exact H|].
  split; [vm_compute; reflexivity|].
  apply (simulate_calls_rule_when_true zero_pmf (fun _ => 0.75%float) 2 self _ 3 false
           "GMM Simulation" env0 _ ltac:(reflexivity) (eq_sym H)).
Defined.

(** When the termination rule is false on the base, [simulate] returns
    without a pass through its loop: nothing is drawn, the growth rule is
    not called, and the base only takes its new name. *)
Theorem simulate_returns_when_false (pmf : Z -> float -> float)
    (uniform : nat -> float) (fuel : nat) (self : gmm) (tau : Z)
    (poisson : bool) (new_name : string) (e : env) :
  (2 <= tau)%Z ->
  apply_termination self e = (OK (Bool false), e) ->
  simulate pmf uniform fuel self tau poisson new_name e
  = (Finished, set_base_field self (set_name (base self) new_name), e).
Proof.
  intros Htau Ht. unfold simulate.
  destruct (tau <? 2)%Z eqn:Hlt; [apply Z.ltb_lt in Hlt; lia|].
  now rewrite (simulate_loop_stops pmf uniform fuel self tau poisson e Ht).
Qed.

(** The example of the class documentation: the 5-cycle with a node
    ceiling of 100. *)
Lemma simulate_returns_when_false_witness :
  let self := mkGmm test_triangle true five_cycle five_cycle
                (Some (node_ceiling 100)) (Some compose_rule) in
  simulate zero_pmf (fun _ => 0.75%float) 0 self 4 true "GMM Simulation" env0
  = (Finished, set_base_field self (set_name five_cycle "GMM Simulation"), env0).
Proof.
  intros self.
  apply (simulate_returns_when_false zero_pmf (fun _ => 0.75%float) 0 self 4 true
           "GMM Simulation" env0).
  - lia.
  - reflexivity.
Defined.

(** *** [revert_base] *)

(** Neither [apply_rule] nor [set_base] touches the copy of the first base,
    and [revert_base] puts it back. *)
Theorem revert_base_restores_original (self : gmm) (new : Graph)
    (set_result : bool) (G : pyval) (e : env) :
  base (revert_base self) = original self
  /\ (forall r self' e', apply_rule self new set_result e = (OK (r, self'), e') ->
        original self' = original self)
  /\ (forall self' e', set_base self G e = (OK self', e') ->
        original self' = original self).
Proof.
  split; [reflexivity|]. split.
  - intros r self' e'. unfold apply_rule, mbind, call_rule, throw, ret.
    destruct (rule self) as [f|]; [|discriminate].
    destruct (f (base self) new); [|discriminate].
    destruct set_result; intros H; injection H as _ <- _; reflexivity.
  - intros self' e'. unfold set_base, mbind, print, ret.
    destruct G as [g|].
    + destruct (1 <? number_of_edges g)%Z; intros H; injection H as <- _; reflexivity.
    + intros H. injection H as <- _. reflexivity.
Qed.

(** *** The passes of the loop of [simulate] *)

Section LoopInvariants.

Variable pmf : Z -> float -> float.
Variable uniform : nat -> float.
Variable tau : Z.
Variable poisson : bool.

(** A relation between the state before and after that every pass keeps,
    whatever comes of the pass, holds over the whole loop. *)
Lemma simulate_loop_relates (R : gmm * env -> gmm * env -> Prop) :
  (forall s, R s s) ->
  (forall s1 s2 s3, R s1 s2 -> R s2 s3 -> R s1 s3) ->
  (forall self e r e',
      simulate_body pmf uniform self tau poisson e = (r, e') ->
      R (self, e) (match r with OK self' => self' | Raise _ => self end, e')) ->
  forall fuel self e o self' e',
    simulate_loop pmf uniform fuel self tau poisson e = (o, self', e') ->
    R (self, e) (self', e').
Proof.
  intros Hrefl Htrans Hstep.
  induction fuel as [|fuel IH]; intros self e o self' e' H; simpl in H;
    pose proof (while_test_env self e) as Henv;
    destruct (while_test self e) as [[[|]|x] e1]; simpl in Henv; subst e1;
    try (injection H as _ <- <-; apply Hrefl).
  destruct (simulate_body pmf uniform self tau poisson e) as [[self1|x] e1] eqn:Hb.
  - apply Hstep in Hb. apply IH in H. exact (Htrans _ _ _ Hb H).
  - apply Hstep in Hb. injection H as _ <- <-. exact Hb.
Qed.

(** For a run of the loop that returns, a relation that every completed
    pass keeps is enough, and the termination rule is false at the end. *)
Lemma simulate_loop_finished (R : gmm * env -> gmm * env -> Prop) :
  (forall s, R s s) ->
  (forall s1 s2 s3, R s1 s2 -> R s2 s3 -> R s1 s3) ->
  (forall self e self' e',
      simulate_body pmf uniform self tau poisson e = (OK self', e') ->
      R (self, e) (self', e')) ->
  forall fuel self e self' e',
    simulate_loop pmf uniform fuel self tau poisson e = (Finished, self', e') ->
    R (self, e) (self', e') /\ while_test self' e' = (OK false, e').
Proof.
  intros Hrefl Htrans Hstep.
  induction fuel as [|fuel IH]; intros self e self' e' H; simpl in H;
    pose proof (while_test_env self e) as Henv;
    destruct (while_test self e) as [[[|]|x] e1] eqn:Ht; simpl in Henv; subst e1;
    try discriminate;
    try (injection H as <- <-; split; [apply Hrefl | exact Ht]).
  destruct (simulate_body pmf uniform self tau poisson e) as [[self1|x] e1] eqn:Hb;
    [|discriminate].
  apply Hstep in Hb. apply IH in H. destruct H as [H1 H2].
  split; [exact (Htrans _ _ _ Hb H1) | exact H2].
Qed.

End LoopInvariants.

(** *** What [simulate] leaves alone *)

Lemma pass_same_configuration pmf uniform self tau poisson e r e' :
  simulate_body pmf uniform self tau poisson e = (r, e') ->
  same_configuration (self, e) (match r with OK self' => self' | Raise _ => self end, e').
Proof.
  rewrite simulate_body_cases. unfold pass_result, same_configuration.
  destruct (motif_counts self tau) as [dist|];
    [|intros H; injection H as <- <-; repeat split].
  destruct (if poisson then _ else _) as [mass|];
    [|intros H; injection H as <- <-; repeat split].
  destruct (probabilities mass);
    [|intros H; injection H as <- <-; repeat split].
  destruct (draw_structure _ _) as [new|];
    [|intros H; injection H as <- <-; repeat split].
  destruct (rule self) as [f|];
    [|intros H; injection H as <- <-; repeat split].
  destruct (f (base self) new); intros H; injection H as <- <-; repeat split.
Qed.

Lemma same_configuration_refl s : same_configuration s s.
Proof. repeat split. Qed.

Lemma same_configuration_trans s1 s2 s3 :
  same_configuration s1 s2 -> same_configuration s2 s3 -> same_configuration s1 s3.
Proof.
  unfold same_configuration. intros [A1 [A2 [A3 [A4 [A5 A6]]]]] [B1 [B2 [B3 [B4 [B5 B6]]]]].
  repeat split; congruence.
Qed.

(** Whatever comes of a run of [simulate] (it returns, it raises, or the
    loop is still going), the object differs from the one passed at most in
    its base: the first base, both rules and the test graph are the same, and
    nothing is printed. With [tau < 2] the run raises a [ValueError] before
    anything is looked at. *)
Theorem simulate_changes_only_base (pmf : Z -> float -> float) (uniform : nat -> float)
    (fuel : nat) (self : gmm) (tau : Z) (poisson : bool) (new_name : string) (e : env) :
  let '(o, self', e') := simulate pmf uniform fuel self tau poisson new_name e in
  original self' = original self
  /\ termination self' = termination self
  /\ rule self' = rule self
  /\ test_graph self' = test_graph self
  /\ am_gmm self' = am_gmm self
  /\ stdout e' = stdout e
  /\ ((tau < 2)%Z -> o = Failed ValueError /\ self' = self /\ e' = e).
Proof.
  unfold simulate. destruct (tau <? 2)%Z eqn:Hlt.
  - repeat split; auto.
  - destruct (simulate_loop pmf uniform fuel self tau poisson e) as [[o self'] e'] eqn:Hl.
    pose proof (simulate_loop_relates pmf uniform tau poisson same_configuration
                  same_configuration_refl same_configuration_trans
                  (fun s x r x' => pass_same_configuration pmf uniform s tau poisson x r x')
                  fuel self e o self' e' Hl) as H.
    destruct H as [H1 [H2 [H3 [H4 [H5 H6]]]]]. simpl in *.
    assert (Hge : ~ (tau < 2)%Z) by (apply Z.ltb_ge in Hlt; lia).
    destruct o; simpl; repeat split; auto; contradiction.
Qed.

(** A run of [simulate] that returns had [tau >= 2] and a termination
    rule, and what that rule returns on the graph the run ends with tests
    false; the base is that graph under the new name. *)
Theorem simulate_returns_with_rule_false (pmf : Z -> float -> float)
    (uniform : nat -> float) (fuel : nat) (self self' : gmm) (tau : Z)
    (poisson : bool) (new_name : string) (e e' : env) :
  simulate pmf uniform fuel self tau poisson new_name e = (Finished, self', e') ->
  (2 <= tau)%Z
  /\ exists (T : termination_rule) (b : Graph) (a : answer),
       termination self = Some T
       /\ T b = OK a
       /\ truth a = OK false
       /\ base self' = set_name b new_name.
Proof.
  unfold simulate. destruct (tau <? 2)%Z eqn:Hlt; [discriminate|].
  apply Z.ltb_ge in Hlt.
  destruct (simulate_loop pmf uniform fuel self tau poisson e) as [[o s1] e1] eqn:Hl.
  destruct o; try discriminate. intros H. injection H as <- <-.
  split; [exact Hlt|].
  destruct (simulate_loop_finished pmf uniform tau poisson same_configuration
              same_configuration_refl same_configuration_trans
              (fun s x s' x' Hb => pass_same_configuration pmf uniform s tau poisson x (OK s') x' Hb)
              fuel self e s1 e1 Hl) as [[_ [Ht _]] Hfalse].
  simpl in Ht. unfold while_test, mbind, apply_termination, lift in Hfalse.
  rewrite Ht in Hfalse.
  destruct (termination self) as [T|]; [|discriminate].
  destruct (T (base s1)) as [a|] eqn:Ha; [|discriminate].
  exists T, (base s1), a. split; [reflexivity|]. split; [exact Ha|].
  split; [|reflexivity]. now injection Hfalse.
Qed.

(** The 5-cycle with the node ceiling of the class documentation. *)
Lemma simulate_returns_with_rule_false_witness :
  (2 <= 4)%Z
  /\ exists (T : termination_rule) (b : Graph) (a : answer),
       Some (node_ceiling 100) = Some T
       /\ T b = OK a
       /\ truth a = OK false
       /\ set_name five_cycle "GMM Simulation" = set_name b "GMM Simulation".
Proof.
  apply (simulate_returns_with_rule_false zero_pmf (fun _ => 0.75%float) 0
           (mkGmm test_triangle true five_cycle five_cycle
              (Some (node_ceiling 100)) (Some compose_rule))
           (set_base_field
              (mkGmm test_triangle true five_cycle five_cycle
                 (Some (node_ceiling 100)) (Some compose_rule))
              (set_name five_cycle "GMM Simulation"))
           4 true "GMM Simulation" env0 env0).
  reflexivity.
Defined.


(** *** The outcomes of [draw_structure] *)

Lemma map_res_raises {A B : Type} (f : A -> res B) (l : list A) (x : exn) :
  map_res f l = Raise x -> exists a, In a l /\ f a = Raise x.
Proof.
  induction l as [|a l IH]; simpl; [discriminate|].
  destruct (f a) as [b|y] eqn:Ha; simpl.
  - destruct (map_res f l) as [bs|y]; simpl; [discriminate|].
    intros H. injection H as ->. destruct (IH eq_refl) as [a' [Hin Hf]].
    exists a'. split; [now right | exact Hf].
  - intros H. injection H as ->. exists a. split; [now left | exact Ha].
Qed.

Lemma div_raises (x y : num) (err : exn) :
  div x y = Raise err -> err = ZeroDivisionError /\ is_zero y = true.
Proof.
  unfold div. destruct (is_numpy x || is_numpy y); [discriminate|].
  destruct (is_zero y).
  - intros H. injection H as <-. now split.
  - destruct x, y; discriminate.
Qed.

Lemma walk_raises (draw : float) (rest : list num) :
  forall i acc x, walk draw rest i acc = Raise x -> x = IndexError.
Proof.
  induction rest as [|p rest IH]; intros i acc x; simpl.
  - destruct (gt draw acc); intros H; [now injection H | discriminate].
  - destruct (gt draw acc); [apply IH | discriminate].
Qed.

Lemma draw_structure_listed {A : Type} (motif_mass : list (record A)) (draw : float) (a : A) :
  draw_structure motif_mass draw = OK a -> In a (map motif motif_mass).
Proof.
  unfold draw_structure.
  destruct (probabilities motif_mass) as [ps|]; [|discriminate]. cbn [bind].
  destruct (getitem ps 0) as [p0|]; [|discriminate]. cbn [bind].
  destruct (walk _ _ _ _) as [j|]; [|discriminate]. cbn [bind].
  unfold getitem. destruct (nth_error motif_mass j) as [r|] eqn:Hr; [|discriminate].
  cbn [bind]. intros H. injection H as <-.
  apply in_map. now apply nth_error_In in Hr.
Qed.

Lemma draw_structure_raises {A : Type} (motif_mass : list (record A)) (draw : float) (x : exn) :
  draw_structure motif_mass draw = Raise x -> x = IndexError \/ x = ZeroDivisionError.
Proof.
  unfold draw_structure.
  destruct (probabilities motif_mass) as [ps|y] eqn:Hps; cbn [bind].
  - destruct (getitem ps 0) as [p0|y] eqn:Hp0; cbn [bind].
    + destruct (walk _ _ _ _) as [j|y] eqn:Hw; cbn [bind].
      * unfold getitem. destruct (nth_error motif_mass j); cbn [bind]; [discriminate|].
        intros H. injection H as <-. now left.
      * intros H. injection H as <-. left. now apply walk_raises in Hw.
    + unfold getitem in Hp0. destruct (nth_error ps 0); [discriminate|].
      injection Hp0 as <-. intros H. injection H as <-. now left.
  - intros H. injection H as <-. unfold probabilities in Hps.
    apply map_res_raises in Hps. destruct Hps as [r [_ Hd]].
    apply div_raises in Hd. right. tauto.
Qed.

Lemma draw_structure_raises_in_division {A : Type} (motif_mass : list (record A))
    (draw : float) (x : exn) :
  draw_structure motif_mass draw = Raise x ->
  x = IndexError \/ probabilities motif_mass = Raise x.
Proof.
  unfold draw_structure.
  destruct (probabilities motif_mass) as [ps|y] eqn:Hps; cbn [bind].
  - intros H. left.
    destruct (getitem ps 0) as [p0|y] eqn:Hp0; cbn [bind] in H.
    + destruct (walk _ _ _ _) as [j|y] eqn:Hw; cbn [bind] in H.
      * unfold getitem in H. destruct (nth_error motif_mass j); cbn [bind] in H;
          [discriminate | now injection H].
      * injection H as <-. now apply walk_raises in Hw.
    + unfold getitem in Hp0. destruct (nth_error ps 0); [discriminate|].
      injection Hp0 as <-. now injection H.
  - intros H. right. now injection H as <-.
Qed.

Lemma probabilities_of_numpy {A : Type} (motif_mass : list (record A)) :
  Forall (fun r => is_numpy (value r) = true) motif_mass ->
  exists ps, probabilities motif_mass = OK ps.
Proof.
  intros H. unfold probabilities. apply map_res_total.
  intros r Hr. rewrite Forall_forall in H. unfold div. rewrite (H r Hr). now eexists.
Qed.

Lemma poisson_mass_numpy {A : Type} (pmf : Z -> float -> float) (dist : list (record A)) :
  Forall (fun r => is_numpy (value r) = true) (poisson_mass pmf dist).
Proof.
  apply Forall_forall. intros r Hr. apply In_nth_error in Hr. destruct Hr as [i Hi].
  destruct (nth_error dist i) as [r0|] eqn:H0.
  - rewrite (poisson_mass_nth pmf dist i r0 H0) in Hi. now injection Hi as <-.
  - apply nth_error_None in H0. rewrite <- (poisson_mass_length pmf dist) in H0.
    apply nth_error_None in H0. congruence.
Qed.

Lemma sum_of_python (l : list num) :
  Forall (fun x => is_numpy x = false) l -> is_numpy (sum l) = false.
Proof.
  unfold sum. assert (H0 : is_numpy (PyInt 0) = false) by reflexivity.
  revert H0. generalize (PyInt 0).
  induction l as [|x l IH]; intros acc Hacc H; cbn [fold_left]; [exact Hacc|].
  inversion H as [|? ? Hx Hl]; subst. apply IH; [|exact Hl].
  unfold add. destruct acc, x; try discriminate; reflexivity.
Qed.

Lemma sum_of_numpy_zeros {A : Type} (l : list (record A)) :
  Forall (fun r => value r = NpFloat 0) l -> l <> [] ->
  sum (map value l) = NpFloat 0.
Proof.
  intros H Hne. destruct H as [|r l Hr H]; [now elim Hne|]. clear Hne.
  unfold sum. cbn [map fold_left]. rewrite Hr.
  change (add (PyInt 0) (NpFloat 0)) with (NpFloat 0).
  induction H as [|r' l Hr' _ IH]; [reflexivity|].
  cbn [map fold_left]. rewrite Hr'. exact IH.
Qed.

Lemma nan_not_below (draw : float) : PrimFloat.ltb nan draw = false.
Proof.
  rewrite FloatAxioms.ltb_spec. change (Prim2SF nan) with S754_nan. reflexivity.
Qed.

Lemma draw_structure_numpy_zeros {A : Type} (r : record A) (rest : list (record A))
    (draw : float) :
  Forall (fun r => value r = NpFloat 0) (r :: rest) ->
  draw_structure (r :: rest) draw = OK (motif r).
Proof.
  intros Hz. unfold draw_structure, probabilities.
  rewrite (sum_of_numpy_zeros (r :: rest) Hz ltac:(discriminate)).
  assert (Hps : map_res (fun r0 : record A => div (value r0) (NpFloat 0)) (r :: rest)
                = OK (map (fun _ => NpFloat nan) (r :: rest))).
  { clear draw. induction Hz as [|r' l Hr' _ IH]; [reflexivity|].
    cbn [map_res map]. rewrite Hr', IH. reflexivity. }
  rewrite Hps. cbn [bind map getitem nth_error tl].
  destruct (map (fun _ : record A => NpFloat nan) rest);
    cbn [walk gt]; rewrite nan_not_below; reflexivity.
Qed.

(** What [draw_structure] can come to when the weights are floats, Python's
    or NumPy's. On the empty list it raises an [IndexError]. On Python
    floats that sum to zero it raises a [ZeroDivisionError]. On
    [numpy.float64] weights that are all 0.0, which the Poisson policy can
    produce, every probability is [nan], no draw exceeds it, and the motif
    of the first record is returned. A motif it returns is the motif of one
    of the records, and it raises nothing but an [IndexError] or a
    [ZeroDivisionError]. *)
Theorem draw_structure_outcomes {A : Type} (motif_mass : list (record A)) (draw : float) :
  float_weights motif_mass ->
  (motif_mass = [] -> draw_structure motif_mass draw = Raise IndexError)
  /\ (motif_mass <> [] ->
      Forall (fun r => is_numpy (value r) = false) motif_mass ->
      is_zero (sum (map value motif_mass)) = true ->
      draw_structure motif_mass draw = Raise ZeroDivisionError)
  /\ (forall r rest, motif_mass = r :: rest ->
      Forall (fun r => value r = NpFloat 0) motif_mass ->
      draw_structure motif_mass draw = OK (motif r))
  /\ (forall a, draw_structure motif_mass draw = OK a -> In a (map motif motif_mass))
  /\ (forall x, draw_structure motif_mass draw = Raise x ->
      x = IndexError \/ x = ZeroDivisionError).
Proof.
  intros _. split; [|split; [|split; [|split]]].
  - intros ->. reflexivity.
  - intros Hne Hpy Hz. destruct motif_mass as [|r l]; [now elim Hne|].
    unfold draw_structure, probabilities. cbn [map_res].
    assert (Hn : is_numpy (value r) || is_numpy (sum (map value (r :: l))) = false).
    { rewrite (sum_of_python (map value (r :: l)))
        by (apply Forall_map; exact Hpy).
      inversion Hpy as [|? ? Hr _]; subst. now rewrite Hr. }
    now rewrite (div_zero _ _ Hn Hz).
  - intros r rest -> Hz. now apply draw_structure_numpy_zeros.
  - intros a. apply draw_structure_listed.
  - intros x. apply draw_structure_raises.
Qed.

(** The records of the package's test, and three masses 0.0 as SciPy
    returns them. *)
Lemma draw_structure_outcomes_witness :
  draw_structure test_motifs 0.5 = OK true
  /\ draw_structure [(0%Z, false, NpFloat 0); (1%Z, true, NpFloat 0)] 0.5 = OK false
  /\ draw_structure [(0%Z, false, PyFloat 0); (1%Z, true, PyFloat 0)] 0.5
     = Raise ZeroDivisionError.
Proof.
  split; [vm_compute; reflexivity|]. split.
  - apply (proj1 (proj2 (proj2 (@draw_structure_outcomes bool
             [(0%Z, false, NpFloat 0); (1%Z, true, NpFloat 0)] 0.5
             ltac:(repeat constructor))))
             (0%Z, false, NpFloat 0) [(1%Z, true, NpFloat 0)] eq_refl
             ltac:(repeat constructor)).
  - apply (proj1 (proj2 (@draw_structure_outcomes bool
             [(0%Z, false, PyFloat 0); (1%Z, true, PyFloat 0)] 0.5
             ltac:(repeat constructor)))
             ltac:(discriminate) ltac:(repeat constructor) eq_refl).
Defined.

(** *** The motifs survive counting and weighting *)

Lemma setitem_map {A B : Type} (f : A -> B) (l : list A) :
  forall i v l' old,
    setitem l i v = OK l' -> nth_error l i = Some old -> f v = f old ->
    map f l' = map f l.
Proof.
  induction l as [|a l IH]; intros i v l' old Hs Hn Hf; simpl in Hs.
  - destruct i; discriminate.
  - destruct i as [|i]; simpl in Hn.
    + injection Hs as <-. injection Hn as ->. simpl. now rewrite Hf.
    + destruct (setitem l i v) as [l''|] eqn:Hs'; [|discriminate].
      simpl in Hs. injection Hs as <-. simpl. f_equal. exact (IH _ _ _ _ Hs' Hn Hf).
Qed.

Lemma motif_counts_loop_motifs (positions : list nat) (b : Graph) (d : bool) :
  forall mc mc', motif_counts_loop positions b d mc = OK mc' ->
    map (@motif Graph) mc' = map (@motif Graph) mc.
Proof.
  induction positions as [|p positions IH]; intros mc mc' H; simpl in H.
  - now injection H as <-.
  - destruct (getitem mc p) as [m|]; [|discriminate]. cbn [bind] in H.
    destruct (py_index (length mc) (index m)) as [i|]; [|discriminate]. cbn [bind] in H.
    unfold getitem in H at 1.
    destruct (nth_error mc i) as [old|] eqn:Hold; [|discriminate]. cbn [bind] in H.
    destruct (setitem mc i _) as [mc''|] eqn:Hs; [|discriminate]. cbn [bind] in H.
    apply IH in H. rewrite H.
    exact (setitem_map (@motif Graph) mc i _ mc'' old Hs Hold eq_refl).
Qed.

Lemma motif_counts_motifs (self : gmm) (tau : Z) (dist : list (record Graph)) :
  motif_counts self tau = OK dist ->
  exists ms, get_motifs tau (is_directed (base self)) = OK ms
             /\ map (@motif Graph) dist = map (@motif Graph) ms.
Proof.
  unfold motif_counts. simpl.
  destruct (get_motifs tau _) as [ms|]; [|discriminate]. cbn [bind].
  intros H. exists ms. split; [reflexivity|]. now apply motif_counts_loop_motifs in H.
Qed.

Lemma map_res_map {A B C : Type} (f : A -> res B) (g : A -> C) (h : B -> C) (l : list A) :
  (forall a b, f a = OK b -> h b = g a) ->
  forall l', map_res f l = OK l' -> map h l' = map g l.
Proof.
  intros Hf. induction l as [|a l IH]; intros l' H; simpl in H.
  - now injection H as <-.
  - destruct (f a) as [b|] eqn:Ha; [|discriminate]. cbn [bind] in H.
    destruct (map_res f l) as [bs|]; [|discriminate]. cbn [bind] in H.
    injection H as <-. simpl. now rewrite (Hf a b Ha), (IH bs eq_refl).
Qed.

Lemma count_ratios_motifs {A : Type} (dist mass : list (record A)) :
  count_ratios dist = OK mass ->
  map (@motif A) mass = map (@motif A) dist /\ map (@index A) mass = map (@index A) dist.
Proof.
  unfold count_ratios. intros H. split.
  - apply (map_res_map _ (@motif A) (@motif A) dist) in H; [exact H|].
    intros a b. destruct (div _ _); simpl; [|discriminate]. intros E. now injection E as <-.
  - apply (map_res_map _ (@index A) (@index A) dist) in H; [exact H|].
    intros a b. destruct (div _ _); simpl; [|discriminate]. intros E. now injection E as <-.
Qed.

Lemma poisson_mass_motifs {A : Type} (pmf : Z -> float -> float) (dist : list (record A)) :
  map (@motif A) (poisson_mass pmf dist) = map (@motif A) dist.
Proof.
  apply nth_error_ext. intros i. rewrite !nth_error_map.
  destruct (nth_error dist i) as [r|] eqn:Hr.
  - now rewrite (poisson_mass_nth pmf dist i r Hr).
  - apply nth_error_None in Hr. rewrite <- (poisson_mass_length pmf dist) in Hr.
    apply nth_error_None in Hr. now rewrite Hr.
Qed.

(** What the growth rule is handed *)

Lemma pass_calls_from_catalogue pmf uniform self tau poisson e r e' :
  simulate_body pmf uniform self tau poisson e = (r, e') ->
  calls_from_catalogue tau (self, e)
    (match r with OK self' => self' | Raise _ => self end, e').
Proof.
  rewrite simulate_body_cases. unfold pass_result, calls_from_catalogue.
  assert (Hnone : forall st : gmm, exists calls,
            rule_calls e = rule_calls e ++ calls /\ Forall (from_catalogue tau) calls).
  { intros _. exists []. now rewrite app_nil_r. }
  destruct (motif_counts self tau) as [dist|] eqn:Hd;
    [|intros H; injection H as <- <-; apply (Hnone self)].
  destruct (if poisson then _ else _) as [mass|] eqn:Hm;
    [|intros H; injection H as <- <-; apply (Hnone self)].
  destruct (probabilities mass);
    [|intros H; injection H as <- <-; apply (Hnone self)].
  destruct (draw_structure _ _) as [new|] eqn:Hdraw;
    [|intros H; injection H as <- <-; apply (Hnone self)].
  assert (Hnew : from_catalogue tau (base self, new)).
  { destruct (motif_counts_motifs self tau dist Hd) as [ms [Hms Hmap]].
    exists ms. split; [exact Hms|]. simpl. rewrite <- Hmap.
    apply draw_structure_listed in Hdraw.
    destruct poisson.
    - injection Hm as <-. now rewrite poisson_mass_motifs in Hdraw.
    - apply count_ratios_motifs in Hm. destruct Hm as [Hm _]. now rewrite <- Hm. }
  destruct (rule self) as [f|];
    [|intros H; injection H as <- <-; apply (Hnone self)].
  destruct (f (base self) new); intros H; injection H as <- <-;
    exists [(base self, new)]; simpl; split; auto.
Qed.

(** Every call of the growth rule that a run of [simulate] makes passes a
    motif of the catalogue [get_motifs tau] for the class of the base it is
    called on, with either weighting policy. *)
Theorem simulate_hands_rule_catalogue_motifs (pmf : Z -> float -> float)
    (uniform : nat -> float) (fuel : nat) (self : gmm) (tau : Z) (poisson : bool)
    (new_name : string) (e : env) :
  let '(_, _, e') := simulate pmf uniform fuel self tau poisson new_name e in
  exists calls,
    rule_calls e' = rule_calls e ++ calls
    /\ Forall (fun call =>
                 exists ms, get_motifs tau (is_directed (fst call)) = OK ms
                            /\ In (snd call) (map (@motif Graph) ms)) calls.
Proof.
  unfold simulate. destruct (tau <? 2)%Z.
  - exists []. now rewrite app_nil_r.
  - destruct (simulate_loop pmf uniform fuel self tau poisson e) as [[o self'] e'] eqn:Hl.
    assert (H : calls_from_catalogue tau (self, e) (self', e')).
    { apply (simulate_loop_relates pmf uniform tau poisson (calls_from_catalogue tau))
        with (fuel := fuel) (o := o); [| | |exact Hl].
      - intros s. exists []. now rewrite app_nil_r.
      - intros s1 s2 s3 [c1 [H1 F1]] [c2 [H2 F2]]. exists (c1 ++ c2).
        split; [rewrite H2, H1; now rewrite app_assoc | now apply Forall_app].
      - intros s x r x'. apply pass_calls_from_catalogue. }
    destruct o; exact H.
Qed.

(** *** The catalogue grows with [tau] *)


Lemma number_from_app (graphs : list Graph) :
  forall motifs i, exists more,
    fst (number_from graphs motifs i) = motifs ++ more
    /\ length more = length graphs
    /\ Forall (fun r => value r = PyInt 0) more.
Proof.
  unfold number_from.
  induction graphs as [|g graphs IH]; intros motifs i; simpl.
  - exists []. now rewrite app_nil_r.
  - destruct (IH (motifs ++ [(i, g, PyInt 0)]) (i + 1)%Z) as [more [H1 [H2 H3]]].
    exists ((i, g, PyInt 0) :: more). rewrite H1, <- app_assoc. simpl.
    split; [reflexivity|]. split; [now rewrite H2 | now constructor].
Qed.

Lemma number_from_snd (graphs : list Graph) :
  forall motifs i,
    snd (number_from graphs motifs i) = (i + Z.of_nat (length graphs))%Z.
Proof.
  unfold number_from.
  induction graphs as [|g graphs IH]; intros motifs i; simpl; [lia|].
  rewrite IH. lia.
Qed.

Lemma number_from_next (graphs : list Graph) (motifs : list (record Graph)) :
  snd (number_from graphs motifs (Z.of_nat (length motifs)))
  = Z.of_nat (length (fst (number_from graphs motifs (Z.of_nat (length motifs))))).
Proof.
  rewrite number_from_snd. unfold number_from. rewrite number_motifs_length. lia.
Qed.

Lemma get_motifs_loop_snoc (vs : list Z) (d : bool) (v : Z) :
  forall motifs,
    get_motifs_loop (vs ++ [v]) d motifs (Z.of_nat (length motifs))
    = match get_motifs_loop vs d motifs (Z.of_nat (length motifs)) with
      | OK ms => get_motifs_loop [v] d ms (Z.of_nat (length ms))
      | Raise x => Raise x
      end.
Proof.
  induction vs as [|v0 vs IH]; intros motifs.
  - simpl. destruct (all_graphs v d); reflexivity.
  - cbn [app get_motifs_loop].
    destruct (all_graphs v0 d) as [graphs|]; [|reflexivity]. cbn [bind].
    fold (number_from graphs motifs (Z.of_nat (length motifs))).
    rewrite number_from_next. apply IH.
Qed.

Lemma xrange_snoc (a b : Z) : (a <= b)%Z -> xrange a (b + 1) = xrange a b ++ [b].
Proof.
  intros H. unfold xrange.
  replace (Z.to_nat (b + 1 - a)) with (S (Z.to_nat (b - a))) by lia.
  rewrite seq_S, map_app. simpl. f_equal. f_equal. lia.
Qed.

(** Below [tau = 2] the catalogue is empty; from [tau = 1] on, the
    catalogue for [tau + 1] is the catalogue for [tau] followed by at least
    one more record, so a motif keeps its index when [tau] grows; the new
    records carry the count 0. *)
Theorem get_motifs_grows_with_tau (tau : Z) (directed_motifs : bool) :
  ((tau < 2)%Z -> get_motifs tau directed_motifs = OK [])
  /\ ((1 <= tau)%Z ->
      exists motifs more,
        get_motifs tau directed_motifs = OK motifs
        /\ get_motifs (tau + 1) directed_motifs = OK (motifs ++ more)
        /\ more <> []
        /\ Forall (fun r => value r = PyInt 0) more).
Proof.
  split.
  - intros H. unfold get_motifs, xrange.
    replace (Z.to_nat (tau + 1 - 2)) with 0%nat by lia. reflexivity.
  - intros H. destruct (get_motifs_total tau directed_motifs) as [motifs [Hm _]].
    exists motifs. unfold get_motifs in *.
    rewrite (xrange_snoc 2 (tau + 1)) by lia.
    change 0%Z with (Z.of_nat (length (@nil (record Graph)))).
    rewrite get_motifs_loop_snoc. change (Z.of_nat (length (@nil (record Graph)))) with 0%Z.
    rewrite Hm. cbn [get_motifs_loop].
    destruct (all_graphs_total (tau + 1) directed_motifs) as [graphs Hg].
    rewrite Hg. cbn [bind].
    fold (number_from graphs motifs (Z.of_nat (length motifs))).
    destruct (number_from_app graphs motifs (Z.of_nat (length motifs)))
      as [more [H1 [H2 H3]]].
    exists more. rewrite H1. split; [reflexivity|]. split; [reflexivity|].
    split; [|exact H3].
    apply all_graphs_nonempty in Hg. intros ->. destruct graphs; [now elim Hg | discriminate].
Qed.

(** *** [simulate] on a model that lacks a rule *)




(** *** Setting the rules *)


(** [set_rule] tries the rule on the base and the test graph: on a
    [TypeError] it prints its message and leaves the object as it was, any
    other exception goes through and nothing is printed, and on success the
    rule is the one [apply_rule] calls from then on. [set_termination] tries
    the rule on the base: an exception goes through (a [TypeError] as a
    [TypeError]), and on success [apply_termination] answers what the rule
    answers on the base. *)
Theorem rule_setters_install_on_success (self : gmm) (R : growth_rule)
    (T : termination_rule) (new : Graph) (set_result : bool) (e : env) :
  (R (base self) (test_graph self) = Raise TypeError ->
   set_rule self R e
   = (OK self, mkEnv (stdout e ++ [msg_set_rule])
                 (rule_calls e ++ [(base self, test_graph self)]) (draws_taken e)))
  /\ (forall x, x <> TypeError -> R (base self) (test_graph self) = Raise x ->
      fst (set_rule self R e) = Raise x /\ stdout (snd (set_rule self R e)) = stdout e)
  /\ (forall g, R (base self) (test_graph self) = OK g ->
      exists self1 e1,
        set_rule self R e = (OK self1, e1)
        /\ base self1 = base self
        /\ termination self1 = termination self
        /\ stdout e1 = stdout e
        /\ fst (apply_rule self1 new set_result e1)
           = res_map (fun result =>
                        (result, if set_result then set_base_field self1 result else self1))
               (R (base self) new))
  /\ (forall x, T (base self) = Raise x -> set_termination self T e = (Raise x, e))
  /\ (forall b, T (base self) = OK b ->
      exists self1,
        set_termination self T e = (OK self1, e)
        /\ base self1 = base self
        /\ rule self1 = rule self
        /\ apply_termination self1 e = (OK b, e)).
Proof.
  split; [|split; [|split; [|split]]].
  - intros H. unfold set_rule, except_TypeError, mbind, call_rule, print, ret.
    rewrite H. reflexivity.
  - intros x Hx H. unfold set_rule, except_TypeError, mbind, call_rule, print, ret.
    rewrite H. destruct x; try (now elim Hx); split; reflexivity.
  - intros g H. unfold set_rule, except_TypeError, mbind, call_rule, print, ret.
    rewrite H. eexists. eexists. split; [reflexivity|].
    repeat split. unfold apply_rule, mbind, call_rule, ret, res_map. simpl.
    destruct (R (base self) new); [now destruct set_result | reflexivity].
  - intros x H. unfold set_termination, except_TypeError, mbind, lift, throw, ret.
    rewrite H. now destruct x.
  - intros b H. unfold set_termination, except_TypeError, mbind, lift, throw, ret.
    rewrite H. eexists. split; [reflexivity|]. repeat split.
    unfold apply_termination, lift. simpl. now rewrite H.
Qed.

(** *** Construction *)

Ltac finish_init :=
  repeat match goal with
    | |- _ /\ _ => split
    | |- forall _, _ => intro
    | H : Some _ = Some _ |- _ => injection H as <-
    | H : Some _ = None |- _ => discriminate H
    | H : None = Some _ |- _ => discriminate H
    | |- exists _, _ = OK _ => eexists; eassumption
    | |- None = None \/ _ => left; reflexivity
    | |- Some _ = None \/ _ =>
        right; eexists; split; [reflexivity|];
        split; [first [eassumption | left; eassumption | right; eexists; eassumption]|];
        repeat rewrite in_app_iff; simpl; tauto
    | |- _ = _ => reflexivity
    end.

(** The constructor raises a [TypeError] for something that is no graph
    and a [ValueError] for a graph with fewer than two edges. When it
    returns, the base is the graph renumbered from 0, the first base is the
    same graph ([revert_base] changes nothing), the test graph is the path
    0 - 1 - 2. A termination rule that is kept answered [True] or [False]
    on its trial call, and one that was given and is not kept raised a
    [TypeError] there or answered something else. A growth rule that is
    kept returned on its trial call, and one that was given and is not kept
    raised a [TypeError] there. A rule that is not kept has the
    constructor's message printed. *)
Theorem gmm_init_outcomes (G : pyval) (T : option termination_rule)
    (R : option growth_rule) (e : env) :
  (G = VOther -> gmm_init G T R e = (Raise TypeError, e))
  /\ (forall g, G = VGraph g -> (number_of_edges g < 2)%Z ->
      gmm_init G T R e = (Raise ValueError, e))
  /\ (forall m e', gmm_init G T R e = (OK m, e') ->
      exists g,
        G = VGraph g
        /\ (2 <= number_of_edges g)%Z
        /\ base m = convert_node_labels_to_integers g 0
        /\ original m = base m
        /\ revert_base m = m
        /\ test_graph m = Graph_of [(0, 1); (1, 2)]%Z
        /\ (forall t, termination m = Some t ->
            T = Some t /\ exists b : bool, t (base m) = OK (Bool b))
        /\ (termination m = None ->
            T = None
            \/ exists t, T = Some t
                         /\ (t (base m) = Raise TypeError
                             \/ exists nonzero, t (base m) = OK (NotBool nonzero))
                         /\ In msg_T_init (stdout e'))
        /\ (forall r, rule m = Some r ->
            R = Some r /\ exists h, r (base m) (test_graph m) = OK h)
        /\ (rule m = None ->
            R = None \/ exists r, R = Some r
                                  /\ r (base m) (test_graph m) = Raise TypeError
                                  /\ In msg_R_init (stdout e'))).
Proof.
  split; [|split].
  - intros ->. reflexivity.
  - intros g -> Hlt. unfold gmm_init, mbind, throw.
    assert (E : (1 <? number_of_edges g)%Z = false) by (apply Z.ltb_ge; lia).
    now rewrite E.
  - intros m e'. unfold gmm_init, mbind, throw, ret.
    destruct G as [g|]; [|discriminate].
    destruct (1 <? number_of_edges g)%Z eqn:E; [|discriminate].
    apply Z.ltb_lt in E.
    set (b := convert_node_labels_to_integers g 0).
    set (test := Graph_of [(0, 1); (1, 2)]%Z).
    intros H. exists g. split; [reflexivity|]. split; [lia|].
    destruct T as [t|]; destruct R as [r|];
      unfold except_TypeError, mbind, lift, call_rule, print, ret in H;
      cbn [stdout rule_calls draws_taken] in H.
    + destruct (t b) as [[tb|nz]|[]] eqn:Ht; try discriminate;
        unfold throw in H; cbn [stdout rule_calls draws_taken] in H;
        destruct (r b test) as [rb|[]] eqn:Hr; try discriminate;
        injection H as <- <-; simpl; finish_init.
    + destruct (t b) as [[tb|nz]|[]] eqn:Ht; try discriminate;
        unfold throw in H; cbn [stdout rule_calls draws_taken] in H;
        injection H as <- <-; simpl; finish_init.
    + destruct (r b test) as [rb|[]] eqn:Hr; try discriminate;
        injection H as <- <-; simpl; finish_init.
    + injection H as <- <-. simpl. finish_init.
Qed.

(** *** Nodes and classes of the graphs that are built *)

Section GraphShapes.

Local Open Scope Z_scope.

(** Sorted lists with the same elements are equal *)
Lemma sorted_ext (l1 l2 : list Z) :
  StronglySorted Z.lt l1 -> StronglySorted Z.lt l2 ->
  (forall x, In x l1 <-> In x l2) -> l1 = l2.
Proof.
  intros H1. revert l2. induction H1 as [|a l1 Hs1 IH Ha]; intros l2 H2 Hext.
  - destruct l2 as [|b l2]; [reflexivity|].
    exfalso. apply (proj2 (Hext b)). now left.
  - destruct H2 as [|b l2 Hs2 Hb].
    + exfalso. apply (proj1 (Hext a)). now left.
    + rewrite Forall_forall in Ha, Hb.
      assert (a = b).
      { destruct (proj1 (Hext a) (or_introl eq_refl)) as [E | Hin]; [now symmetry|].
        destruct (proj2 (Hext b) (or_introl eq_refl)) as [E | Hin']; [exact E|].
        specialize (Ha b Hin'). specialize (Hb a Hin). lia. }
      subst b. f_equal. apply IH; [exact Hs2|].
      intros x. split; intros Hx.
      * destruct (proj1 (Hext x) (or_intror Hx)) as [E | Hin]; [|exact Hin].
        subst x. specialize (Ha a Hx). lia.
      * destruct (proj2 (Hext x) (or_intror Hx)) as [E | Hin]; [|exact Hin].
        subst x. specialize (Hb a Hx). lia.
Qed.

Lemma consecutive_In first k x :
  In x (consecutive first k) <-> first <= x < first + Z.of_nat k.
Proof.
  unfold consecutive. rewrite in_map_iff. split.
  - intros [i [<- Hi]]. apply in_seq in Hi. lia.
  - intros H. exists (Z.to_nat (x - first)). split; [lia|]. apply in_seq. lia.
Qed.

Lemma consecutive_cons first k :
  consecutive first (S k) = first :: consecutive (first + 1) k.
Proof.
  unfold consecutive. simpl. rewrite Z.add_0_r. f_equal.
  rewrite <- seq_shift, map_map. apply map_ext. intros i. lia.
Qed.

Lemma consecutive_sorted k : forall first, StronglySorted Z.lt (consecutive first k).
Proof.
  induction k as [|k IH]; intros first.
  - constructor.
  - rewrite consecutive_cons. constructor; [apply IH|].
    apply Forall_forall. intros x Hx. apply consecutive_In in Hx. lia.
Qed.

Lemma consecutive_length first k : length (consecutive first k) = k.
Proof. unfold consecutive. now rewrite length_map, length_seq. Qed.

Lemma range_consecutive n : range n = consecutive 0 n.
Proof. unfold range, consecutive. apply map_ext. intros i. lia. Qed.

(** Nodes and neighbours after additions *)

Lemma add_node_nodes g n x : In x (nodes (add_node g n)) <-> x = n \/ In x (nodes g).
Proof. unfold nodes, add_node. simpl. apply dict_update_keys. Qed.

Lemma add_edge_nodes g u v x :
  In x (nodes (add_edge g u v)) <-> x = u \/ x = v \/ In x (nodes g).
Proof.
  unfold nodes, add_edge. simpl. destruct (directed g);
    rewrite ?dict_update_keys; tauto.
Qed.

Lemma add_node_sorted g n : keys_sorted (adj g) -> keys_sorted (adj (add_node g n)).
Proof. intros H. unfold add_node. simpl. now apply dict_update_keys_sorted. Qed.

Lemma add_edge_sorted g u v : keys_sorted (adj g) -> keys_sorted (adj (add_edge g u v)).
Proof.
  intros H. unfold add_edge. simpl.
  destruct (directed g); repeat apply dict_update_keys_sorted; exact H.
Qed.

Lemma add_node_nb g n x : keys_sorted (adj g) -> nb (adj (add_node g n)) x = nb (adj g) x.
Proof.
  intros H. unfold add_node. simpl. rewrite (nb_update _ _ _ _ H).
  destruct (x =? n) eqn:E; [|reflexivity]. apply Z.eqb_eq in E. now subst.
Qed.

Lemma add_edge_nb_incl g u v x m :
  keys_sorted (adj g) ->
  In m (nb (adj (add_edge g u v)) x) -> m = u \/ m = v \/ In m (nb (adj g) x).
Proof.
  intros Hk. unfold add_edge. simpl.
  set (d1 := dict_update (fun l => l) v (adj g)).
  set (d2 := dict_update (insert_key v) u d1).
  assert (Hk1 : keys_sorted d1) by now apply dict_update_keys_sorted.
  assert (Hk2 : keys_sorted d2) by now apply dict_update_keys_sorted.
  assert (H1 : forall y, nb d1 y = nb (adj g) y).
  { intros y. unfold d1. rewrite (nb_update _ _ _ _ Hk).
    destruct (y =? v) eqn:E; [|reflexivity]. apply Z.eqb_eq in E. now subst. }
  assert (H2 : forall y, In m (nb d2 y) -> m = v \/ In m (nb (adj g) y)).
  { intros y. unfold d2. rewrite (nb_update _ _ _ _ Hk1), !H1.
    destruct (y =? u) eqn:E; [|tauto]. apply Z.eqb_eq in E. subst.
    rewrite insert_key_In. tauto. }
  destruct (directed g).
  - intros H. apply H2 in H. tauto.
  - rewrite (nb_update _ _ _ _ Hk2). destruct (x =? v) eqn:E.
    + apply Z.eqb_eq in E. subst. rewrite insert_key_In. intros [-> | H]; [tauto|].
      apply H2 in H. tauto.
    + intros H. apply H2 in H. tauto.
Qed.

Lemma add_node_tidy g n : tidy g -> tidy (add_node g n).
Proof.
  intros [Hk Hc]. split; [now apply add_node_sorted|].
  intros x m. rewrite (add_node_nb g n x Hk). intros H.
  apply (add_node_nodes g n m). right. exact (Hc x m H).
Qed.

Lemma add_edge_tidy g u v : tidy g -> tidy (add_edge g u v).
Proof.
  intros [Hk Hc]. split; [now apply add_edge_sorted|].
  intros x m H. apply (add_edge_nb_incl g u v x m Hk) in H.
  apply (add_edge_nodes g u v m). destruct H as [-> | [-> | H]]; [now left | right; now left |].
  right. right. exact (Hc x m H).
Qed.

Lemma add_node_directed g n : directed (add_node g n) = directed g.
Proof. reflexivity. Qed.

Lemma add_edge_directed g u v : directed (add_edge g u v) = directed g.
Proof. reflexivity. Qed.

Lemma empty_tidy d s : tidy (mkGraph d s []).
Proof. split; [constructor | intros n m H; exact H]. Qed.

(** Folds of additions *)

Lemma fold_add_node_spec (l : list node) :
  forall g, tidy g ->
    let h := fold_left add_node l g in
    tidy h /\ directed h = directed g
    /\ forall x, In x (nodes h) <-> In x l \/ In x (nodes g).
Proof.
  induction l as [|n l IH]; intros g Hg; simpl.
  - split; [exact Hg|]. split; [reflexivity|]. intros x. tauto.
  - destruct (IH (add_node g n) (add_node_tidy g n Hg)) as [H1 [H2 H3]].
    split; [exact H1|]. split; [exact H2|].
    intros x. rewrite H3, add_node_nodes. simpl. intuition auto.
Qed.

Lemma fold_add_edge_spec (es : list edge) (f : edge -> edge) :
  forall g, tidy g ->
    let h := fold_left (fun h e => add_edge h (fst (f e)) (snd (f e))) es g in
    tidy h /\ directed h = directed g
    /\ forall x, In x (nodes h)
                 <-> (exists e, In e es /\ (x = fst (f e) \/ x = snd (f e)))
                     \/ In x (nodes g).
Proof.
  induction es as [|e es IH]; intros g Hg; simpl.
  - split; [exact Hg|]. split; [reflexivity|]. intros x. split; [tauto|].
    intros [[e [[] _]] | H]; exact H.
  - destruct (IH (add_edge g (fst (f e)) (snd (f e))) (add_edge_tidy _ _ _ Hg))
      as [H1 [H2 H3]].
    split; [exact H1|]. split; [exact H2|].
    intros x. rewrite H3, add_edge_nodes. split.
    + intros [[e' [Hin Hx]] | [Hx | [Hx | Hx]]].
      * left. exists e'. split; [now right | exact Hx].
      * left. exists e. split; [now left | now left].
      * left. exists e. split; [now left | now right].
      * now right.
    + intros [[e' [[<- | Hin] Hx]] | Hx].
      * right. tauto.
      * left. exists e'. tauto.
      * right. tauto.
Qed.

(** The end points of the edges of a tidy graph are nodes *)
Lemma edges_endpoints g u v :
  tidy g -> In (u, v) (edges g) -> In u (nodes g) /\ In v (nodes g).
Proof.
  intros [Hk Hc] H. unfold edges in H.
  assert (Hl : exists l, In (u, l) (adj g) /\ In v l).
  { destruct (directed g).
    - apply in_flat_map in H. destruct H as [[k l] [Hkl Hin]]. simpl in Hin.
      apply in_map_iff in Hin. destruct Hin as [y [Heq Hy]]. injection Heq as -> ->.
      now exists l.
    - apply edges_unseen_In in H. tauto. }
  destruct Hl as [l [Hul Hv]]. split.
  - unfold nodes. now apply (in_map fst) in Hul.
  - apply (Hc u v). now rewrite (nb_of_in _ _ _ Hk Hul).
Qed.

(** Generated graphs *)

Lemma nodes_by_elements g l :
  keys_sorted (adj g) -> StronglySorted Z.lt l ->
  (forall x, In x (nodes g) <-> In x l) -> nodes g = l.
Proof. intros Hk Hl H. now apply sorted_ext. Qed.

Lemma set_name_tidy g s : tidy g -> tidy (set_name g s).
Proof. intros H. exact H. Qed.

Lemma empty_graph_spec n :
  tidy (empty_graph n) /\ directed (empty_graph n) = false
  /\ nodes (empty_graph n) = consecutive 0 n.
Proof.
  unfold empty_graph.
  destruct (fold_add_node_spec (range n) _ (empty_tidy false (generated_name "empty_graph" n)))
    as [H1 [H2 H3]].
  split; [exact H1|]. split; [exact H2|].
  apply nodes_by_elements; [apply H1 | apply consecutive_sorted|].
  intros x. rewrite H3, range_consecutive. simpl. tauto.
Qed.

Lemma fold_add_edge_from g (es : list edge) :
  tidy g ->
  (forall e, In e es -> In (fst e) (nodes g) /\ In (snd e) (nodes g)) ->
  let h := fold_left (fun h e => add_edge h (fst e) (snd e)) es g in
  tidy h /\ directed h = directed g /\ nodes h = nodes g.
Proof.
  intros Hg Hes.
  destruct (fold_add_edge_spec es (fun e => e) g Hg) as [H1 [H2 H3]].
  split; [exact H1|]. split; [exact H2|].
  apply nodes_by_elements; [apply H1 | apply Hg |].
  intros x. rewrite H3. split; [|tauto].
  intros [[e [Hin [-> | ->]]] | H]; [apply Hes, Hin | apply Hes, Hin | exact H].
Qed.

Lemma complete_graph_spec n :
  tidy (complete_graph n) /\ directed (complete_graph n) = false
  /\ nodes (complete_graph n) = consecutive 0 n.
Proof.
  unfold complete_graph.
  destruct (empty_graph_spec n) as [Ht [Hd Hn]].
  set (g0 := set_name (empty_graph n) (generated_name "complete_graph" n)).
  assert (H0 : tidy g0 /\ directed g0 = false /\ nodes g0 = consecutive 0 n)
    by (split; [exact Ht | split; [exact Hd | exact Hn]]).
  clearbody g0.
  assert (Hgen : forall us, (forall u, In u us -> In u (consecutive 0 n)) ->
    forall g, tidy g /\ directed g = false /\ nodes g = consecutive 0 n ->
    let h := fold_left
      (fun g u => fold_left (fun g v => add_edge g u v)
                    (filter (fun v => u <? v) (range n)) g) us g in
    tidy h /\ directed h = false /\ nodes h = consecutive 0 n).
  { induction us as [|u us IH]; intros Hus g Hg; simpl; [exact Hg|].
    apply IH; [intros u' Hu'; apply Hus; now right|].
    destruct Hg as [Hg1 [Hg2 Hg3]].
    assert (Hinner : forall vs, (forall v, In v vs -> In v (consecutive 0 n)) ->
      forall g, tidy g /\ directed g = false /\ nodes g = consecutive 0 n ->
      let h := fold_left (fun g v => add_edge g u v) vs g in
      tidy h /\ directed h = false /\ nodes h = consecutive 0 n).
    { induction vs as [|v vs IHv]; intros Hvs g' Hg'; simpl; [exact Hg'|].
      apply IHv; [intros v' Hv'; apply Hvs; now right|].
      destruct Hg' as [A [B C]].
      split; [now apply add_edge_tidy|]. split; [exact B|].
      apply nodes_by_elements;
        [apply add_edge_sorted, A | apply consecutive_sorted|].
      intros x. rewrite add_edge_nodes, C. split; [|tauto].
      intros [-> | [-> | H]];
        [apply Hus; now left | apply Hvs; now left | exact H]. }
    apply Hinner; [|split; [exact Hg1 | split; [exact Hg2 | exact Hg3]]].
    intros v Hv. apply filter_In in Hv. rewrite <- range_consecutive. tauto. }
  apply Hgen; [|exact H0].
  intros u Hu. now rewrite <- range_consecutive.
Qed.

(** Removing an edge of a tidy graph *)

Lemma dict_update_same_keys f n d :
  keys_sorted d -> In n (map fst d) -> map fst (dict_update f n d) = map fst d.
Proof.
  intros Hk Hin. apply sorted_ext.
  - now apply dict_update_keys_sorted.
  - exact Hk.
  - intros x. rewrite dict_update_keys. split; [|tauto].
    intros [-> | H]; [exact Hin | exact H].
Qed.

Lemma nb_key d n m : In m (nb d n) -> In n (map fst d).
Proof.
  intros H. apply in_of_nb in H. destruct H as [l [Hl _]].
  now apply (in_map fst) in Hl.
Qed.

Lemma remove_edge_tidy g u v g' :
  tidy g -> remove_edge g u v = OK g' ->
  tidy g' /\ nodes g' = nodes g /\ directed g' = directed g /\ name g' = name g.
Proof.
  intros [Hk Hc]. unfold remove_edge, has_edge, neighbors. fold (nb (adj g) u).
  destruct (mem v (nb (adj g) u)) eqn:Hm; [|discriminate].
  apply mem_In in Hm. intros H. injection H as <-.
  pose proof (nb_key _ _ _ Hm) as Hu. pose proof (Hc u v Hm) as Hv.
  set (d1 := dict_update (delete_key v) u (adj g)).
  assert (Hk1 : keys_sorted d1) by now apply dict_update_keys_sorted.
  assert (Hn1 : map fst d1 = map fst (adj g)) by now apply dict_update_same_keys.
  assert (Hnb1 : forall x m, In m (nb d1 x) -> In m (nb (adj g) x)).
  { intros x m. unfold d1. rewrite (nb_update _ _ _ _ Hk).
    destruct (x =? u) eqn:E; [|tauto]. apply Z.eqb_eq in E. subst.
    rewrite delete_key_In. tauto. }
  simpl. destruct (directed g) eqn:Hd.
  - split; [|split; [exact Hn1 | split; reflexivity]].
    split; [exact Hk1|]. intros x m H. apply Hnb1 in H. simpl. rewrite Hn1.
    exact (Hc x m H).
  - assert (Hn2 : map fst (dict_update (delete_key u) v d1) = map fst (adj g)).
    { rewrite dict_update_same_keys; [exact Hn1 | exact Hk1 | now rewrite Hn1]. }
    split; [|split; [exact Hn2 | split; reflexivity]].
    split; [now apply dict_update_keys_sorted|].
    intros x m. simpl. rewrite (nb_update _ _ _ _ Hk1), Hn2.
    destruct (x =? v) eqn:E.
    + rewrite delete_key_In. intros [H _]. apply Hnb1 in H. exact (Hc _ m H).
    + intros H. apply Hnb1 in H. exact (Hc x m H).
Qed.

Lemma remove_edges_loop_like (d : bool) (stack : list edge) :
  forall g0 g acc r,
    like g0 g -> Forall (like g0) acc ->
    remove_edges_loop d g stack acc = OK r -> Forall (like g0) r.
Proof.
  induction stack as [|e stack IH]; intros g0 g acc r Hg Hacc; simpl.
  - destruct (0 <? number_of_edges g); [discriminate|].
    intros H. now injection H as <-.
  - destruct (0 <? number_of_edges g); [|intros H; now injection H as <-].
    destruct (remove_edge g (fst e) (snd e)) as [g'|] eqn:Hr; [|discriminate].
    cbn [bind]. destruct Hg as [Ht [Hn Hd]].
    destruct (remove_edge_tidy g _ _ g' Ht Hr) as [Ht' [Hn' [Hd' _]]].
    assert (Hg' : like g0 g') by (split; [exact Ht' | split; congruence]).
    apply IH; [exact Hg'|].
    destruct (_ =? 1); [|exact Hacc].
    apply Forall_app. split; [exact Hacc | now constructor].
Qed.

Lemma to_directed_like g h : like g h -> like (to_directed g) (to_directed h).
Proof.
  intros [[Hk Hc] [Hn _]]. split; [split; assumption|]. split; [exact Hn | reflexivity].
Qed.

Lemma all_graphs_shapes (num_nodes : Z) (directed_motifs : bool) (graphs : list Graph) :
  all_graphs num_nodes directed_motifs = OK graphs ->
  Forall (motif_shape (Z.to_nat num_nodes) directed_motifs) graphs.
Proof.
  set (n := Z.to_nat num_nodes).
  destruct (complete_graph_spec n) as [Ht [Hd Hn]].
  assert (Hself : like (complete_graph n) (complete_graph n))
    by (split; [exact Ht | split; reflexivity]).
  assert (Hshape : forall h, like (complete_graph n) h -> motif_shape n false h).
  { intros h [A [B C]]. split; [exact A|]. split; congruence. }
  assert (Hshape_d : forall h, like (to_directed (complete_graph n)) h -> motif_shape n true h).
  { intros h [A [B C]]. split; [exact A|]. split; [now rewrite B | exact C]. }
  assert (Hu : forall r, all_graphs_body (OK []) num_nodes false = OK r ->
                         Forall (like (complete_graph n)) r).
  { intros r. unfold all_graphs_body. fold n.
    destruct (remove_edges_loop false _ _ _) as [gs|] eqn:Hl; [|discriminate].
    cbn [bind]. intros H. injection H as <-.
    apply Forall_app. split; [|now constructor].
    exact (remove_edges_loop_like false _ _ _ [] gs Hself (Forall_nil _) Hl). }
  unfold all_graphs. destruct directed_motifs.
  - unfold all_graphs_body at 1. fold n.
    destruct (all_graphs_body (OK []) num_nodes false) as [ud|] eqn:Hud; [|discriminate].
    cbn [bind]. specialize (Hu ud eq_refl).
    destruct (remove_edges_loop true _ _ _) as [gs|] eqn:Hl; [|discriminate].
    cbn [bind]. intros H. injection H as <-.
    apply (Forall_impl _ Hshape_d).
    apply fold_left_preserves.
    + intros acc i Hi Hacc. destruct (existsb _ _); [exact Hacc|].
      apply Forall_app. split; [exact Hacc|]. constructor; [|constructor].
      apply to_directed_like. rewrite Forall_forall in Hu. now apply Hu.
    + apply Forall_app. split.
      * exact (remove_edges_loop_like true _ _ _ [] gs
                 (to_directed_like _ _ Hself) (Forall_nil _) Hl).
      * constructor; [|constructor]. exact (to_directed_like _ _ Hself).
  - intros H. apply (Forall_impl _ Hshape). now apply Hu.
Qed.

Lemma xrange_In a b x : In x (xrange a b) <-> a <= x < b.
Proof.
  unfold xrange. rewrite in_map_iff. split.
  - intros [i [<- Hi]]. apply in_seq in Hi. lia.
  - intros H. exists (Z.to_nat (x - a)). split; [lia|]. apply in_seq. lia.
Qed.

Lemma number_from_motifs (P : Graph -> Prop) (graphs : list Graph) :
  Forall P graphs ->
  forall motifs i,
    Forall (fun r : record Graph => P (motif r)) motifs ->
    Forall (fun r : record Graph => P (motif r))
      (fst (fold_left (fun (st : list (record Graph) * Z) g =>
                         (fst st ++ [(snd st, g, PyInt 0)], (snd st + 1)%Z))
                      graphs (motifs, i))).
Proof.
  induction 1 as [|g graphs Hg _ IH]; intros motifs i Hm; simpl; [exact Hm|].
  apply IH. apply Forall_app. split; [exact Hm|]. constructor; [exact Hg | constructor].
Qed.

Lemma get_motifs_loop_shapes (tau : Z) (d : bool) (vs : list Z) :
  (forall v, In v vs -> 2 <= v <= tau) ->
  forall motifs i ms,
    Forall (fun r : record Graph => catalogue_motif tau d (motif r)) motifs ->
    get_motifs_loop vs d motifs i = OK ms ->
    Forall (fun r : record Graph => catalogue_motif tau d (motif r)) ms.
Proof.
  induction vs as [|v vs IH]; intros Hvs motifs i ms Hm; simpl.
  - intros H. now injection H as <-.
  - destruct (all_graphs v d) as [graphs|] eqn:Hg; [|discriminate]. cbn [bind].
    apply IH; [intros v' Hv'; apply Hvs; now right|].
    apply number_from_motifs; [|exact Hm].
    apply all_graphs_shapes in Hg.
    apply (Forall_impl _ (P := motif_shape (Z.to_nat v) d)); [|exact Hg].
    intros h Hh. exists (Z.to_nat v).
    specialize (Hvs v (or_introl eq_refl)). split; [lia|]. split; [lia | exact Hh].
Qed.

Lemma get_motifs_shapes (tau : Z) (d : bool) (ms : list (record Graph)) :
  get_motifs tau d = OK ms ->
  Forall (fun r : record Graph => catalogue_motif tau d (motif r)) ms.
Proof.
  unfold get_motifs. apply get_motifs_loop_shapes; [|constructor].
  intros v Hv. apply xrange_In in Hv. lia.
Qed.

(** Renumbering *)

Lemma index_of_map (l : list node) :
  NoDup l ->
  forall first, map (fun n => index_of n l first) l = consecutive first (length l).
Proof.
  induction 1 as [|m l Hm Hnd IH]; intros first; [reflexivity|].
  cbn [map length]. rewrite consecutive_cons. cbn [index_of]. rewrite Z.eqb_refl.
  f_equal. rewrite <- IH. apply map_ext_in. intros n Hn.
  destruct (n =? m) eqn:E; [|reflexivity].
  apply Z.eqb_eq in E. subst. contradiction.
Qed.

Lemma fold_add_node_map (f : node -> node) (l : list node) :
  forall e, fold_left (fun h n => add_node h (f n)) l e
            = fold_left add_node (map f l) e.
Proof.
  induction l as [|n l IH]; intros e; [reflexivity|]. simpl. apply IH.
Qed.

Lemma convert_spec g first_label :
  tidy g ->
  tidy (convert_node_labels_to_integers g first_label)
  /\ directed (convert_node_labels_to_integers g first_label) = directed g
  /\ nodes (convert_node_labels_to_integers g first_label)
     = consecutive first_label (length (nodes g)).
Proof.
  intros Hg.
  pose (f := fun n => index_of n (nodes g) first_label).
  pose (F := fun e : edge => (f (fst e), f (snd e))).
  pose (e0 := mkGraph (directed g)
                (String.append "(" (String.append (name g) ")_with_int_labels")) []).
  assert (Heq : convert_node_labels_to_integers g first_label
                = fold_left (fun h e => add_edge h (fst (F e)) (snd (F e))) (edges g)
                    (fold_left add_node (map f (nodes g)) e0)).
  { exact (f_equal (fold_left (fun h e => add_edge h (fst (F e)) (snd (F e))) (edges g))
             (fold_add_node_map f (nodes g) e0)). }
  rewrite Heq. clear Heq.
  destruct (fold_add_node_spec (map f (nodes g)) e0 (empty_tidy _ _)) as [A1 [A2 A3]].
  destruct (fold_add_edge_spec (edges g) F _ A1) as [B1 [B2 B3]].
  split; [exact B1|]. split; [exact (eq_trans B2 A2)|].
  assert (Hmap : map f (nodes g) = consecutive first_label (length (nodes g))).
  { apply index_of_map. apply sorted_NoDup. apply Hg. }
  apply nodes_by_elements; [apply B1 | apply consecutive_sorted|].
  intros x. rewrite B3, A3, <- Hmap. simpl. split; [|tauto].
  intros [[e [Hin Hx]] | [H | []]]; [|exact H].
  destruct e as [u v]. destruct (edges_endpoints g u v Hg Hin) as [Hu Hv].
  simpl in Hx. destruct Hx as [-> | ->]; now apply in_map.
Qed.

(** Composition *)

Lemma compose_spec g h :
  tidy g -> tidy h ->
  tidy (compose g h) /\ directed (compose g h) = directed g
  /\ forall x, In x (nodes (compose g h)) <-> In x (nodes g) \/ In x (nodes h).
Proof.
  intros Hg Hh. unfold compose.
  match goal with |- context [fold_left add_node _ ?e] => set (e0 := e) end.
  destruct (fold_add_node_spec (nodes h ++ nodes g) e0 (empty_tidy _ _)) as [A1 [A2 A3]].
  destruct (fold_add_edge_spec (edges h ++ edges g) (fun e => e) _ A1) as [B1 [B2 B3]].
  split; [exact B1|]. split; [exact (eq_trans B2 A2)|].
  intros x. etransitivity; [exact (B3 x)|].
  rewrite A3, in_app_iff. simpl. split; [|tauto].
  intros [[[u v] [Hin Hx]] | [[H | H] | []]]; [|tauto|tauto].
  simpl in Hx. apply in_app_iff in Hin. destruct Hin as [Hin | Hin].
  - destruct (edges_endpoints h u v Hh Hin). destruct Hx as [-> | ->]; tauto.
  - destruct (edges_endpoints g u v Hg Hin). destruct Hx as [-> | ->]; tauto.
Qed.

Lemma fold_max_consecutive k : forall first x,
  x < first -> fold_left Z.max (consecutive first k) x = first + Z.of_nat k - 1 \/ k = O.
Proof.
  intros. destruct k; auto. left. revert first x H.
  induction k as [|k IH]; intros first x H.
  - cbn. lia.
  - rewrite consecutive_cons. cbn [fold_left]. rewrite (IH (first + 1) (Z.max x first)); lia.
Qed.

Lemma py_max_consecutive first k :
  py_max (consecutive first (S k)) = OK (first + Z.of_nat k).
Proof.
  rewrite consecutive_cons. cbn [py_max]. f_equal.
  destruct (fold_max_consecutive k (first + 1) first) as [-> | ->]; [lia | lia | cbn; lia].
Qed.

Lemma fold_min_consecutive k : forall first x,
  x < first -> fold_left Z.min (consecutive first k) x = x.
Proof.
  induction k as [|k IH]; intros first x H; [reflexivity|].
  rewrite consecutive_cons. cbn [fold_left]. rewrite (IH (first + 1) (Z.min x first)); lia.
Qed.

Lemma py_min_consecutive first k :
  py_min (consecutive first (S k)) = OK first.
Proof.
  rewrite consecutive_cons. cbn [py_min]. f_equal. apply fold_min_consecutive. lia.
Qed.

Lemma number_of_nodes_length g : number_of_nodes g = Z.of_nat (length (nodes g)).
Proof. unfold number_of_nodes, nodes. now rewrite length_map. Qed.

Lemma add_edge_tidy_nodes g u v l :
  tidy g -> nodes g = l -> In u l -> In v l -> nodes (add_edge g u v) = l.
Proof.
  intros Hg Hn Hu Hv.
  assert (Hs : StronglySorted Z.lt l) by (rewrite <- Hn; apply Hg).
  apply nodes_by_elements; [now apply add_edge_tidy | exact Hs|].
  intros x. rewrite add_edge_nodes, Hn. intuition (subst; auto).
Qed.

Lemma rand_add_spec (draws : Z * Z) (base new : Graph) (N k : nat) :
  tidy base -> nodes base = consecutive 0 N -> tidy new -> length (nodes new) = k ->
  (N = O \/ (k < 2)%nat -> rand_add draws base new = Raise ValueError)
  /\ ((1 <= N)%nat -> (2 <= k)%nat ->
      exists u v,
        0 <= u < Z.of_nat N /\ Z.of_nat N <= v < Z.of_nat N + Z.of_nat k - 1
        /\ rand_add draws base new
           = OK (add_edge (compose base (convert_node_labels_to_integers new (Z.of_nat N))) u v)
        /\ tidy (add_edge (compose base (convert_node_labels_to_integers new (Z.of_nat N))) u v)
        /\ nodes (add_edge (compose base (convert_node_labels_to_integers new (Z.of_nat N))) u v)
           = consecutive 0 (N + k)
        /\ directed (add_edge (compose base (convert_node_labels_to_integers new (Z.of_nat N))) u v)
           = directed base).
Proof.
  intros Hb Hn Hnew Hk.
  destruct N as [|N].
  - split; [|lia]. intros _. unfold rand_add. rewrite Hn. reflexivity.
  - destruct (convert_spec new (Z.of_nat (S N)) Hnew) as [C1 [C2 C3]].
    rewrite Hk in C3.
    set (u := 0 + fst draws mod (Z.of_nat (S N) - 0)).
    assert (Hpre : rand_add draws base new
                   = (low <- py_min (consecutive (Z.of_nat (S N)) k) ;;
                      high <- py_max (consecutive (Z.of_nat (S N)) k) ;;
                      new_connector <- randint low high (snd draws) ;;
                      OK (add_edge
                            (compose base
                               (convert_node_labels_to_integers new (Z.of_nat (S N))))
                            u new_connector))).
    { unfold rand_add. rewrite Hn at 1. rewrite py_max_consecutive. cbn [bind].
      replace (0 + Z.of_nat N + 1) with (Z.of_nat (S N)) by lia.
      rewrite number_of_nodes_length, Hn, consecutive_length.
      unfold randint at 1.
      replace (Z.of_nat (S N) <=? 0) with false by (symmetry; apply Z.leb_gt; lia).
      cbn [bind]. rewrite C3. reflexivity. }
    rewrite Hpre. clear Hpre.
    split.
    + intros [H | H]; [discriminate|].
      destruct k as [|[|k]]; [reflexivity| |lia].
      rewrite py_min_consecutive, py_max_consecutive. cbn [bind].
      unfold randint. replace (_ <=? _) with true by (symmetry; apply Z.leb_le; lia).
      reflexivity.
    + intros _ H2. destruct k as [|k]; [lia|].
      rewrite py_min_consecutive, py_max_consecutive. cbn [bind].
      unfold randint. replace (_ <=? _) with false by (symmetry; apply Z.leb_gt; lia).
      cbn [bind].
      set (v := Z.of_nat (S N) + snd draws mod (Z.of_nat (S N) + Z.of_nat k - Z.of_nat (S N))).
      assert (Hu : 0 <= u < Z.of_nat (S N)).
      { subst u. pose proof (Z.mod_pos_bound (fst draws) (Z.of_nat (S N) - 0)). lia. }
      assert (Hv : Z.of_nat (S N) <= v < Z.of_nat (S N) + Z.of_nat (S k) - 1).
      { subst v.
        pose proof (Z.mod_pos_bound (snd draws) (Z.of_nat (S N) + Z.of_nat k - Z.of_nat (S N))).
        lia. }
      exists u, v. split; [exact Hu|]. split; [exact Hv|]. split; [reflexivity|].
      destruct (compose_spec base _ Hb C1) as [D1 [D2 D3]].
      assert (Hc : nodes (compose base (convert_node_labels_to_integers new (Z.of_nat (S N))))
                   = consecutive 0 (S N + S k)).
      { apply nodes_by_elements; [apply D1 | apply consecutive_sorted|].
        intros x. rewrite D3, C3, Hn, !consecutive_In. lia. }
      split; [now apply add_edge_tidy|].
      split; [|now rewrite add_edge_directed].
      apply add_edge_tidy_nodes; [exact D1 | exact Hc | |]; apply consecutive_In; lia.
Qed.

Section RandAddGrowth.

Variable pmf : Z -> float -> float.
Variable uniform : nat -> float.
Variable tau : Z.
Variable poisson : bool.
Variable c : Z.
Variable R : growth_rule.
Hypothesis R_rand_add : forall b n, exists d, R b n = rand_add d b n.

Lemma pass_rand_add self e N :
  rule self = Some R -> numbered self N -> (1 <= N)%nat ->
  match simulate_body pmf uniform self tau poisson e with
  | (OK self', _) =>
      rule self' = Some R /\ termination self' = termination self
      /\ exists k, (2 <= k)%nat /\ Z.of_nat k <= tau /\ numbered self' (N + k)
  | (Raise x, _) => x = IndexError \/ (poisson = false /\ x = ZeroDivisionError)
  end.
Proof.
  intros Hr [Ht Hn] HN. rewrite simulate_body_cases. unfold pass_result.
  destruct (motif_counts_total self tau) as [dist Hd]. rewrite Hd.
  destruct (motif_counts_motifs self tau dist Hd) as [ms [Hms Hmap]].
  pose proof (get_motifs_shapes tau _ ms Hms) as Hshape.
  destruct (if poisson then _ else _) as [mass|x] eqn:Hm.
  - assert (Hmass : map (@motif Graph) mass = map (@motif Graph) ms).
    { rewrite <- Hmap. destruct poisson.
      - injection Hm as <-. apply poisson_mass_motifs.
      - apply count_ratios_motifs in Hm. apply Hm. }
    assert (Hdiv : forall x, probabilities mass = Raise x ->
                             poisson = false /\ x = ZeroDivisionError).
    { intros x Hx. destruct poisson.
      - injection Hm as <-.
        destruct (probabilities_of_numpy _ (poisson_mass_numpy pmf dist)) as [ps Hps].
        congruence.
      - split; [reflexivity|]. unfold probabilities in Hx.
        apply map_res_raises in Hx. destruct Hx as [r [_ Hx]].
        now apply div_raises in Hx. }
    destruct (probabilities mass) as [ps|x] eqn:Hps; [|right; now apply Hdiv].
    destruct (draw_structure mass _) as [new|x] eqn:Hdraw.
    + rewrite Hr.
      apply draw_structure_listed in Hdraw.
      rewrite Hmass in Hdraw. apply in_map_iff in Hdraw.
      destruct Hdraw as [r [<- Hin]].
      rewrite Forall_forall in Hshape.
      destruct (Hshape r Hin) as [k [Hk2 [Hkt [Hs1 [Hs2 Hs3]]]]].
      destruct (R_rand_add (base self) (motif r)) as [d ->].
      assert (Hlen : length (nodes (motif r)) = k)
        by (rewrite Hs2; apply consecutive_length).
      destruct (proj2 (rand_add_spec d (base self) (motif r) N k Ht Hn Hs1 Hlen) HN Hk2)
        as [u [v [_ [_ [-> [T1 [T2 _]]]]]]].
      split; [exact Hr|]. split; [reflexivity|].
      exists k. split; [exact Hk2|]. split; [exact Hkt|]. split; [exact T1 | exact T2].
    + destruct (draw_structure_raises_in_division mass _ x Hdraw) as [-> | Hx];
        [now left | congruence].
  - destruct poisson; [discriminate|]. right. split; [reflexivity|].
    unfold count_ratios in Hm. apply map_res_raises in Hm. destruct Hm as [r [_ Hr']].
    destruct (div _ _) eqn:Hdiv; [discriminate|]. simpl in Hr'. injection Hr' as <-.
    now apply div_raises in Hdiv.
Qed.

Lemma loop_rand_add :
  forall fuel self e N,
    termination self = Some (below_ceiling c) -> rule self = Some R ->
    numbered self N -> (1 <= N)%nat ->
    (Z.to_nat (c - Z.of_nat N) <= fuel)%nat ->
    let '(o, self', _) := simulate_loop pmf uniform fuel self tau poisson e in
    o <> OutOfFuel
    /\ (o = Finished ->
        exists N', numbered self' N' /\ c <= Z.of_nat N'
                   /\ (N' = N \/ (N < N')%nat /\ Z.of_nat N' < c + tau))
    /\ (forall x, o = Failed x ->
        x = IndexError \/ (poisson = false /\ x = ZeroDivisionError)).
Proof.
  induction fuel as [|fuel IH]; intros self e N HT HR Hnum HN Hfuel;
    cbn [simulate_loop]; unfold while_test, mbind, apply_termination; rewrite HT;
    unfold lift, below_ceiling; cbn [truth];
    rewrite number_of_nodes_length, (proj2 Hnum), consecutive_length;
    destruct (Z.of_nat N <? c) eqn:Hc;
    try (split; [discriminate|]; split; [|discriminate];
         intros _; exists N; split; [exact Hnum|]; split; [|now left];
         apply Z.ltb_ge in Hc; lia).
  - apply Z.ltb_lt in Hc. lia.
  - apply Z.ltb_lt in Hc.
    pose proof (pass_rand_add self e N HR Hnum HN) as Hp.
    destruct (simulate_body pmf uniform self tau poisson e) as [[self1|x] e1].
    + destruct Hp as [HR1 [HT1 [k [Hk2 [Hkt Hnum1]]]]].
      rewrite HT in HT1.
      assert (Hfuel1 : (Z.to_nat (c - Z.of_nat (N + k)) <= fuel)%nat) by lia.
      specialize (IH self1 e1 (N + k)%nat HT1 HR1 Hnum1 ltac:(lia) Hfuel1).
      destruct (simulate_loop pmf uniform fuel self1 tau poisson e1) as [[o self'] e'].
      destruct IH as [I1 [I2 I3]].
      split; [exact I1|]. split; [|exact I3].
      intros Ho. destruct (I2 Ho) as [N' [Hn' [Hc' Hor]]].
      exists N'. split; [exact Hn'|]. split; [exact Hc'|]. right. lia.
    + split; [discriminate|]. split; [discriminate|].
      intros y Hy. injection Hy as <-. exact Hp.
Qed.

Lemma loop_rand_add_above :
  forall fuel self e N,
    termination self = Some (node_ceiling c) -> rule self = Some R ->
    numbered self N -> (1 <= N)%nat -> c <= Z.of_nat N ->
    let '(o, _, _) := simulate_loop pmf uniform fuel self tau poisson e in
    o <> Finished.
Proof.
  induction fuel as [|fuel IH]; intros self e N HT HR Hnum HN Hc;
    cbn [simulate_loop]; unfold while_test, mbind, apply_termination; rewrite HT;
    unfold lift, node_ceiling; cbn [truth];
    rewrite number_of_nodes_length, (proj2 Hnum), consecutive_length;
    replace (c <=? Z.of_nat N) with true by (symmetry; now apply Z.leb_le).
  - discriminate.
  - pose proof (pass_rand_add self e N HR Hnum HN) as Hp.
    destruct (simulate_body pmf uniform self tau poisson e) as [[self1|x] e1];
      [|discriminate].
    destruct Hp as [HR1 [HT1 [k [Hk2 [Hkt Hnum1]]]]].
    rewrite HT in HT1.
    exact (IH self1 e1 (N + k)%nat HT1 HR1 Hnum1 ltac:(lia) ltac:(lia)).
Qed.

End RandAddGrowth.

Lemma gmm_init_base (G : pyval) (T : option termination_rule) (R : option growth_rule)
    (e e' : env) (m : gmm) :
  gmm_init G T R e = (OK m, e') ->
  exists g, G = VGraph g /\ base m = convert_node_labels_to_integers g 0
            /\ original m = base m.
Proof.
  unfold gmm_init, mbind, ret, throw, except_TypeError, lift, call_rule, print.
  destruct G as [g|]; [|discriminate].
  destruct (1 <? number_of_edges g); [|discriminate].
  intros H. exists g. split; [reflexivity|].
  destruct T as [t|]; [destruct (t _) as [[b|nz]|[]]|];
    destruct R as [r|]; try (destruct (r _ _) as [x|[]]);
    simpl in H; try discriminate; injection H as <- _; split; reflexivity.
Qed.

(** *** The graphs of the catalogue *)

(** [all_graphs(n, d)] raises nothing, and each of its graphs has all the
    nodes [0 .. n-1] and the class asked for. [get_motifs(tau, d)] raises
    nothing, and each of its motifs has the nodes [0 .. k-1] for some [k]
    with [2 <= k <= tau], and the class asked for. *)
Theorem catalogue_graphs_numbered_from_zero (n tau : Z) (directed_motifs : bool) :
  match all_graphs n directed_motifs with
  | OK graphs =>
      Forall (fun g => nodes g = range (Z.to_nat n)
                       /\ is_directed g = directed_motifs) graphs
  | Raise _ => False
  end
  /\ match get_motifs tau directed_motifs with
     | OK motifs =>
         Forall (fun r : record Graph =>
                   exists k : nat,
                     (2 <= k)%nat /\ Z.of_nat k <= tau
                     /\ nodes (motif r) = range k
                     /\ is_directed (motif r) = directed_motifs) motifs
     | Raise _ => False
     end.
Proof.
  split.
  - destruct (all_graphs_total n directed_motifs) as [graphs Hg]. rewrite Hg.
    apply all_graphs_shapes in Hg.
    apply (Forall_impl _ (P := motif_shape (Z.to_nat n) directed_motifs)); [|exact Hg].
    intros g [_ [H1 H2]]. rewrite range_consecutive. now split.
  - destruct (get_motifs_total tau directed_motifs) as [ms [Hm _]]. rewrite Hm.
    apply get_motifs_shapes in Hm.
    apply (Forall_impl _ (P := fun r : record Graph =>
                                 catalogue_motif tau directed_motifs (motif r)));
      [|exact Hm].
    intros r [k [H1 [H2 [_ [H3 H4]]]]]. exists k. rewrite range_consecutive.
    split; [exact H1|]. split; [exact H2|]. now split.
Qed.

(** *** The numbering of the base *)

(** The base of a model is numbered from 0: for a graph whose neighbours
    are nodes of it, a constructor call that returns and a [set_base] with
    two edges or more leave a base with the nodes [0 .. n-1], [n] the number
    of nodes of the graph, and the class of the graph. *)
Theorem gmm_base_numbered_from_zero (g : Graph) :
  tidy g ->
  (forall T R e m e',
      gmm_init (VGraph g) T R e = (OK m, e') ->
      tidy (base m) /\ nodes (base m) = range (length (nodes g))
      /\ is_directed (base m) = is_directed g
      /\ original m = base m)
  /\ (forall self e,
        1 < number_of_edges g ->
        exists self',
          set_base self (VGraph g) e = (OK self', e)
          /\ tidy (base self') /\ nodes (base self') = range (length (nodes g))
          /\ is_directed (base self') = is_directed g).
Proof.
  intros Hg. destruct (convert_spec g 0 Hg) as [C1 [C2 C3]].
  rewrite <- range_consecutive in C3. split.
  - intros T R e m e' H. apply gmm_init_base in H.
    destruct H as [g' [Eg [Hb Ho]]]. injection Eg as <-. rewrite Hb.
    split; [exact C1|]. split; [exact C3|]. split; [exact C2|]. now rewrite <- Hb.
  - intros self e He. unfold set_base.
    replace (1 <? number_of_edges g) with true by (symmetry; now apply Z.ltb_lt).
    eexists. split; [reflexivity|]. split; [exact C1|]. split; [exact C3 | exact C2].
Qed.

(** The complete graph on three nodes. *)
Lemma gmm_base_numbered_from_zero_witness :
  exists self',
    set_base (mkGmm test_triangle true five_cycle five_cycle None None)
      (VGraph (complete_graph 3)) env0 = (OK self', env0)
    /\ tidy (base self') /\ nodes (base self') = range 3
    /\ is_directed (base self') = false.
Proof.
  apply (proj2 (gmm_base_numbered_from_zero (complete_graph 3)
                  (proj1 (complete_graph_spec 3)))
           (mkGmm test_triangle true five_cycle five_cycle None None) env0).
  reflexivity.
Defined.

(** *** The growth rule [rand_add] *)

(** On a base with the nodes [0 .. N-1] and a new structure of [k] nodes,
    whatever the generator supplies: with an empty base or fewer than two
    new nodes [rand_add] raises a [ValueError]; otherwise it returns the
    base composed with the new structure renumbered [N .. N+k-1], plus one
    edge from a node of the base to a node of the new structure that is not
    its last one, so the result has the nodes [0 .. N+k-1] and the class of
    the base. *)
Theorem rand_add_extends_numbering (draws : Z * Z) (base new : Graph) (N k : nat) :
  tidy base -> nodes base = range N -> tidy new -> length (nodes new) = k ->
  (N = O \/ (k < 2)%nat -> rand_add draws base new = Raise ValueError)
  /\ ((1 <= N)%nat -> (2 <= k)%nat ->
      exists u v r,
        0 <= u < Z.of_nat N /\ Z.of_nat N <= v < Z.of_nat N + Z.of_nat k - 1
        /\ r = add_edge (compose base (convert_node_labels_to_integers new (Z.of_nat N))) u v
        /\ rand_add draws base new = OK r
        /\ tidy r /\ nodes r = range (N + k) /\ is_directed r = is_directed base).
Proof.
  intros Hb Hn Hnew Hk. rewrite range_consecutive in Hn.
  destruct (rand_add_spec draws base new N k Hb Hn Hnew Hk) as [H1 H2].
  split; [exact H1|]. intros HN Hk2.
  destruct (H2 HN Hk2) as [u [v [Hu [Hv [Hr [Ht [Hnodes Hd]]]]]]].
  exists u, v, (add_edge (compose base (convert_node_labels_to_integers new (Z.of_nat N))) u v).
  rewrite range_consecutive.
  split; [exact Hu|]. split; [exact Hv|]. split; [reflexivity|]. split; [exact Hr|].
  split; [exact Ht|]. split; [exact Hnodes | exact Hd].
Qed.

(** The triangle as base and the dyad as new structure. *)
Lemma rand_add_extends_numbering_witness :
  exists u v r,
    0 <= u < 3 /\ 3 <= v < 3 + 2 - 1
    /\ r = add_edge (compose (complete_graph 3)
                       (convert_node_labels_to_integers (complete_graph 2) 3)) u v
    /\ rand_add (7, 5) (complete_graph 3) (complete_graph 2) = OK r
    /\ tidy r /\ nodes r = range 5 /\ is_directed r = false.
Proof.
  apply (proj2 (rand_add_extends_numbering (7, 5) (complete_graph 3) (complete_graph 2)
                  3 2 (proj1 (complete_graph_spec 3)) eq_refl
                  (proj1 (complete_graph_spec 2)) eq_refl));
    lia.
Defined.

(** *** Growth under [rand_add] up to a node ceiling *)

(** A model whose base has the nodes [0 .. N-1], whose growth rule is
    [rand_add] and whose termination rule is true below a ceiling of [c]
    nodes: with [tau >= 2] the loop of [simulate] ends within [c - N]
    passes; the growth rule raises nothing, so a run that raises raised an
    [IndexError] or a [ZeroDivisionError] while weighting or drawing; and a
    run that returns leaves a base with the nodes [0 .. N'-1], where
    [N' >= c], and either [N' = N] (no pass) or [N < N' < c + tau]. With
    the Poisson policy the masses are [numpy.float64] values and no
    division raises, so only the [IndexError] is left. *)
Theorem simulate_rand_add_reaches_ceiling (pmf : Z -> float -> float)
    (uniform : nat -> float) (fuel : nat) (self : gmm) (tau : Z) (poisson : bool)
    (new_name : string) (e : env) (c : Z) (R : growth_rule) (N : nat) :
  (forall b n, exists d, R b n = rand_add d b n) ->
  termination self = Some (below_ceiling c) -> rule self = Some R ->
  tidy (base self) -> nodes (base self) = range N -> (1 <= N)%nat ->
  2 <= tau ->
  (Z.to_nat (c - Z.of_nat N) <= fuel)%nat ->
  let '(o, self', _) := simulate pmf uniform fuel self tau poisson new_name e in
  o <> OutOfFuel
  /\ (o = Finished ->
      exists N' : nat,
        tidy (base self') /\ nodes (base self') = range N'
        /\ c <= Z.of_nat N'
        /\ (N' = N \/ (N < N')%nat /\ Z.of_nat N' < c + tau))
  /\ (forall x, o = Failed x ->
      x = IndexError \/ (poisson = false /\ x = ZeroDivisionError)).
Proof.
  intros HRA HT HR Ht Hn HN Htau Hfuel. unfold simulate.
  rewrite range_consecutive in Hn.
  replace (tau <? 2) with false by (symmetry; apply Z.ltb_ge; lia).
  pose proof (loop_rand_add pmf uniform tau poisson c R HRA fuel self e N HT HR
                (conj Ht Hn) HN Hfuel) as H.
  destruct (simulate_loop pmf uniform fuel self tau poisson e) as [[o self'] e'].
  destruct H as [H1 [H2 H3]].
  destruct o; (split; [exact H1|]; split; [|exact H3]); try discriminate.
  intros _. destruct (H2 eq_refl) as [N' [[Hn1 Hn2] [Hc Hor]]].
  exists N'. rewrite range_consecutive.
  split; [now apply set_name_tidy|]. split; [exact Hn2|]. split; [exact Hc | exact Hor].
Qed.

(** The triangle with a ceiling of four nodes and masses that are all
    0.0: the dyad, first in the catalogue, is drawn and the run returns
    with five nodes. *)
Lemma simulate_rand_add_reaches_ceiling_witness :
  let self := mkGmm test_triangle true (complete_graph 3) (complete_graph 3)
                (Some (below_ceiling 4)) (Some (rand_add (7, 5))) in
  fst (fst (simulate zero_pmf (fun _ => 0.75%float) 1 self 2 true
              "GMM Simulation" env0)) = Finished
  /\ let '(o, self', _) :=
       simulate zero_pmf (fun _ => 0.75%float) 1 self 2 true "GMM Simulation" env0 in
     o <> OutOfFuel
     /\ (o = Finished ->
         exists N' : nat,
           tidy (base self') /\ nodes (base self') = range N'
           /\ 4 <= Z.of_nat N'
           /\ (N' = 3%nat \/ (3 < N')%nat /\ Z.of_nat N' < 4 + 2))
     /\ (forall x, o = Failed x ->
         x = IndexError \/ (true = false /\ x = ZeroDivisionError)).
Proof.
  intros self. split; [vm_compute; reflexivity|].
  apply (simulate_rand_add_reaches_ceiling zero_pmf
           (fun _ => 0.75%float) 1 self 2 true "GMM Simulation" env0 4
           (rand_add (7, 5)) 3).
  - intros b n. now exists (7, 5).
  - reflexivity.
  - reflexivity.
  - apply complete_graph_spec.
  - reflexivity.
  - lia.
  - lia.
  - simpl. lia.
Defined.

(** *** Growth under [rand_add] with the ceiling of the class documentation *)

(** With the termination rule of the class documentation, which is true
    once the base has [c] nodes, and the growth rule [rand_add]: on a base
    with the nodes [0 .. N-1] where [N >= c], no run of [simulate] returns,
    however many passes it is given; the rule stays true on every base that
    [rand_add] builds. *)
Theorem simulate_rand_add_past_ceiling_never_returns (pmf : Z -> float -> float)
    (uniform : nat -> float) (fuel : nat) (self : gmm) (tau : Z) (poisson : bool)
    (new_name : string) (e : env) (c : Z) (R : growth_rule) (N : nat) :
  (forall b n, exists d, R b n = rand_add d b n) ->
  termination self = Some (node_ceiling c) -> rule self = Some R ->
  tidy (base self) -> nodes (base self) = range N -> (1 <= N)%nat ->
  c <= Z.of_nat N ->
  let '(o, _, _) := simulate pmf uniform fuel self tau poisson new_name e in
  o <> Finished.
Proof.
  intros HRA HT HR Ht Hn HN Hc. unfold simulate.
  rewrite range_consecutive in Hn.
  destruct (tau <? 2); [discriminate|].
  pose proof (loop_rand_add_above pmf uniform tau poisson c R HRA fuel self e N HT HR
                (conj Ht Hn) HN Hc) as H.
  destruct (simulate_loop pmf uniform fuel self tau poisson e) as [[o self'] e'].
  destruct o; [now elim H | discriminate | discriminate].
Qed.

(** The triangle with a ceiling of three nodes. *)
Lemma simulate_rand_add_past_ceiling_never_returns_witness :
  let self := mkGmm test_triangle true (complete_graph 3) (complete_graph 3)
                (Some (node_ceiling 3)) (Some (rand_add (7, 5))) in
  let '(o, _, _) :=
    simulate (fun k _ => float_of_Z (k + 1)) (fun _ => 0.75%float) 2 self 2 true
      "GMM Simulation" env0 in
  o <> Finished.
Proof.
  intros self.
  apply (simulate_rand_add_past_ceiling_never_returns (fun k _ => float_of_Z (k + 1))
           (fun _ => 0.75%float) 2 self 2 true "GMM Simulation" env0 3
           (rand_add (7, 5)) 3).
  - intros b n. now exists (7, 5).
  - reflexivity.
  - reflexivity.
  - apply complete_graph_spec.
  - reflexivity.
  - lia.
  - lia.
Defined.

End GraphShapes.
